(** * libRocket [ElementAnimation]: keyframe timeline, value interpolation
      and transform reconciliation

    Shallow embedding of [Source/Core/ElementAnimation.cpp].

    - C++ [float] is IEEE-754 binary32, modelled bit-exactly with the
      Standard Library's [spec_float] operations at precision 24 and
      [emax = 128] (round to nearest, ties to even, every operation rounded
      to binary32: no excess precision).
    - C++ [int] is [Z].  The only [int] that is incremented without a bound is
      [current_iteration]; it would need [2^31] completed iterations to leave
      the range of [int], so no wrap-around is written out for it.
    - [std::vector] is [list], indexed with stdpp's lookup.
    - [TransformRef] is a shared pointer: transforms live in a store and key
      values hold locations into it, so that in-place mutation by the
      reconciler and aliasing between keys are visible. *)

From Stdlib Require Import ZArith Lia Bool String.
From Stdlib Require Import SpecFloat.
From Equations Require Import Equations.
From stdpp Require Import base option list sorting.

Local Open Scope Z_scope.

(** ** binary32 arithmetic *)

Module F32.

Definition prec : Z := 24.
Definition emax : Z := 128.

Definition float32 : Type := spec_float.

Definition add : float32 -> float32 -> float32 := SFadd prec emax.
Definition sub : float32 -> float32 -> float32 := SFsub prec emax.
Definition mul : float32 -> float32 -> float32 := SFmul prec emax.
Definition div : float32 -> float32 -> float32 := SFdiv prec emax.
Definition sqrt : float32 -> float32 := SFsqrt prec emax.

(** [a < b], [a <= b], [a > b], [a >= b]: all false when an operand is NaN. *)
Definition ltb (a b : float32) : bool := SFltb a b.
Definition leb (a b : float32) : bool := SFleb a b.
Definition gtb (a b : float32) : bool := SFltb b a.
Definition geb (a b : float32) : bool := SFleb b a.

(** [(float) z] for an integer [z]; exact for [|z| < 2^24]. *)
Definition of_Z (z : Z) : float32 := binary_normalize prec emax z 0 false.

Definition zero : float32 := S754_zero false.
Definition one : float32 := of_Z 1.
Definition c255 : float32 := of_Z 255.

Definition is_nan (x : float32) : bool :=
  match x with S754_nan => true | _ => false end.

Definition is_finite (x : float32) : bool :=
  match x with S754_zero _ | S754_finite _ _ _ => true | _ => false end.

(** Conversion of a float to an integer type truncates toward zero.  For
    NaN and the infinities the C++ conversion is undefined; the model
    returns 0 there. *)
Definition trunc (x : float32) : Z :=
  match x with
  | S754_finite s m e =>
      let a := match e with
               | Zneg p => Z.shiftr (Zpos m) (Zpos p)
               | _ => Z.shiftl (Zpos m) e
               end in
      if s then - a else a
  | _ => 0
  end.

(** [Math::SquareRoot(float)] and [Math::Clamp<float>] are declared in
    [Rocket/Core/Math.h], not in [ElementAnimation.cpp]: the square root is
    the correctly rounded binary32 one and [Clamp] is
    [value < min ? min : (value > max ? max : value)]. *)
Definition SquareRoot (x : float32) : float32 := sqrt x.

Definition Clamp (value min max : float32) : float32 :=
  if ltb value min then min else if gtb value max then max else value.

End F32.

Abbreviation float32 := F32.float32.

(** ** Colours *)

(** [Colourb]: four byte channels, each a [Z] in [0, 255]. *)
Record Colourb : Type := mkColourb {
  cb_red : Z; cb_green : Z; cb_blue : Z; cb_alpha : Z }.

Record Colourf : Type := mkColourf {
  cf_red : float32; cf_green : float32; cf_blue : float32; cf_alpha : float32 }.

Definition byte_range (x : Z) : Prop := 0 <= x <= 255.

Definition Colourb_wf (c : Colourb) : Prop :=
  byte_range (cb_red c) /\ byte_range (cb_green c) /\
  byte_range (cb_blue c) /\ byte_range (cb_alpha c).

(** [(Rocket::Core::byte) x]: truncation, then reduction to 8 bits. *)
Definition to_byte (x : float32) : Z := (F32.trunc x) mod 256.

Definition ColourToLinearSpace (c : Colourb) : Colourf :=
  {| cf_red := F32.SquareRoot (F32.div (F32.of_Z (cb_red c)) F32.c255);
     cf_green := F32.SquareRoot (F32.div (F32.of_Z (cb_green c)) F32.c255);
     cf_blue := F32.SquareRoot (F32.div (F32.of_Z (cb_blue c)) F32.c255);
     cf_alpha := F32.div (F32.of_Z (cb_alpha c)) F32.c255 |}.

Definition ColourFromLinearSpace (c : Colourf) : Colourb :=
  {| cb_red := to_byte (F32.Clamp (F32.mul (F32.mul (cf_red c) (cf_red c)) F32.c255) F32.zero F32.c255);
     cb_green := to_byte (F32.Clamp (F32.mul (F32.mul (cf_green c) (cf_green c)) F32.c255) F32.zero F32.c255);
     cb_blue := to_byte (F32.Clamp (F32.mul (F32.mul (cf_blue c) (cf_blue c)) F32.c255) F32.zero F32.c255);
     cb_alpha := to_byte (F32.Clamp (F32.mul (cf_alpha c) F32.c255) F32.zero F32.c255) |}.

(** The 256 byte values, for properties checked channel by channel. *)
Definition byte_values : list Z := map Z.of_nat (seq 0 256).

(** One RGB channel through both conversions. *)
Definition rgb_roundtrip (x : Z) : Z :=
  let l := F32.SquareRoot (F32.div (F32.of_Z x) F32.c255) in
  to_byte (F32.Clamp (F32.mul (F32.mul l l) F32.c255) F32.zero F32.c255).

(** The alpha channel through both conversions. *)
Definition alpha_roundtrip (x : Z) : Z :=
  let l := F32.div (F32.of_Z x) F32.c255 in
  to_byte (F32.Clamp (F32.mul l F32.c255) F32.zero F32.c255).

Definition within_one (x y : Z) : bool := (x - 1 <=? y) && (y <=? x + 1).

(** ** Values and properties

    [Variant.h] and [Property.h] are not part of [ElementAnimation.cpp].  The
    animation code distinguishes three value kinds ([FLOAT], [COLOURB],
    [TRANSFORMREF]) and treats every other kind alike; the other kinds are
    represented here by [NONE], [INT], [STRING] and [VECTOR2]. *)

(** A [TransformRef] is a location in the store of transforms. *)
Definition loc : Type := nat.

Inductive VariantType : Type :=
  NONE | INT | STRING | VECTOR2 | FLOAT | COLOURB | TRANSFORMREF.

#[global] Instance VariantType_eq_dec : EqDecision VariantType.
Proof. solve_decision. Defined.

Inductive Variant : Type :=
| V_NONE
| V_INT (i : Z)
| V_STRING (s : string)
| V_VECTOR2 (x y : float32)
| V_FLOAT (f : float32)
| V_COLOURB (c : Colourb)
| V_TRANSFORMREF (r : loc).

Definition GetType (v : Variant) : VariantType :=
  match v with
  | V_NONE => NONE
  | V_INT _ => INT
  | V_STRING _ => STRING
  | V_VECTOR2 _ _ => VECTOR2
  | V_FLOAT _ => FLOAT
  | V_COLOURB _ => COLOURB
  | V_TRANSFORMREF _ => TRANSFORMREF
  end.

Inductive PropertyUnit : Type :=
  UNKNOWN | KEYWORD | NUMBER | PX | PERCENT | COLOUR | TRANSFORM.

#[global] Instance PropertyUnit_eq_dec : EqDecision PropertyUnit.
Proof. solve_decision. Defined.

Record Property : Type := mkProperty {
  value : Variant;
  unit : PropertyUnit;
  specificity : Z }.

(** Modelled from the spec: the default-constructed [Property] ([Property
    result;]) is the "empty/unset result": no value, unknown unit. *)
Definition Property_empty : Property :=
  {| value := V_NONE; unit := UNKNOWN; specificity := -1 |}.

(** [Log::Message(Log::LT_WARNING, ...)]: the four warnings of
    [InterpolateValues], in source order. *)
Inductive LogMessage : Type :=
| Warn_must_be_same_unit (type0 type1 : VariantType)
| Warn_primitives_not_same_size
| Warn_primitives_not_same_type
| Warn_only_float_and_color (type0 : VariantType).

(** ** External collaborators

    The transform primitive library ([TransformPrimitive.h]), the matrix
    type, [Tween], [Element] and the [Variant] converters are used by
    [ElementAnimation.cpp] but defined elsewhere.  They are taken as
    parameters, with the signatures the call sites fix:
    - [primitive.index()] is [prim_index];
    - [bool Primitive::TryConvertToMatchingGenericType(Primitive&, Primitive&)]
      returns the converted pair on success and changes nothing on failure;
    - [void Primitive::SetIdentity()] is a function on primitives;
    - [bool Primitive::InterpolateWith(const Primitive&, float)] returns the
      interpolated primitive on success;
    - [bool Primitive::ResolveUnits(Element&)] returns its flag and the
      primitive it leaves behind;
    - [bool Primitive::ResolveTransform(Matrix4f&, Element&)] returns the
      matrix on success;
    - [bool DecomposedMatrix4::Decompose(const Matrix4f&)] returns the
      decomposed primitive on success;
    - [bool Variant::GetInto(float&)] returns the float on success. *)
Class Collaborators : Type := {
  Element : Type;
  Primitive : Type;
  Matrix4f : Type;
  Tween : Type;
  Tween_default : Tween;
  Tween_call : Tween -> float32 -> float32;
  GetInto_float : Variant -> option float32;
  prim_index : Primitive -> nat;
  TryConvertToMatchingGenericType : Primitive -> Primitive -> option (Primitive * Primitive);
  SetIdentity : Primitive -> Primitive;
  InterpolateWith : Primitive -> Primitive -> float32 -> option Primitive;
  ResolveUnits : Primitive -> Element -> bool * Primitive;
  ResolveTransform : Primitive -> Element -> option Matrix4f;
  Matrix4f_Identity : Matrix4f;
  Matrix4f_mul : Matrix4f -> Matrix4f -> Matrix4f;
  Decompose : Matrix4f -> option Primitive }.

(** Modelled from the spec: what the spec says of the absent primitive
    library.  An identity primitive is "a no-op instance of that primitive
    kind"; widening brings both primitives "to a shared, more general
    representation"; a "positional kind mismatch" makes the per-primitive
    interpolation fail. *)
Class CollaboratorLaws (C : Collaborators) : Prop := {
  SetIdentity_index : forall p, prim_index (SetIdentity p) = prim_index p;
  TryConvert_index : forall p q p' q',
    TryConvertToMatchingGenericType p q = Some (p', q') ->
    prim_index p' = prim_index q';
  InterpolateWith_index : forall p q a,
    prim_index p <> prim_index q -> InterpolateWith p q a = None }.

Section Animation.

Context {C : Collaborators}.

(** A [Transform] is its vector of primitives; the store maps locations to
    transforms.  A location that was never written reads as the empty
    transform; null references are not modelled. *)
Definition Transform : Type := list Primitive.
Definition Heap : Type := list Transform.

Definition deref (h : Heap) (r : loc) : Transform := default [] (h !! r).

(** [*r = t]: write through a reference that is alive in [h]. *)
Definition store (h : Heap) (r : loc) (t : Transform) : Heap := <[r := t]> h.

(** [TransformRef{ new Transform(t) }]. *)
Definition alloc (h : Heap) (t : Transform) : loc * Heap := (length h, h ++ [t]).

(** ** InterpolateValues *)

Definition Colourf_scale (c : Colourf) (a : float32) : Colourf :=
  {| cf_red := F32.mul (cf_red c) a; cf_green := F32.mul (cf_green c) a;
     cf_blue := F32.mul (cf_blue c) a; cf_alpha := F32.mul (cf_alpha c) a |}.

Definition Colourf_add (c d : Colourf) : Colourf :=
  {| cf_red := F32.add (cf_red c) (cf_red d); cf_green := F32.add (cf_green c) (cf_green d);
     cf_blue := F32.add (cf_blue c) (cf_blue d); cf_alpha := F32.add (cf_alpha c) (cf_alpha d) |}.

(** The loop [for (i = 0; i < p0.size(); i++)] of the [TRANSFORMREF] case,
    run on two vectors of equal size: [None] at the first position whose
    [InterpolateWith] fails, otherwise the primitives added to [t]. *)
Fixpoint interpolate_primitives (p0 p1 : list Primitive) (alpha : float32)
  : option (list Primitive) :=
  match p0, p1 with
  | x :: p0', y :: p1' =>
      match InterpolateWith x y alpha with
      | None => None
      | Some p =>
          match interpolate_primitives p0' p1' alpha with
          | None => None
          | Some t => Some (p :: t)
          end
      end
  | _, _ => Some []
  end.

Definition InterpolateValues (h : Heap) (v0 v1 : Variant) (alpha : float32)
  : Variant * Heap * list LogMessage :=
  let type0 := GetType v0 in
  let type1 := GetType v1 in
  if decide (type0 <> type1) then
    (v0, h, [Warn_must_be_same_unit type0 type1])
  else
    match v0, v1 with
    | V_FLOAT f0, V_FLOAT f1 =>
        let f := F32.add (F32.mul (F32.sub F32.one alpha) f0) (F32.mul alpha f1) in
        (V_FLOAT f, h, [])
    | V_COLOURB b0, V_COLOURB b1 =>
        let c0 := ColourToLinearSpace b0 in
        let c1 := ColourToLinearSpace b1 in
        let c := Colourf_add (Colourf_scale c0 (F32.sub F32.one alpha)) (Colourf_scale c1 alpha) in
        (V_COLOURB (ColourFromLinearSpace c), h, [])
    | V_TRANSFORMREF t0, V_TRANSFORMREF t1 =>
        let p0 := deref h t0 in
        let p1 := deref h t1 in
        if decide (length p0 <> length p1) then
          (V_TRANSFORMREF t0, h, [Warn_primitives_not_same_size])
        else
          match interpolate_primitives p0 p1 alpha with
          | None => (V_TRANSFORMREF t0, h, [Warn_primitives_not_same_type])
          | Some prims =>
              let '(t, h') := alloc h prims in
              (V_TRANSFORMREF t, h', [])
          end
    | _, _ => (v0, h, [Warn_only_float_and_color type0])
    end.

(** ** CombineAndDecompose *)

(** [m] after the loop [for (auto& primitive : t.GetPrimitives())]: the
    product of the matrices of the primitives that resolve. *)
Definition combine (t : Transform) (e : Element) : Matrix4f :=
  foldl (fun m primitive =>
           match ResolveTransform primitive e with
           | Some m_primitive => Matrix4f_mul m m_primitive
           | None => m
           end) Matrix4f_Identity t.

(** [None] for [return false] (the transform is left as it was), otherwise
    the transform after [ClearPrimitives(); AddPrimitive(decomposed)]. *)
Definition CombineAndDecompose (t : Transform) (e : Element) : option Transform :=
  match Decompose (combine t e) with
  | None => None
  | Some decomposed => Some [decomposed]
  end.

(** ** PrepareTransformPair *)

Inductive PrepareTransformResult : Type :=
  Unchanged | ChangedT0 | ChangedT1 | ChangedT0andT1 | Invalid.

#[global] Instance PrepareTransformResult_eq_dec : EqDecision PrepareTransformResult.
Proof. solve_decision. Defined.

Definition result_to_Z (r : PrepareTransformResult) : Z :=
  match r with
  | Unchanged => 0 | ChangedT0 => 1 | ChangedT1 => 2 | ChangedT0andT1 => 3 | Invalid => 4
  end.

Definition result_of_Z (z : Z) : PrepareTransformResult :=
  match z with
  | 0 => Unchanged | 1 => ChangedT0 | 2 => ChangedT1 | 3 => ChangedT0andT1 | _ => Invalid
  end.

(** [(int&)result |= (int)flag]. *)
Definition result_or (result flag : PrepareTransformResult) : PrepareTransformResult :=
  result_of_Z (Z.lor (result_to_Z result) (result_to_Z flag)).

(** The loop of the equal-size case, from position [i] with [n] positions
    left.  Returns [same_primitives], [result] and the two vectors, which keep
    the conversions made before a [break]. *)
Fixpoint same_size_loop (n : nat) (i : nat) (prims0 prims1 : list Primitive)
    (result : PrepareTransformResult)
  : bool * PrepareTransformResult * list Primitive * list Primitive :=
  match n with
  | O => (true, result, prims0, prims1)
  | S n' =>
      match prims0 !! i, prims1 !! i with
      | Some x0, Some x1 =>
          let p0_type := prim_index x0 in
          let p1_type := prim_index x1 in
          if decide (p0_type <> p1_type) then
            match TryConvertToMatchingGenericType x0 x1 with
            | None => (false, result, prims0, prims1)
            | Some (y0, y1) =>
                let result := if decide (prim_index y0 <> p0_type)
                              then result_or result ChangedT0 else result in
                let result := if decide (prim_index y1 <> p1_type)
                              then result_or result ChangedT1 else result in
                same_size_loop n' (S i) (<[i := y0]> prims0) (<[i := y1]> prims1) result
            end
          else same_size_loop n' (S i) prims0 prims1 result
      | _, _ => (true, result, prims0, prims1)
      end
  end.

(** State of the matching loops of the unequal-size case. *)
Record MatchState : Type := mkMatchState {
  ms_small : list Primitive;
  ms_big : list Primitive;
  ms_i_big : nat;
  ms_match_success : bool;
  ms_changed_big : bool;
  ms_matching_indices : list nat }.

(** The state with [match_success = false], as each round of the outer loop
    starts. *)
Definition unmatched (st : MatchState) : MatchState :=
  {| ms_small := ms_small st; ms_big := ms_big st; ms_i_big := ms_i_big st;
     ms_match_success := false; ms_changed_big := ms_changed_big st;
     ms_matching_indices := ms_matching_indices st |}.

(** The inner loop [for (; i_big < big.size(); i_big++)] for one [i_small],
    with [n] positions of [big] left; entered with [match_success = false]. *)
Fixpoint inner_match_loop (n : nat) (i_small : nat) (small_type : nat) (st : MatchState)
  : MatchState :=
  match n with
  | O => st
  | S n' =>
      let i_big := ms_i_big st in
      match ms_small st !! i_small, ms_big st !! i_big with
      | Some s, Some b =>
          let big_type := prim_index b in
          if decide (small_type = big_type) then
            (* exact match *)
            {| ms_small := ms_small st; ms_big := ms_big st;
               ms_i_big := i_big + 1; ms_match_success := true;
               ms_changed_big := ms_changed_big st;
               ms_matching_indices := ms_matching_indices st ++ [i_big] |}
          else
            match TryConvertToMatchingGenericType s b with
            | Some (s', b') =>
                {| ms_small := <[i_small := s']> (ms_small st);
                   ms_big := <[i_big := b']> (ms_big st);
                   ms_i_big := i_big + 1; ms_match_success := true;
                   ms_changed_big :=
                     if decide (prim_index b' <> big_type) then true else ms_changed_big st;
                   ms_matching_indices := ms_matching_indices st ++ [i_big] |}
            | None =>
                inner_match_loop n' i_small small_type
                  {| ms_small := ms_small st; ms_big := ms_big st;
                     ms_i_big := i_big + 1; ms_match_success := false;
                     ms_changed_big := ms_changed_big st;
                     ms_matching_indices := ms_matching_indices st |}
            end
      | _, _ => st
      end
  end.

(** The outer loop [for (i_small = 0; i_small < small.size(); i_small++)],
    with [n] positions of [small] left. *)
Fixpoint outer_match_loop (n : nat) (i_small : nat) (st : MatchState) : MatchState :=
  match n with
  | O => st
  | S n' =>
      match ms_small st !! i_small with
      | Some s =>
          let st := unmatched st in
          let small_type := prim_index s in
          let st := inner_match_loop (length (ms_big st) - ms_i_big st)%nat i_small small_type st in
          if ms_match_success st then outer_match_loop n' (S i_small) st else st
      | None => st
      end
  end.

(** [small.insert(small.begin() + i, p)]. *)
Definition vector_insert (i : nat) (p : Primitive) (small : list Primitive) : list Primitive :=
  take i small ++ p :: drop i small.

(** [for (size_t i = i0; i < match_index; i++)], with [n] positions left. *)
Fixpoint insert_identities (n : nat) (i : nat) (big small : list Primitive) : list Primitive :=
  match n with
  | O => small
  | S n' =>
      match big !! i with
      | Some p => insert_identities n' (S i) big (vector_insert i (SetIdentity p) small)
      | None => small
      end
  end.

(** [for (size_t match_index : matching_indices)]. *)
Fixpoint insert_missing (matching_indices : list nat) (i0 : nat)
    (big small : list Primitive) : list Primitive :=
  match matching_indices with
  | [] => small
  | match_index :: rest =>
      insert_missing rest (match_index + 1) big
        (insert_identities (match_index - i0) i0 big small)
  end.

(** The matching loops from their initial state. *)
Definition match_small_into_big (small big : list Primitive) : MatchState :=
  outer_match_loop (length small) 0
    {| ms_small := small; ms_big := big; ms_i_big := 0;
       ms_match_success := true; ms_changed_big := false;
       ms_matching_indices := [] |}.

(** After a successful match: [matching_indices.push_back(big.size())] and
    the insertion loops; the small vector afterwards. *)
Definition grow_small (st : MatchState) : list Primitive :=
  let matching_indices := ms_matching_indices st ++ [length (ms_big st)] in
  insert_missing matching_indices 0 (ms_big st) (ms_small st).

(** The fall-back of [PrepareTransformPair]: full matrix decomposition. *)
Definition decompose_pair (prims0 prims1 : Transform) (element : Element)
  : PrepareTransformResult * Transform * Transform :=
  match CombineAndDecompose prims0 element with
  | None => (Invalid, prims0, prims1)
  | Some t0 =>
      match CombineAndDecompose prims1 element with
      | None => (Invalid, t0, prims1)
      | Some t1 => (ChangedT0andT1, t0, t1)
      end
  end.

(** [PrepareTransformPair(t0, t1, element)] on two distinct transforms:
    the result and the primitives of [t0] and [t1] afterwards. *)
Definition PrepareTransformPair (t0 t1 : Transform) (element : Element)
  : PrepareTransformResult * Transform * Transform :=
  let prims0 := t0 in
  let prims1 := t1 in
  if decide (length prims0 = length prims1) then
    let '(same_primitives, result, prims0, prims1) :=
      same_size_loop (length prims0) 0 prims0 prims1 Unchanged in
    if same_primitives then (result, prims0, prims1)
    else decompose_pair prims0 prims1 element
  else
    let prims0_smallest := bool_decide (length prims0 < length prims1)%nat in
    let small := if prims0_smallest then prims0 else prims1 in
    let big := if prims0_smallest then prims1 else prims0 in
    let st := match_small_into_big small big in
    if ms_match_success st then
      let small := grow_small st in
      let big := ms_big st in
      let prims0 := if prims0_smallest then small else big in
      let prims1 := if prims0_smallest then big else small in
      if ms_changed_big st then (ChangedT0andT1, prims0, prims1)
      else ((if prims0_smallest then ChangedT0 else ChangedT1), prims0, prims1)
    else
      let prims0 := if prims0_smallest then ms_small st else ms_big st in
      let prims1 := if prims0_smallest then ms_big st else ms_small st in
      decompose_pair prims0 prims1 element.

(** ** The timeline *)

Record AnimationKey : Type := mkAnimationKey {
  key_time : float32;
  key_value : Variant;
  key_tween : Tween }.

(** The members that the constructor of [ElementAnimation.cpp] initialises.
    [ElementAnimation.h] declares a later revision of the class (other
    members, other signatures, a [double] clock); the constructor and
    [UpdateAndGetProperty] of the [.cpp] take the times as [float], and so
    does [last_update_world_time] here. *)
Record ElementAnimation : Type := mkElementAnimation {
  property_name : string;
  property_unit : PropertyUnit;
  property_specificity : Z;
  duration : float32;
  num_iterations : Z;
  alternate_direction : bool;
  keys : list AnimationKey;
  last_update_world_time : float32;
  time_since_iteration_start : float32;
  current_iteration : Z;
  reverse_direction : bool;
  animation_complete : bool;
  valid : bool }.

Definition set_keys (a : ElementAnimation) (ks : list AnimationKey) : ElementAnimation :=
  mkElementAnimation (property_name a) (property_unit a) (property_specificity a)
    (duration a) (num_iterations a) (alternate_direction a) ks
    (last_update_world_time a) (time_since_iteration_start a) (current_iteration a)
    (reverse_direction a) (animation_complete a) (valid a).

Definition set_num_iterations (a : ElementAnimation) (n : Z) : ElementAnimation :=
  mkElementAnimation (property_name a) (property_unit a) (property_specificity a)
    (duration a) n (alternate_direction a) (keys a)
    (last_update_world_time a) (time_since_iteration_start a) (current_iteration a)
    (reverse_direction a) (animation_complete a) (valid a).

(** The playback members, written together. *)
Definition set_playback (a : ElementAnimation) (last_update : float32)
    (since_start : float32) (iteration : Z) (reverse complete : bool) : ElementAnimation :=
  mkElementAnimation (property_name a) (property_unit a) (property_specificity a)
    (duration a) (num_iterations a) (alternate_direction a) (keys a)
    last_update since_start iteration reverse complete (valid a).

(** ** TryMakeUnitValid: the flag and the value left in place. *)
Definition TryMakeUnitValid (v : Variant) : bool * Variant :=
  match GetType v with
  | FLOAT | COLOURB | TRANSFORMREF => (true, v)
  | _ =>
      match GetInto_float v with
      | Some f => (true, V_FLOAT f)
      | None => (false, v)
      end
  end.

(** ** The constructor *)
Definition ElementAnimation_new (name : string) (current_value : Property)
    (start_world_time duration : float32) (num_iterations : Z)
    (alternate_direction : bool) : ElementAnimation :=
  let '(ok, v) := TryMakeUnitValid (value current_value) in
  {| property_name := name;
     property_unit := unit current_value;
     property_specificity := specificity current_value;
     duration := duration;
     num_iterations := num_iterations;
     alternate_direction := alternate_direction;
     keys := [ {| key_time := F32.zero; key_value := v; key_tween := Tween_default |} ];
     last_update_world_time := start_world_time;
     time_since_iteration_start := F32.zero;
     current_iteration := 0;
     reverse_direction := false;
     animation_complete := false;
     valid := ok |}.

(** ** PrepareTransforms *)

(** [value.Get<TransformRef>()]: defined only on a transform value. *)
Definition Get_TransformRef (v : Variant) : option loc :=
  match v with V_TRANSFORMREF r => Some r | _ => None end.

(** [keys[i].value.Get<TransformRef>()] for an [int] index. *)
Definition key_ref (keys : list AnimationKey) (i : Z) : option loc :=
  if decide (0 <= i) then
    match keys !! Z.to_nat i with
    | Some k => Get_TransformRef (key_value k)
    | None => None
    end
  else None.

(** The key holds a transform, as every key of a [TRANSFORM] timeline does. *)
Definition holds_transform (k : AnimationKey) : Prop :=
  is_Some (Get_TransformRef (key_value k)).

(** One pass of the loop body up to the test of [result]:
    [PrepareTransformPair] run in place on the transforms of keys [i - 1] and [i].  When the two
    keys share one transform the two writes coincide (the pair is then left
    unchanged, see [PrepareTransformPair_same]).  [None] when a key does not
    hold a transform, where the C++ behaviour is undefined. *)
Definition PrepareTransforms_pass (keys : list AnimationKey) (element : Element)
    (h : Heap) (i : Z) : option (PrepareTransformResult * Heap) :=
  match key_ref keys (i - 1), key_ref keys i with
  | Some ref0, Some ref1 =>
      let '(result, t0, t1) :=
        PrepareTransformPair (deref h ref0) (deref h ref1) element in
      Some (result, store (store h ref0 t0) ref1 t1)
  | _, _ => None
  end.

(** What [PrepareTransforms] leaves: its return value, the store, the final
    [count_iterations], and (as a ghost) the number of calls to
    [PrepareTransformPair] it made. *)
Record Prepared : Type := mkPrepared {
  pr_result : bool;
  pr_heap : Heap;
  pr_count_iterations : Z;
  pr_passes : nat }.

Definition changed_t0 (result : PrepareTransformResult) : bool :=
  bool_decide (result = ChangedT0) || bool_decide (result = ChangedT0andT1).

(** The [for] loop of [PrepareTransforms], from its condition. *)
Equations PrepareTransforms_loop (keys : list AnimationKey) (element : Element)
    (max_iterations : Z) (h : Heap) (i count_iterations : Z) (passes : nat)
  : option Prepared by wf (Z.to_nat (max_iterations - count_iterations)) lt :=
  PrepareTransforms_loop keys element max_iterations h i count_iterations passes
    with decide (i < Z.of_nat (length keys) /\ count_iterations < max_iterations) := {
    | right _ =>
        Some {| pr_result := bool_decide (count_iterations < max_iterations);
                pr_heap := h;
                pr_count_iterations := count_iterations;
                pr_passes := passes |}
    | left _ with PrepareTransforms_pass keys element h i := {
      | None => None
      | Some (result, h') with decide (result = Invalid) := {
        | left _ =>
            Some {| pr_result := false; pr_heap := h';
                    pr_count_iterations := count_iterations;
                    pr_passes := S passes |}
        | right _ =>
            PrepareTransforms_loop keys element max_iterations h'
              (if changed_t0 result && bool_decide (i > 1) then i - 1 else i + 1)
              (count_iterations + 1) (S passes) } } }.
Next Obligation. lia. Qed.

Definition PrepareTransforms (keys : list AnimationKey) (element : Element)
    (h : Heap) (start_index : Z) : option Prepared :=
  let count_iterations := -1 in
  let max_iterations := 3 * Z.of_nat (length keys) in
  let start_index := if decide (start_index < 1) then 1 else start_index in
  PrepareTransforms_loop keys element max_iterations h start_index count_iterations 0.

(** ** AddKey *)

(** The loop over the primitives of the property's transform: every
    primitive is resolved in place, [result] is false if one of them fails. *)
Definition resolve_all_units (t : Transform) (element : Element) : bool * Transform :=
  (forallb (fun p => fst (ResolveUnits p element)) t,
   map (fun p => snd (ResolveUnits p element)) t).

(** [AddKey]: the returned flag, the timeline and the store afterwards.
    [None] where the C++ behaviour is undefined (a [TRANSFORM] property whose
    value, or that of an earlier key, is not a transform). *)
Definition AddKey (a : ElementAnimation) (h : Heap) (time : float32)
    (property : Property) (element : Element) (tween : Tween)
  : option (bool * ElementAnimation * Heap) :=
  if bool_decide (unit property <> property_unit a) || negb (valid a) then
    Some (false, a, h)
  else
    let '(result, v) := TryMakeUnitValid (value property) in
    (* keys.back().value has been coerced in place *)
    let keys1 := keys a ++ [ {| key_time := time; key_value := v; key_tween := tween |} ] in
    if result && bool_decide (unit property = TRANSFORM) then
      match Get_TransformRef (value property) with
      | None => None
      | Some r =>
          let '(result, t) := resolve_all_units (deref h r) element in
          let h := store h r t in
          if result then
            match PrepareTransforms keys1 element h (Z.of_nat (length keys1) - 1) with
            | None => None
            | Some p =>
                if pr_result p
                then Some (true, set_keys a keys1, pr_heap p)
                else Some (false, set_keys a (removelast keys1), pr_heap p)
            end
          else Some (false, set_keys a (removelast keys1), h)
      end
    else if result then Some (true, set_keys a keys1, h)
    else Some (false, set_keys a (removelast keys1), h).

(** ** UpdateAndGetProperty *)

(** The scan [for (int i = 0; i < (int)keys.size(); i++)] from index [i] with
    [n] keys left: the value of [key1] when the loop is left, [-1] if no key
    had [keys[i].time >= t]. *)
Fixpoint scan_key1 (n : nat) (i : Z) (keys : list AnimationKey) (t : float32) : Z :=
  match n with
  | O => -1
  | S n' =>
      match keys !! Z.to_nat i with
      | Some k => if F32.geb (key_time k) t then i else scan_key1 n' (i + 1) keys t
      | None => -1
      end
  end.

(** The block that sets [key0] and [key1]. *)
Definition select_keys (keys : list AnimationKey) (t : float32) : Z * Z :=
  let key1 := scan_key1 (length keys) 0 keys t in
  let key1 := if decide (key1 < 0) then Z.of_nat (length keys) - 1 else key1 in
  let key0 := if decide (key1 = 0) then 0 else key1 - 1 in
  (key0, key1).

(** [1e-3f], the binary32 number nearest to 0.001. *)
Definition eps : float32 := S754_finite false 8589935 (-33).

(** The block that computes [alpha] before the tween is applied. *)
Definition raw_alpha (t0 t1 t : float32) : float32 :=
  let alpha := F32.zero in
  let alpha := if F32.gtb (F32.sub t1 t0) eps
               then F32.div (F32.sub t t0) (F32.sub t1 t0) else alpha in
  F32.Clamp alpha F32.zero F32.one.

(** The first half of the body: the clock and the iteration state. *)
Definition advance (a : ElementAnimation) (world_time : float32) : ElementAnimation :=
  let dt := F32.sub world_time (last_update_world_time a) in
  let last_update := world_time in
  let since_start := F32.add (time_since_iteration_start a) dt in
  if F32.geb since_start (duration a) then
    (* Next iteration *)
    let iteration := current_iteration a + 1 in
    if bool_decide (iteration < num_iterations a) || bool_decide (num_iterations a = -1) then
      set_playback a last_update F32.zero iteration
        (if alternate_direction a then negb (reverse_direction a) else reverse_direction a)
        (animation_complete a)
    else
      set_playback a last_update (duration a) iteration (reverse_direction a) true
  else
    set_playback a last_update since_start (current_iteration a)
      (reverse_direction a) (animation_complete a).

(** The local playback time [t]. *)
Definition local_time (a : ElementAnimation) : float32 :=
  let t := time_since_iteration_start a in
  if reverse_direction a then F32.sub (duration a) t else t.

(** What a call leaves: the returned property, the timeline, the store and
    the warnings logged. *)
Record Updated : Type := mkUpdated {
  up_property : Property;
  up_animation : ElementAnimation;
  up_heap : Heap;
  up_log : list LogMessage }.

(** [UpdateAndGetProperty(world_time)].  [None] when [ROCKET_ASSERT] fails,
    that is when a key index is out of bounds. *)
Definition UpdateAndGetProperty (a : ElementAnimation) (h : Heap) (world_time : float32)
  : option Updated :=
  let result := Property_empty in
  if animation_complete a || negb (valid a)
     || F32.leb (F32.sub world_time (last_update_world_time a)) F32.zero
  then Some {| up_property := result; up_animation := a; up_heap := h; up_log := [] |}
  else
    let a := advance a world_time in
    let t := local_time a in
    let '(key0, key1) := select_keys (keys a) t in
    if bool_decide (key0 >= 0 /\ key0 < Z.of_nat (length (keys a))
                    /\ key1 >= 0 /\ key1 < Z.of_nat (length (keys a))) then
      match keys a !! Z.to_nat key0, keys a !! Z.to_nat key1 with
      | Some k0, Some k1 =>
          let alpha := raw_alpha (key_time k0) (key_time k1) t in
          let alpha := Tween_call (key_tween k1) alpha in
          let '(v, h', log) := InterpolateValues h (key_value k0) (key_value k1) alpha in
          Some {| up_property := {| value := v; unit := property_unit a;
                                    specificity := property_specificity a |};
                  up_animation := a; up_heap := h'; up_log := log |}
      | _, _ => None
      end
    else None.

(** [IsComplete()] *)
Definition IsComplete (a : ElementAnimation) : bool := animation_complete a.

(** ** Sequences of calls on one timeline *)

Inductive Call : Type :=
| Call_AddKey (time : float32) (property : Property) (element : Element) (tween : Tween)
| Call_UpdateAndGetProperty (world_time : float32).

Inductive Returned : Type :=
| Ret_AddKey (ok : bool)
| Ret_UpdateAndGetProperty (property : Property) (log : list LogMessage).

Definition call (c : Call) (a : ElementAnimation) (h : Heap)
  : option (Returned * ElementAnimation * Heap) :=
  match c with
  | Call_AddKey time property element tween =>
      match AddKey a h time property element tween with
      | Some (ok, a', h') => Some (Ret_AddKey ok, a', h')
      | None => None
      end
  | Call_UpdateAndGetProperty world_time =>
      match UpdateAndGetProperty a h world_time with
      | Some u => Some (Ret_UpdateAndGetProperty (up_property u) (up_log u),
                        up_animation u, up_heap u)
      | None => None
      end
  end.

Fixpoint calls (cs : list Call) (a : ElementAnimation) (h : Heap)
  : option (list Returned * ElementAnimation * Heap) :=
  match cs with
  | [] => Some ([], a, h)
  | c :: cs' =>
      match call c a h with
      | Some (r, a', h') =>
          match calls cs' a' h' with
          | Some (rs, a'', h'') => Some (r :: rs, a'', h'')
          | None => None
          end
      | None => None
      end
  end.

(** The same results with the stored iteration count set to [n]. *)
Definition relabel (n : Z) (r : bool * ElementAnimation * Heap)
  : bool * ElementAnimation * Heap :=
  (r.1.1, set_num_iterations r.1.2 n, r.2).

Definition relabel_updated (n : Z) (u : Updated) : Updated :=
  {| up_property := up_property u;
     up_animation := set_num_iterations (up_animation u) n;
     up_heap := up_heap u; up_log := up_log u |}.

Definition relabel_run (n : Z) (r : list Returned * ElementAnimation * Heap)
  : list Returned * ElementAnimation * Heap :=
  (r.1.1, set_num_iterations r.1.2 n, r.2).

(** The timelines that the constructor and the two methods can produce. *)
Inductive reachable : ElementAnimation -> Heap -> Prop :=
| reachable_new name current_value start_world_time duration num_iterations alternate h :
    reachable (ElementAnimation_new name current_value start_world_time duration
                 num_iterations alternate) h
| reachable_call c a h r a' h' :
    reachable a h -> call c a h = Some (r, a', h') -> reachable a' h'.

(** ** Timing and roll-back, as the specification states them *)

Definition half : float32 := S754_finite false 8388608 (-24).
Definition five : float32 := F32.of_Z 5.
Definition ten : float32 := F32.of_Z 10.

Definition number (f : float32) : Property :=
  {| value := V_FLOAT f; unit := NUMBER; specificity := 0 |}.

(** The timeline of the timing example before its second key is added:
    duration 1.0, two iterations, alternating, value 0 at local time 0. *)
Definition timing_timeline (start : float32) : ElementAnimation :=
  ElementAnimation_new "opacity" (number F32.zero) start F32.one 2 true.

(** Within 1 of [x]. *)
Definition near (x y : float32) : Prop :=
  F32.leb (F32.sub x F32.one) y = true /\ F32.leb y (F32.add x F32.one) = true.

(** "Query at start+0.5: value 5; at start+1.5: reverse direction active,
    value about 5 again; at start+2.0: IsComplete() is true, value 0." *)
Definition timing_as_specified (element : Element) (tween : Tween) (start : float32) : Prop :=
  exists a h u1 u2 u3 v2,
    AddKey (timing_timeline start) [] F32.one (number ten) element tween = Some (true, a, h) /\
    UpdateAndGetProperty a h (F32.add start half) = Some u1 /\
    value (up_property u1) = V_FLOAT five /\
    UpdateAndGetProperty (up_animation u1) (up_heap u1)
      (F32.add start (F32.add F32.one half)) = Some u2 /\
    reverse_direction (up_animation u2) = true /\
    value (up_property u2) = V_FLOAT v2 /\ near five v2 /\
    UpdateAndGetProperty (up_animation u2) (up_heap u2)
      (F32.add start (F32.of_Z 2)) = Some u3 /\
    IsComplete (up_animation u3) = true /\
    value (up_property u3) = V_FLOAT F32.zero.

(** The transforms that the keys refer to. *)
Definition key_refs (keys : list AnimationKey) : list loc :=
  omap (fun k => Get_TransformRef (key_value k)) keys.

(** "A failed add is rolled back entirely": after a failed [AddKey] the key
    sequence, and the transform of every key, are as before the call. *)
Definition failed_add_restores (a : ElementAnimation) (h : Heap) (time : float32)
    (property : Property) (element : Element) (tween : Tween) : Prop :=
  forall a' h',
    AddKey a h time property element tween = Some (false, a', h') ->
    keys a' = keys a /\
    forall r, r ∈ key_refs (keys a) -> deref h' r = deref h r.

(** "At most a bounded number of pair-reconciliation passes proportional to
    the key count (3 times the number of keys)." *)
Definition passes_as_specified (ks : list AnimationKey) (element : Element)
    (h : Heap) (start_index : Z) : Prop :=
  forall p,
    PrepareTransforms ks element h start_index = Some p ->
    (pr_passes p <= 3 * length ks)%nat.

(** ** Reconciliation by insertion, in the words of the specification *)

(** A small primitive "matches" a big one: "exact kind match or
    generic-widening match". *)
Definition matches (s b : Primitive) : Prop :=
  prim_index s = prim_index b \/ is_Some (TryConvertToMatchingGenericType s b).

(** "Every primitive of the shorter sequence matches a primitive of the
    longer sequence in strictly increasing position order." *)
Inductive embeds : list Primitive -> list Primitive -> Prop :=
| embeds_nil big : embeds [] big
| embeds_here s b small big :
    matches s b -> embeds small big -> embeds (s :: small) (b :: big)
| embeds_later s b small big :
    embeds (s :: small) big -> embeds (s :: small) (b :: big).

(** The identity primitives of the kinds of [big] at positions [i0 .. m-1]. *)
Definition identities (i0 m : nat) (big : list Primitive) : list Primitive :=
  map SetIdentity (take (m - i0) (drop i0 big)).

(** "Insert identity primitives of the missing kinds into small at the
    corresponding gaps": the primitives of [small], in order, placed at the
    positions [positions] of [big], every other position from [i0] to the
    last of [positions] filled with the identity of the big primitive
    there. *)
Fixpoint spec_fill_gaps (positions : list nat) (i0 : nat)
    (big small : list Primitive) : list Primitive :=
  match positions with
  | [] => small
  | m :: positions' =>
      identities i0 m big
      ++ match small with
         | [] => []
         | s :: small' => s :: spec_fill_gaps positions' (S m) big small'
         end
  end.

(** [s'] is [s], or [s] widened against some primitive. *)
Definition widened (s s' : Primitive) : Prop :=
  s' = s \/ exists b b', TryConvertToMatchingGenericType s b = Some (s', b').

(** ** The bracket and blend factor, in the words of the specification *)

(** "The first key in order whose time is >= t, or the last key when no key
    qualifies." *)
Definition spec_upper_bracket (keys : list AnimationKey) (t : float32) : nat :=
  match list_find (fun k => F32.geb (key_time k) t = true) keys with
  | Some (i, _) => i
  | None => (length keys - 1)%nat
  end.

(** "The preceding key, or the same key when the upper bracket is at index 0." *)
Definition spec_lower_bracket (upper : nat) : nat :=
  match upper with O => O | S lower => lower end.

(** "1e-3": one over one thousand, as a binary32 number. *)
Definition thousandth : float32 := F32.div (F32.of_Z 1) (F32.of_Z 1000).

(** "(t - t_lower)/(t_upper - t_lower), treated as 0 when
    t_upper - t_lower <= 1e-3", before it is clamped. *)
Definition spec_raw_factor (t_lower t_upper t : float32) : float32 :=
  if F32.leb (F32.sub t_upper t_lower) thousandth then F32.zero
  else F32.div (F32.sub t t_lower) (F32.sub t_upper t_lower).

(** "Clamped to [0, 1]": [y] is [x] clamped.  A number below 0 gives 0, a
    number above 1 gives 1 and a number of [0, 1] is kept; of an [x] that is
    not a number the words say nothing. *)
Definition clamped_to_unit (x y : float32) : Prop :=
  (F32.ltb x F32.zero = true -> y = F32.zero) /\
  (F32.gtb x F32.one = true -> y = F32.one) /\
  (F32.leb F32.zero x = true -> F32.leb x F32.one = true -> y = x).

End Animation.

(** ** Notions used in the further properties *)

Section Notions.

Context {C : Collaborators}.

(** The shorter and the longer of two transforms of unequal size, as
    [PrepareTransformPair] names them. *)
Definition small_of (t0 t1 : Transform) : Transform :=
  if bool_decide (length t0 < length t1)%nat then t0 else t1.
Definition big_of (t0 t1 : Transform) : Transform :=
  if bool_decide (length t0 < length t1)%nat then t1 else t0.

(** [result] reports a change of [t1]. *)
Definition changed_t1 (result : PrepareTransformResult) : bool :=
  bool_decide (result = ChangedT1) || bool_decide (result = ChangedT0andT1).

(** The value kinds that [InterpolateValues] has a case for. *)
Definition interpolable (v : Variant) : Prop :=
  GetType v = FLOAT \/ GetType v = COLOURB \/ GetType v = TRANSFORMREF.

(** What a call returns when it does nothing. *)
Definition inert_return (c : Call) : Returned :=
  match c with
  | Call_AddKey _ _ _ _ => Ret_AddKey false
  | Call_UpdateAndGetProperty _ => Ret_UpdateAndGetProperty Property_empty []
  end.

(** The iteration counter and the direction flag, in terms of the number of
    iterations played. *)
Definition playback_inv (a : ElementAnimation) : Prop :=
  0 <= current_iteration a /\
  if animation_complete a
  then num_iterations a <> -1 /\
       current_iteration a = Z.max 1 (num_iterations a) /\
       reverse_direction a = alternate_direction a && Z.odd (current_iteration a - 1)
  else (num_iterations a = -1 \/ current_iteration a < num_iterations a
        \/ current_iteration a = 0) /\
       reverse_direction a = alternate_direction a && Z.odd (current_iteration a).

(** The members that no method assigns. *)
Definition same_settings (a a' : ElementAnimation) : Prop :=
  property_name a' = property_name a /\
  property_unit a' = property_unit a /\
  property_specificity a' = property_specificity a /\
  duration a' = duration a /\
  num_iterations a' = num_iterations a /\
  alternate_direction a' = alternate_direction a /\
  valid a' = valid a.

(** The transforms of keys [j - 1] and [j] have the same primitive kinds at
    the same positions (and so the same size). *)
Definition reconciled_at (ks : list AnimationKey) (h : Heap) (j : Z) : Prop :=
  forall r0 r1, key_ref ks (j - 1) = Some r0 -> key_ref ks j = Some r1 ->
    map prim_index (deref h r0) = map prim_index (deref h r1).

(** All pairs of adjacent keys up to key [i - 1]. *)
Definition reconciled_below (ks : list AnimationKey) (h : Heap) (i : Z) : Prop :=
  forall j, 1 <= j < i -> reconciled_at ks h j.

(** Every key has a transform of its own, alive in the store. *)
Definition separate_transforms (ks : list AnimationKey) (h : Heap) : Prop :=
  Forall holds_transform ks /\ NoDup (key_refs ks) /\
  Forall (fun r => (r < length h)%nat) (key_refs ks).

End Notions.

(** Equal as numbers: the same value, or two zeros (of either sign). *)
Definition same_number (x y : float32) : Prop :=
  x = y \/ exists s s', x = S754_zero s /\ y = S754_zero s'.

(** Structural equality of binary32 numbers. *)
Definition float_eqb (x y : float32) : bool :=
  match x, y with
  | S754_zero s, S754_zero s' => Bool.eqb s s'
  | S754_infinity s, S754_infinity s' => Bool.eqb s s'
  | S754_nan, S754_nan => true
  | S754_finite s m e, S754_finite s' m' e' =>
      Bool.eqb s s' && (m =? m')%positive && (e =? e')
  | _, _ => false
  end.

(** A byte channel in linear space, as [ColourToLinearSpace] computes it. *)
Definition rgb_linear (x : Z) : float32 :=
  F32.SquareRoot (F32.div (F32.of_Z x) F32.c255).

Definition alpha_linear (x : Z) : float32 := F32.div (F32.of_Z x) F32.c255.

(** The four products and sums that [c0 * (1.0f - alpha) + c1 * alpha]
    makes of a channel [l] at [alpha = 0] and at [alpha = 1]. *)
Definition linear_ends (l : float32) : bool :=
  float_eqb (F32.mul l F32.zero) F32.zero &&
  float_eqb (F32.add (F32.mul l (F32.sub F32.one F32.zero)) F32.zero) l &&
  float_eqb (F32.mul l (F32.sub F32.one F32.one)) F32.zero &&
  float_eqb (F32.add F32.zero (F32.mul l F32.one)) l.

(** A channel in linear space is a finite number of [0, 1]. *)
Definition unit_interval (l : float32) : bool :=
  F32.is_finite l && F32.leb F32.zero l && F32.leb l F32.one.

(** ** A concrete primitive library

    Modelled from the spec: the primitive library, [Tween] and the
    [Variant] converter, which [ElementAnimation.cpp] only calls, in the small.
    Primitives are translations, scales and a rotation, each with its numeric
    payload, and the "decomposed" composite kind.  Widening maps a single-axis
    primitive to the three-axis form of the same operation; identity
    primitives are translate-by-zero, scale-by-one, rotate-by-zero.  A matrix
    is kept as the sequence of primitives whose product it is; decomposition
    fails on a non-invertible matrix ("e.g., all-zero scale"), and a product
    is non-invertible exactly when one of its factors is.  Numeric values
    coerce to float, others do not.  A tween is linear, or the square. *)
Module SpecModel.

Inductive Kind : Type :=
  TranslateX | TranslateY | Translate3D | ScaleX | ScaleY | Scale3D | Rotate2D.

#[global] Instance Kind_eq_dec : EqDecision Kind.
Proof. solve_decision. Defined.

Record Basic : Type := mkBasic { kind : Kind; values : list float32 }.

Inductive Prim : Type :=
| Simple (b : Basic)
| DecomposedMatrix4 (factors : list Basic).

Definition kind_index (k : Kind) : nat :=
  match k with
  | TranslateX => 0 | TranslateY => 1 | Translate3D => 2
  | ScaleX => 3 | ScaleY => 4 | Scale3D => 5 | Rotate2D => 6
  end.

Definition index (p : Prim) : nat :=
  match p with
  | Simple b => kind_index (kind b)
  | DecomposedMatrix4 _ => 7
  end.

Definition nth_value (b : Basic) (i : nat) (d : float32) : float32 :=
  nth i (values b) d.

(** The three-axis form of a translation or scale; [None] for the kinds
    that have no more general form. *)
Definition generic (b : Basic) : option Basic :=
  match kind b with
  | TranslateX => Some (mkBasic Translate3D [nth_value b 0 F32.zero; F32.zero; F32.zero])
  | TranslateY => Some (mkBasic Translate3D [F32.zero; nth_value b 0 F32.zero; F32.zero])
  | Translate3D => Some b
  | ScaleX => Some (mkBasic Scale3D [nth_value b 0 F32.one; F32.one; F32.one])
  | ScaleY => Some (mkBasic Scale3D [F32.one; nth_value b 0 F32.one; F32.one])
  | Scale3D => Some b
  | Rotate2D => None
  end.

Definition try_convert (p q : Prim) : option (Prim * Prim) :=
  if decide (index p = index q) then Some (p, q)
  else
    match p, q with
    | Simple a, Simple b =>
        match generic a, generic b with
        | Some a', Some b' =>
            if decide (kind a' = kind b') then Some (Simple a', Simple b') else None
        | _, _ => None
        end
    | _, _ => None
    end.

Definition identity_value (k : Kind) : float32 :=
  match k with
  | ScaleX | ScaleY | Scale3D => F32.one
  | _ => F32.zero
  end.

Definition set_identity (p : Prim) : Prim :=
  match p with
  | Simple b => Simple (mkBasic (kind b) (map (fun _ => identity_value (kind b)) (values b)))
  | DecomposedMatrix4 _ => DecomposedMatrix4 []
  end.

Definition lerp (a x y : float32) : float32 :=
  F32.add (F32.mul (F32.sub F32.one a) x) (F32.mul a y).

Definition interpolate_basic (a : float32) (x y : Basic) : Basic :=
  mkBasic (kind x) (zip_with (lerp a) (values x) (values y)).

Definition interpolate_with (p q : Prim) (a : float32) : option Prim :=
  match p, q with
  | Simple x, Simple y =>
      if decide (kind x = kind y)
      then Some (Simple (interpolate_basic a x y))
      else None
  | DecomposedMatrix4 x, DecomposedMatrix4 y =>
      Some (DecomposedMatrix4 (zip_with (interpolate_basic a) x y))
  | _, _ => None
  end.

Definition is_zero (x : float32) : bool :=
  match x with S754_zero _ => true | _ => false end.

Definition singular (b : Basic) : bool :=
  match kind b with
  | ScaleX | ScaleY | Scale3D => existsb is_zero (values b)
  | _ => false
  end.

Definition resolve_transform (p : Prim) : option (list Basic) :=
  match p with
  | Simple b => Some [b]
  | DecomposedMatrix4 m => Some m
  end.

Definition decompose (m : list Basic) : option Prim :=
  if existsb singular m then None else Some (DecomposedMatrix4 m).

Inductive tween : Type := Linear | Quadratic.

Definition tween_call (tw : tween) (x : float32) : float32 :=
  match tw with Linear => x | Quadratic => F32.mul x x end.

Definition get_into_float (v : Variant) : option float32 :=
  match v with
  | V_INT i => Some (F32.of_Z i)
  | V_FLOAT f => Some f
  | _ => None
  end.

#[global] Instance collaborators : Collaborators := {|
  Element := ();
  Primitive := Prim;
  Matrix4f := list Basic;
  Tween := tween;
  Tween_default := Linear;
  Tween_call := tween_call;
  GetInto_float := get_into_float;
  prim_index := index;
  TryConvertToMatchingGenericType := try_convert;
  SetIdentity := set_identity;
  InterpolateWith := interpolate_with;
  ResolveUnits := fun p _ => (true, p);
  ResolveTransform := fun p _ => resolve_transform p;
  Matrix4f_Identity := [];
  Matrix4f_mul := app;
  Decompose := decompose |}.

End SpecModel.

(** ** Concrete timelines and stores *)

Module Examples.
Import SpecModel.

Definition f (z : Z) : float32 := F32.of_Z z.

Definition scale (x y z : Z) : Prim := Simple (mkBasic Scale3D [f x; f y; f z]).
Definition scale_x (x : Z) : Prim := Simple (mkBasic ScaleX [f x]).
Definition rotate (a : Z) : Prim := Simple (mkBasic Rotate2D [f a]).
Definition translate_x (x : Z) : Prim := Simple (mkBasic TranslateX [f x]).
Definition translate (x y z : Z) : Prim := Simple (mkBasic Translate3D [f x; f y; f z]).

Definition transform_property (r : loc) : Property :=
  {| value := V_TRANSFORMREF r; unit := TRANSFORM; specificity := 0 |}.

(** A timeline on the transform at location 0. *)
Definition transform_timeline : ElementAnimation :=
  ElementAnimation_new "transform" (transform_property 0%nat) F32.zero F32.one 1 false.

(** A store with a rotation at 0 and an all-zero scale at 1. *)
Definition degenerate_store : Heap := [ [rotate 3]; [scale 0 0 0] ].

(** A store with [scale rotate] at 0 and [scale] at 1. *)
Definition scale_rotate_store : Heap := [ [scale 2 2 2; rotate 3]; [scale 4 4 4] ].

(** The two-key timeline of the timing example, started at time 0. *)
Definition two_keys : ElementAnimation :=
  set_keys (timing_timeline F32.zero)
    [ {| key_time := F32.zero; key_value := V_FLOAT F32.zero; key_tween := Linear |};
      {| key_time := F32.one; key_value := V_FLOAT ten; key_tween := Linear |} ].

(** The same timeline once completed. *)
Definition completed : ElementAnimation :=
  set_playback two_keys (f 3) F32.one 2 true true.

Definition one_and_half : float32 := F32.add F32.one half.
Definition two : float32 := F32.of_Z 2.

End Examples.

(** ** Further timelines *)

Module Timelines.
Import SpecModel Examples.

(** A timeline whose initial value is a string. *)
Definition string_timeline : ElementAnimation :=
  ElementAnimation_new "font-family"
    {| value := V_STRING "serif"; unit := KEYWORD; specificity := 0 |}
    F32.zero F32.one 1 false.

(** The keys of a transform timeline on location 0 with a second key on
    location 1. *)
Definition transform_keys : list AnimationKey :=
  keys transform_timeline
  ++ [ {| key_time := F32.one; key_value := V_TRANSFORMREF 1%nat; key_tween := Linear |} ].

(** The timing timeline at its completing call: one iteration left, elapsed
    time one half. *)
Definition last_iteration : ElementAnimation :=
  set_playback two_keys half half 1 true false.

(** The two-key transform timeline and its store after [AddKey]. *)
Definition reconciled_timeline : ElementAnimation :=
  set_keys transform_timeline transform_keys.

Definition reconciled_store : Heap :=
  [ [scale 2 2 2; rotate 3]; [scale 4 4 4; rotate 0] ].

(** A store for a timeline of two keys with equal kinds (locations 0 and
    1), with a third transform of the same size whose matrix is singular. *)
Definition three_store : Heap :=
  [ [scale 2 2 2; rotate 3]; [scale 4 4 4; rotate 5]; [rotate 1; scale 0 0 0] ].

End Timelines.

(** ** A primitive library that never settles

    A library within the laws taken from the specification (see
    [Restless_laws]) whose widening always succeeds and always moves both
    primitives to one kind that neither had.  A primitive is its kind. *)
Module Restless.

Definition widen (p q : nat) : option (nat * nat) :=
  Some (S (p `max` q), S (p `max` q)).

Definition library : Collaborators := {|
  Element := ();
  Primitive := nat;
  Matrix4f := ();
  Tween := ();
  Tween_default := ();
  Tween_call := fun _ x => x;
  GetInto_float := fun _ => None;
  prim_index := fun p => p;
  TryConvertToMatchingGenericType := widen;
  SetIdentity := fun p => p;
  InterpolateWith := fun p q _ => if decide (p = q) then Some p else None;
  ResolveUnits := fun p _ => (true, p);
  ResolveTransform := fun _ _ => None;
  Matrix4f_Identity := ();
  Matrix4f_mul := fun _ _ => ();
  Decompose := fun _ => None |}.

(** Three keys, each with a transform of one primitive. *)
Definition three_keys : list (@AnimationKey library) :=
  [ @mkAnimationKey library F32.zero (V_TRANSFORMREF 0%nat) ();
    @mkAnimationKey library F32.one (V_TRANSFORMREF 1%nat) ();
    @mkAnimationKey library (F32.of_Z 2) (V_TRANSFORMREF 2%nat) () ].

Definition three_transforms : @Heap library := [ [0%nat]; [1%nat]; [5%nat] ].

End Restless.

(** ** Proof by evaluation *)

(** Evaluation of one side of an equation.  The terms are evaluated, not the
    type of the equation: a type such as [ElementAnimation] carries the
    primitive library as a parameter, which is costly to normalise. *)
Ltac eval_lhs :=
  lazymatch goal with
  | |- ?l = ?r => let l' := eval vm_compute in l in change (l' = r)
  end.

Ltac eval_lhs_in H :=
  lazymatch type of H with
  | ?l = ?r => let l' := eval vm_compute in l in change (l' = r) in H
  end.

Ltac by_evaluation := eval_lhs; reflexivity.

(** * Properties *)

(** ** Colour conversion *)


Lemma byte_values_complete (x : Z) : byte_range x -> x ∈ byte_values.
Proof.
  intros [H0 H1]. unfold byte_values.
  apply list_elem_of_fmap. exists (Z.to_nat x). split; [lia|].
  apply elem_of_seq. lia.
Qed.

Lemma forall_bytes (P : Z -> bool) :
  forallb P byte_values = true -> forall x, byte_range x -> P x = true.
Proof.
  intros H x Hx. rewrite forallb_forall in H.
  apply H. apply list_elem_of_In. by apply byte_values_complete.
Qed.


Lemma rgb_roundtrip_within_one x :
  byte_range x -> within_one x (rgb_roundtrip x) = true.
Proof. revert x. apply forall_bytes. vm_compute. reflexivity. Qed.

Lemma alpha_roundtrip_exact x : byte_range x -> (alpha_roundtrip x =? x) = true.
Proof. revert x. apply forall_bytes. vm_compute. reflexivity. Qed.

Lemma to_byte_range x : byte_range (to_byte x).
Proof. unfold byte_range, to_byte. pose proof (Z.mod_pos_bound (F32.trunc x) 256). lia. Qed.

(** C5: for every colour with its four channels in [0, 255], converting to
    linear space (square root of [x/255] on red, green and blue, [alpha/255]
    on alpha) and back (square, rescale by 255, clamp, convert to a byte)
    gives each channel back to within 1; the result of
    [ColourFromLinearSpace] is always a valid byte colour. *)
Theorem colour_roundtrip_within_one (c : Colourb) :
  Colourb_wf c ->
  let c' := ColourFromLinearSpace (ColourToLinearSpace c) in
  Z.abs (cb_red c' - cb_red c) <= 1 /\
  Z.abs (cb_green c' - cb_green c) <= 1 /\
  Z.abs (cb_blue c' - cb_blue c) <= 1 /\
  Z.abs (cb_alpha c' - cb_alpha c) <= 1 /\
  (forall l, Colourb_wf (ColourFromLinearSpace l)).
Proof.
  intros (Hr & Hg & Hb & Ha). cbn zeta.
  pose proof (rgb_roundtrip_within_one _ Hr) as Er.
  pose proof (rgb_roundtrip_within_one _ Hg) as Eg.
  pose proof (rgb_roundtrip_within_one _ Hb) as Eb.
  pose proof (alpha_roundtrip_exact _ Ha) as Ea.
  unfold within_one, rgb_roundtrip, alpha_roundtrip in *.
  cbn [ColourFromLinearSpace ColourToLinearSpace cb_red cb_green cb_blue cb_alpha
       cf_red cf_green cf_blue cf_alpha].
  repeat split; try lia; apply to_byte_range.
Qed.

(** The bound is reached: channel value 1 comes back as 0. *)
Example colour_roundtrip_loses_one :
  ColourFromLinearSpace (ColourToLinearSpace (mkColourb 1 4 200 255)) = mkColourb 0 3 199 255.
Proof. vm_compute. reflexivity. Qed.

Lemma colour_roundtrip_within_one_witness :
  Colourb_wf (mkColourb 1 4 200 255) /\
  let c' := ColourFromLinearSpace (ColourToLinearSpace (mkColourb 1 4 200 255)) in
  Z.abs (cb_red c' - 1) <= 1 /\
  Z.abs (cb_green c' - 4) <= 1 /\
  Z.abs (cb_blue c' - 200) <= 1 /\
  Z.abs (cb_alpha c' - 255) <= 1 /\
  (forall l, Colourb_wf (ColourFromLinearSpace l)).
Proof.
  assert (W : Colourb_wf (mkColourb 1 4 200 255))
    by (unfold Colourb_wf, byte_range; simpl; lia).
  split; [exact W | exact (colour_roundtrip_within_one (mkColourb 1 4 200 255) W)].
Defined.

(** ** Facts on binary32 comparisons and subtraction *)

Lemma SFcompare_antisym (x y : spec_float) :
  SFcompare y x = option_map CompOpp (SFcompare x y).
Proof.
  destruct x as [sx|sx| |sx mx ex], y as [sy|sy| |sy my ey]; simpl;
    try (destruct sx); try (destruct sy); try reflexivity.
  all: rewrite (Z.compare_antisym ex ey); destruct (ex ?= ey); simpl; try reflexivity.
  all: rewrite (Pos.compare_cont_antisym mx my Eq); simpl; try reflexivity.
Qed.

Lemma shr_1_nonneg mrs : 0 <= shr_m mrs -> 0 <= shr_m (shr_1 mrs).
Proof. destruct mrs as [[|[p|p|]|[p|p|]] r s]; simpl; lia. Qed.

Lemma iter_shr_1_nonneg p : forall mrs, 0 <= shr_m mrs -> 0 <= shr_m (SpecFloat.iter_pos shr_1 p mrs).
Proof.
  induction p as [p IH|p IH|]; intros mrs H; simpl.
  - apply IH, IH. by apply shr_1_nonneg.
  - by apply IH, IH.
  - by apply shr_1_nonneg.
Qed.

Lemma shr_nonneg mrs e n : 0 <= shr_m mrs -> 0 <= shr_m (fst (shr mrs e n)).
Proof. destruct n; simpl; auto. apply iter_shr_1_nonneg. Qed.

Lemma shr_record_of_loc_m m l : shr_m (shr_record_of_loc m l) = m.
Proof. by destruct l as [|[]]. Qed.

Lemma shr_fexp_nonneg prec emax m e l : 0 <= m -> 0 <= shr_m (fst (shr_fexp prec emax m e l)).
Proof. intros H. unfold shr_fexp. apply shr_nonneg. by rewrite shr_record_of_loc_m. Qed.

Lemma round_nearest_even_nonneg m l : 0 <= m -> 0 <= round_nearest_even m l.
Proof. destruct l as [|[]]; simpl; try lia. destruct (Z.even m); lia. Qed.

Lemma binary_round_aux_not_nan prec emax s m e l :
  0 <= m -> binary_round_aux prec emax s m e l <> S754_nan.
Proof.
  intros H. unfold binary_round_aux.
  pose proof (shr_fexp_nonneg prec emax m e l H) as H1.
  destruct (shr_fexp prec emax m e l) as [mrs' e']. simpl in H1.
  pose proof (shr_fexp_nonneg prec emax _ e' loc_Exact
                (round_nearest_even_nonneg _ (loc_of_shr_record mrs') H1)) as H2.
  destruct (shr_fexp prec emax (round_nearest_even _ _) e' loc_Exact) as [mrs'' e''].
  simpl in H2. destruct (shr_m mrs'') as [|q|q]; [done| |lia].
  by destruct (e'' <=? emax - prec).
Qed.

Lemma binary_normalize_not_nan prec emax m e sz :
  binary_normalize prec emax m e sz <> S754_nan.
Proof.
  destruct m; simpl; [done| |]; unfold binary_round;
    destruct (shl_align _ _ _); by apply binary_round_aux_not_nan.
Qed.

Lemma F32_sub_finite (x y : float32) :
  F32.is_finite x = true -> F32.is_finite y = true -> F32.is_nan (F32.sub x y) = false.
Proof.
  destruct x as [sx|sx| |sx mx ex], y as [sy|sy| |sy my ey]; try done; intros _ _.
  - by destruct sx, sy.
  - unfold F32.sub, SFsub.
    destruct (binary_normalize _ _ _ _ _) eqn:E; try done.
    by apply binary_normalize_not_nan in E.
Qed.

Lemma F32_gtb_leb (x y : float32) :
  F32.is_nan x = false -> F32.is_nan y = false -> F32.gtb x y = negb (F32.leb x y).
Proof.
  intros Hx Hy. unfold F32.gtb, F32.leb, SFltb, SFleb.
  rewrite (SFcompare_antisym x y).
  destruct x, y; try done; simpl; by repeat case_match.
Qed.

Lemma F32_leb_gtb (x y : float32) : F32.leb x y = true -> F32.gtb x y = false.
Proof.
  unfold F32.leb, F32.gtb, SFleb, SFltb. rewrite (SFcompare_antisym x y).
  by destruct (SFcompare x y) as [[]|].
Qed.

(** ** The clamp and the threshold of the blend factor *)

Lemma eps_thousandth : eps = thousandth.
Proof. reflexivity. Qed.

Lemma F32_gtb_one_ltb_zero (x : float32) :
  F32.gtb x F32.one = true -> F32.ltb x F32.zero = false.
Proof. destruct x as [s|s| |s m e]; try done; by destruct s. Qed.

Lemma F32_Clamp_clamped (x : float32) : clamped_to_unit x (F32.Clamp x F32.zero F32.one).
Proof.
  unfold clamped_to_unit, F32.Clamp. split; [|split].
  - by intros ->.
  - intros H. by rewrite (F32_gtb_one_ltb_zero x H), H.
  - intros H0 H1.
    change (F32.ltb x F32.zero) with (F32.gtb F32.zero x).
    by rewrite (F32_leb_gtb _ _ H0), (F32_leb_gtb _ _ H1).
Qed.

Section Properties.

Context {C : Collaborators}.

(** ** Record and store bookkeeping *)

Lemma set_keys_same (a : ElementAnimation) : set_keys a (keys a) = a.
Proof. by destruct a. Qed.

Lemma removelast_snoc {A} (l : list A) (x : A) : removelast (l ++ [x]) = l.
Proof. by rewrite removelast_last. Qed.

(** [AddKey] touches no member but [keys]: it appends one key on success and
    gives the timeline back on failure. *)
Lemma AddKey_inv a h time property element tween ok a' h' :
  AddKey a h time property element tween = Some (ok, a', h') ->
  (ok = false /\ a' = a) \/
  (ok = true /\ exists v,
      a' = set_keys a (keys a ++ [ {| key_time := time; key_value := v; key_tween := tween |} ])).
Proof.
  unfold AddKey. intros H.
  destruct (bool_decide (unit property ≠ property_unit a) || negb (valid a));
    [left; by simplify_eq|].
  destruct (TryMakeUnitValid (value property)) as [result v].
  rewrite removelast_snoc, set_keys_same in H.
  destruct (result && bool_decide (unit property = TRANSFORM)).
  - destruct (Get_TransformRef (value property)) as [r|]; [|done].
    destruct (resolve_all_units (deref h r) element) as [result' t].
    destruct result'; [|left; by simplify_eq].
    destruct (PrepareTransforms _ _ _ _) as [p|]; [|done].
    destruct (pr_result p); simplify_eq; [right|left]; eauto.
  - destruct result; simplify_eq; [right|left]; eauto.
Qed.

Lemma AddKey_complete a h time property element tween ok a' h' :
  AddKey a h time property element tween = Some (ok, a', h') ->
  animation_complete a' = animation_complete a /\
  last_update_world_time a' = last_update_world_time a /\
  time_since_iteration_start a' = time_since_iteration_start a /\
  current_iteration a' = current_iteration a /\
  reverse_direction a' = reverse_direction a.
Proof.
  intros H. apply AddKey_inv in H as [[_ ->]|[_ [v ->]]]; done.
Qed.

(** ** Completed timelines *)

Lemma UpdateAndGetProperty_complete a h world_time :
  animation_complete a = true ->
  UpdateAndGetProperty a h world_time
  = Some {| up_property := Property_empty; up_animation := a; up_heap := h; up_log := [] |}.
Proof. intros H. unfold UpdateAndGetProperty. by rewrite H. Qed.

Lemma call_complete c a h r a' h' :
  animation_complete a = true ->
  call c a h = Some (r, a', h') ->
  animation_complete a' = true /\
  last_update_world_time a' = last_update_world_time a /\
  time_since_iteration_start a' = time_since_iteration_start a /\
  current_iteration a' = current_iteration a /\
  reverse_direction a' = reverse_direction a.
Proof.
  intros Hc H. destruct c as [time property element tween|world_time]; simpl in H.
  - destruct (AddKey _ _ _ _ _ _) as [[[ok a1] h1]|] eqn:E; [|done].
    injection H as <- <- <-. apply AddKey_complete in E as (-> & -> & -> & -> & ->). done.
  - rewrite UpdateAndGetProperty_complete in H by done. by simplify_eq.
Qed.

(** C3: once [animation_complete] is true, every call of
    [UpdateAndGetProperty], at any world time, returns the empty property and
    leaves the timeline (last update time, elapsed time, iteration index,
    reverse flag, keys) and the store as they were; and after any sequence of
    calls of the two methods the flag is still true, the playback state is
    the same, and [UpdateAndGetProperty] still returns the empty property. *)
Theorem completed_is_terminal (a : ElementAnimation) (h : Heap) :
  animation_complete a = true ->
  (forall world_time,
      UpdateAndGetProperty a h world_time
      = Some {| up_property := Property_empty; up_animation := a;
                up_heap := h; up_log := [] |}) /\
  (forall cs rs a' h',
      calls cs a h = Some (rs, a', h') ->
      animation_complete a' = true /\
      last_update_world_time a' = last_update_world_time a /\
      time_since_iteration_start a' = time_since_iteration_start a /\
      current_iteration a' = current_iteration a /\
      reverse_direction a' = reverse_direction a /\
      forall world_time,
        UpdateAndGetProperty a' h' world_time
        = Some {| up_property := Property_empty; up_animation := a';
                  up_heap := h'; up_log := [] |}).
Proof.
  intros Hc. split; [intros; by apply UpdateAndGetProperty_complete|].
  intros cs. revert a h Hc.
  induction cs as [|c cs IH]; intros a h Hc rs a' h' H; simpl in H.
  - simplify_eq. repeat split; auto. intros; by apply UpdateAndGetProperty_complete.
  - destruct (call c a h) as [[[r a1] h1]|] eqn:E; [|done].
    destruct (calls cs a1 h1) as [[[rs' a2] h2]|] eqn:E2; [|done].
    simplify_eq.
    destruct (call_complete _ _ _ _ _ _ Hc E) as (Hc1 & E3 & E4 & E5 & E6).
    destruct (IH a1 h1 Hc1 rs' a' h' E2) as (? & ? & ? & ? & ? & ?).
    repeat split; try congruence; done.
Qed.

(** ** InterpolateValues on inconsistent operands *)

Lemma interpolate_primitives_mismatch `{!CollaboratorLaws C}
    (p0 p1 : list Primitive) (alpha : float32) (i : nat) (x y : Primitive) :
  p0 !! i = Some x -> p1 !! i = Some y -> prim_index x <> prim_index y ->
  interpolate_primitives p0 p1 alpha = None.
Proof.
  revert p1 i. induction p0 as [|a p0 IH]; intros [|b p1] i H0 H1 Hne; try done.
  destruct i as [|i]; simpl in *.
  - simplify_eq. by rewrite InterpolateWith_index.
  - destruct (InterpolateWith a b alpha); [|done].
    by rewrite (IH p1 i).
Qed.

(** C8: [InterpolateValues] is total.  When the kinds of the two values
    differ it logs the "must be of same unit" warning and returns the first
    value, with the store untouched; for two transforms whose primitive
    vectors differ in size, or have primitives of different kinds at some
    position, it logs the corresponding warning and returns the first
    (lower-bracket) transform, with the store untouched. *)
Theorem InterpolateValues_inconsistent `{!CollaboratorLaws C}
    (h : Heap) (alpha : float32) :
  (forall v0 v1,
      GetType v0 <> GetType v1 ->
      InterpolateValues h v0 v1 alpha
      = (v0, h, [Warn_must_be_same_unit (GetType v0) (GetType v1)])) /\
  (forall t0 t1,
      length (deref h t0) <> length (deref h t1) ->
      InterpolateValues h (V_TRANSFORMREF t0) (V_TRANSFORMREF t1) alpha
      = (V_TRANSFORMREF t0, h, [Warn_primitives_not_same_size])) /\
  (forall t0 t1 i x y,
      length (deref h t0) = length (deref h t1) ->
      deref h t0 !! i = Some x -> deref h t1 !! i = Some y ->
      prim_index x <> prim_index y ->
      InterpolateValues h (V_TRANSFORMREF t0) (V_TRANSFORMREF t1) alpha
      = (V_TRANSFORMREF t0, h, [Warn_primitives_not_same_type])).
Proof.
  repeat split.
  - intros v0 v1 Hne. unfold InterpolateValues. by rewrite decide_True.
  - intros t0 t1 Hne. unfold InterpolateValues. simpl.
    destruct (decide (TRANSFORMREF <> TRANSFORMREF)); [done|].
    by rewrite decide_True.
  - intros t0 t1 i x y Hlen H0 H1 Hne. unfold InterpolateValues. simpl.
    destruct (decide (TRANSFORMREF <> TRANSFORMREF)); [done|].
    destruct (decide (length (deref h t0) <> length (deref h t1))); [done|].
    by rewrite (interpolate_primitives_mismatch _ _ _ i x y).
Qed.

(** ** Bracket selection and blend factor *)

Lemma scan_key1_find (keys : list AnimationKey) (t : float32) (n i : nat) :
  n = (length keys - i)%nat ->
  scan_key1 n (Z.of_nat i) keys t
  = match list_find (fun k => F32.geb (key_time k) t = true) (drop i keys) with
    | Some (j, _) => Z.of_nat (i + j)
    | None => -1
    end.
Proof.
  revert i. induction n as [|n IH]; intros i Hn; simpl.
  - rewrite drop_ge by lia. done.
  - rewrite Nat2Z.id.
    destruct (keys !! i) as [k|] eqn:Hk.
    2:{ apply lookup_ge_None in Hk. lia. }
    rewrite (drop_S _ _ _ Hk). simpl.
    destruct (F32.geb (key_time k) t) eqn:Hge.
    + rewrite decide_True by done. simpl. f_equal. lia.
    + rewrite decide_False by (by intros ?).
      replace (Z.of_nat i + 1) with (Z.of_nat (S i)) by lia.
      rewrite IH by lia.
      destruct (list_find _ (drop (S i) keys)) as [[j x]|]; simpl; [f_equal; lia|done].
Qed.

Lemma spec_upper_bracket_lt (keys : list AnimationKey) (t : float32) :
  keys <> [] -> (spec_upper_bracket keys t < length keys)%nat.
Proof.
  intros Hne. unfold spec_upper_bracket.
  destruct (list_find _ keys) as [[j x]|] eqn:E.
  - apply list_find_Some in E as (E & _). by apply lookup_lt_Some in E.
  - destruct keys; [done|simpl; lia].
Qed.

Lemma select_keys_spec (keys : list AnimationKey) (t : float32) :
  keys <> [] ->
  select_keys keys t
  = (Z.of_nat (spec_lower_bracket (spec_upper_bracket keys t)),
     Z.of_nat (spec_upper_bracket keys t)).
Proof.
  intros Hne. pose proof (spec_upper_bracket_lt keys t Hne) as Hlt.
  unfold select_keys, spec_upper_bracket in *.
  change (scan_key1 (length keys) 0 keys t)
    with (scan_key1 (length keys) (Z.of_nat 0) keys t).
  rewrite (scan_key1_find keys t (length keys) 0) by lia.
  rewrite drop_0.
  destruct (list_find _ keys) as [[j x]|] eqn:E; simpl.
  - destruct (decide (Z.of_nat j < 0)); [lia|].
    destruct j as [|j]; simpl; [done|].
    destruct (decide (Z.of_nat (S j) = 0)); [lia|]. f_equal. lia.
  - destruct (decide (-1 < 0)); [|lia].
    destruct (length keys) as [|[|m]] eqn:El; simpl in *; [lia|done|].
    destruct (decide (Z.of_nat (S (S m)) - 1 = 0)); [lia|]. f_equal; lia.
Qed.

(** The block that computes [alpha] against the words of the specification.
    When the gap is not a number the test [t1 - t0 > eps] fails and [alpha]
    is 0, where the quotient of the specification is not a number. *)
Lemma raw_alpha_spec (t0 t1 t : float32) :
  clamped_to_unit (spec_raw_factor t0 t1 t) (raw_alpha t0 t1 t) /\
  (F32.is_nan (F32.sub t1 t0) = true -> raw_alpha t0 t1 t = F32.zero).
Proof.
  unfold raw_alpha, spec_raw_factor. rewrite eps_thousandth.
  destruct (F32.is_nan (F32.sub t1 t0)) eqn:Hnan.
  - destruct (F32.sub t1 t0) as [s|s| |s m e]; try done.
    split; [|done].
    assert (F32.div (F32.sub t t0) S754_nan = S754_nan) as ->
      by (by destruct (F32.sub t t0)).
    done.
  - split; [|done].
    rewrite F32_gtb_leb by done.
    destruct (F32.leb (F32.sub t1 t0) thousandth); apply F32_Clamp_clamped.
Qed.

Lemma keys_advance a world_time : keys (advance a world_time) = keys a.
Proof. unfold advance. by repeat case_match. Qed.

Lemma unit_advance a world_time :
  property_unit (advance a world_time) = property_unit a /\
  property_specificity (advance a world_time) = property_specificity a.
Proof. unfold advance. by repeat case_match. Qed.

(** C4: on a timeline with at least one key, whatever the order of the key
    times, a call of [UpdateAndGetProperty] that passes the entry test takes
    as upper bracket the first key whose time is [>= t] (the last key when
    there is none) and as lower bracket the key before it (the same key at
    index 0); its raw factor is [(t - t_lower)/(t_upper - t_lower)], taken as
    0 when [t_upper - t_lower <= 1e-3], clamped to [0, 1] (0 below 0, 1 above
    1, kept in between); it applies the tween of the upper key to the raw
    factor and hands the result to [InterpolateValues] with the values of the
    two keys.  The threshold is one over one thousand in binary32 and the
    clamp is stated by comparisons, both apart from the code's constant and
    [Math::Clamp].  When the gap of the key times is not a number (key times
    that are infinite or not numbers) the raw factor is 0.  The selection and
    the raw factor are stated for every [t]. *)
Theorem bracket_and_blend (a : ElementAnimation) (h : Heap) (world_time : float32) :
  keys a <> [] ->
  (forall t,
      let upper := spec_upper_bracket (keys a) t in
      let lower := spec_lower_bracket upper in
      select_keys (keys a) t = (Z.of_nat lower, Z.of_nat upper) /\
      exists k0 k1,
        keys a !! lower = Some k0 /\ keys a !! upper = Some k1 /\
        clamped_to_unit (spec_raw_factor (key_time k0) (key_time k1) t)
          (raw_alpha (key_time k0) (key_time k1) t) /\
        (F32.is_nan (F32.sub (key_time k1) (key_time k0)) = true ->
         raw_alpha (key_time k0) (key_time k1) t = F32.zero)) /\
  (animation_complete a = false -> valid a = true ->
   F32.leb (F32.sub world_time (last_update_world_time a)) F32.zero = false ->
   let a' := advance a world_time in
   let t := local_time a' in
   let upper := spec_upper_bracket (keys a) t in
   let lower := spec_lower_bracket upper in
   exists k0 k1 raw,
     keys a !! lower = Some k0 /\ keys a !! upper = Some k1 /\
     clamped_to_unit (spec_raw_factor (key_time k0) (key_time k1) t) raw /\
     (F32.is_nan (F32.sub (key_time k1) (key_time k0)) = true -> raw = F32.zero) /\
     let alpha := Tween_call (key_tween k1) raw in
     UpdateAndGetProperty a h world_time
     = Some {| up_property :=
                 {| value := (InterpolateValues h (key_value k0) (key_value k1) alpha).1.1;
                    unit := property_unit a;
                    specificity := property_specificity a |};
               up_animation := a';
               up_heap := (InterpolateValues h (key_value k0) (key_value k1) alpha).1.2;
               up_log := (InterpolateValues h (key_value k0) (key_value k1) alpha).2 |}).
Proof.
  intros Hne.
  assert (Hsel : forall t,
      let upper := spec_upper_bracket (keys a) t in
      let lower := spec_lower_bracket upper in
      select_keys (keys a) t = (Z.of_nat lower, Z.of_nat upper) /\
      exists k0 k1,
        keys a !! lower = Some k0 /\ keys a !! upper = Some k1 /\
        clamped_to_unit (spec_raw_factor (key_time k0) (key_time k1) t)
          (raw_alpha (key_time k0) (key_time k1) t) /\
        (F32.is_nan (F32.sub (key_time k1) (key_time k0)) = true ->
         raw_alpha (key_time k0) (key_time k1) t = F32.zero)).
  { intros t upper lower. split; [by apply select_keys_spec|].
    pose proof (spec_upper_bracket_lt (keys a) t Hne) as Hlt. fold upper in Hlt.
    assert (Hl : (lower < length (keys a))%nat)
      by (unfold lower; destruct upper; simpl; lia).
    destruct (lookup_lt_is_Some_2 _ _ Hlt) as [k1 Hk1].
    destruct (lookup_lt_is_Some_2 _ _ Hl) as [k0 Hk0].
    exists k0, k1. split; [done|]. split; [done|]. apply raw_alpha_spec. }
  split; [exact Hsel|].
  intros Hc Hv Hdt a' t upper lower. subst upper lower.
  destruct (Hsel t) as (Hs & k0 & k1 & Hk0 & Hk1 & Hraw & Hnan).
  cbv zeta in Hs, Hk0, Hk1.
  exists k0, k1, (raw_alpha (key_time k0) (key_time k1) t).
  do 4 (split; [done|]).
  pose proof (spec_upper_bracket_lt (keys a) t Hne) as Hlt.
  unfold UpdateAndGetProperty. rewrite Hc, Hv, Hdt. cbn [orb negb].
  fold a'. fold t.
  assert (Hk : keys a' = keys a) by apply keys_advance.
  destruct (unit_advance a world_time) as [Hu Hsp]. fold a' in Hu, Hsp.
  clearbody a'. rewrite Hk, Hs, Hu, Hsp. cbv beta iota.
  rewrite bool_decide_true.
  2:{ destruct (spec_upper_bracket (keys a) t); simpl; lia. }
  rewrite !Nat2Z.id. rewrite Hk0, Hk1.
  by destruct (InterpolateValues _ _ _ _) as [[v h'] log].
Qed.

(** ** The key sequence is never empty *)

Lemma keys_new name current_value start_world_time duration num_iterations alternate :
  exists v,
    keys (ElementAnimation_new name current_value start_world_time duration
            num_iterations alternate)
    = [ {| key_time := F32.zero; key_value := v; key_tween := Tween_default |} ].
Proof.
  unfold ElementAnimation_new.
  destruct (TryMakeUnitValid (value current_value)) as [ok v]. by exists v.
Qed.

Lemma UpdateAndGetProperty_keys a h world_time u :
  UpdateAndGetProperty a h world_time = Some u -> keys (up_animation u) = keys a.
Proof.
  unfold UpdateAndGetProperty. intros H.
  destruct (_ || _); [by simplify_eq|].
  destruct (select_keys _ _) as [key0 key1].
  destruct (bool_decide _); [|done].
  repeat case_match; simplify_eq. simpl. apply keys_advance.
Qed.

Lemma select_keys_bounds (keys : list AnimationKey) (t : float32) :
  keys <> [] ->
  0 <= (select_keys keys t).1 /\
  (select_keys keys t).1 <= (select_keys keys t).2 /\
  (select_keys keys t).2 < Z.of_nat (length keys).
Proof.
  intros Hne. rewrite select_keys_spec by done. simpl.
  pose proof (spec_upper_bracket_lt keys t Hne).
  destruct (spec_upper_bracket keys t); simpl; lia.
Qed.

Lemma UpdateAndGetProperty_defined a h world_time :
  keys a <> [] -> is_Some (UpdateAndGetProperty a h world_time).
Proof.
  intros Hne. unfold UpdateAndGetProperty.
  destruct (_ || _); [done|].
  assert (Hne' : keys (advance a world_time) <> []) by by rewrite keys_advance.
  pose proof (select_keys_bounds _ (local_time (advance a world_time)) Hne') as (B0 & B1 & B2).
  destruct (select_keys _ _) as [key0 key1]. simpl in *.
  rewrite bool_decide_true by lia.
  destruct (lookup_lt_is_Some_2 (keys (advance a world_time)) (Z.to_nat key0)) as [k0 ->]; [lia|].
  destruct (lookup_lt_is_Some_2 (keys (advance a world_time)) (Z.to_nat key1)) as [k1 ->]; [lia|].
  by destruct (InterpolateValues _ _ _ _) as [[v h'] log].
Qed.

Lemma reachable_keys a h : reachable a h -> keys a <> [].
Proof.
  induction 1 as [name cv st d n alt h|c a h r a' h' _ IH Hcall].
  - destruct (keys_new name cv st d n alt) as [v ->]. done.
  - destruct c as [time property element tween|world_time]; simpl in Hcall.
    + destruct (AddKey _ _ _ _ _ _) as [[[ok a1] h1]|] eqn:E; [|done].
      injection Hcall as <- <- <-.
      apply AddKey_inv in E as [[_ ->]|[_ [v ->]]]; [done|].
      simpl. by destruct (keys a).
    + destruct (UpdateAndGetProperty _ _ _) as [u|] eqn:E; [|done].
      injection Hcall as <- <- <-.
      by rewrite (UpdateAndGetProperty_keys _ _ _ _ E).
Qed.

(** C9: the constructor seeds exactly one key; a failed [AddKey] leaves the
    key sequence as it found it and a successful one appends one key; hence
    every timeline that the constructor and the two methods can produce has a
    key.  With at least one key the bracket indices satisfy
    [0 <= key0 <= key1 < keys.size()] for every [t], so that on such a
    timeline the assertion of [UpdateAndGetProperty] holds and every key
    access is in bounds: the call returns. *)
Theorem keys_never_empty :
  (forall name current_value start_world_time duration num_iterations alternate,
      length (keys (ElementAnimation_new name current_value start_world_time duration
                      num_iterations alternate)) = 1%nat) /\
  (forall a h time property element tween ok a' h',
      AddKey a h time property element tween = Some (ok, a', h') ->
      if ok then exists k, keys a' = keys a ++ [k] else keys a' = keys a) /\
  (forall a h, reachable a h -> keys a <> []) /\
  (forall keys t,
      keys <> [] ->
      0 <= (select_keys keys t).1 /\
      (select_keys keys t).1 <= (select_keys keys t).2 /\
      (select_keys keys t).2 < Z.of_nat (length keys)) /\
  (forall a h world_time,
      reachable a h -> is_Some (UpdateAndGetProperty a h world_time)).
Proof.
  split; [|split; [|split; [|split]]].
  - intros name cv st d n alt. by destruct (keys_new name cv st d n alt) as [v ->].
  - intros * H. apply AddKey_inv in H as [[-> ->]|[-> [v ->]]]; simpl; eauto.
  - apply reachable_keys.
  - apply select_keys_bounds.
  - intros a h w Hr. apply UpdateAndGetProperty_defined. by apply reachable_keys in Hr.
Qed.

(** ** Iteration counts below one *)

Lemma set_num_iterations_twice a n m :
  set_num_iterations (set_num_iterations a n) m = set_num_iterations a m.
Proof. done. Qed.


Lemma AddKey_set_num_iterations a n h time property element tween :
  AddKey (set_num_iterations a n) h time property element tween
  = relabel n <$> AddKey a h time property element tween.
Proof.
  unfold AddKey. cbn [set_num_iterations property_unit valid keys].
  destruct (bool_decide (unit property ≠ property_unit a) || negb (valid a));
    [reflexivity|].
  destruct (TryMakeUnitValid (value property)) as [result v].
  destruct (result && bool_decide (unit property = TRANSFORM)).
  - destruct (Get_TransformRef (value property)) as [r|]; [|reflexivity].
    destruct (resolve_all_units (deref h r) element) as [result' t].
    destruct result'; [|reflexivity].
    destruct (PrepareTransforms _ _ _ _) as [p|]; [|reflexivity].
    destruct (pr_result p); reflexivity.
  - destruct result; reflexivity.
Qed.

(** With [current_iteration >= 0], an iteration count [n < 1] other than
    [-1] makes [advance] take the same branch as the count 1. *)
Lemma advance_set_num_iterations a n world_time :
  0 <= current_iteration a -> n < 1 -> n <> -1 ->
  advance (set_num_iterations a n) world_time
  = set_num_iterations (advance (set_num_iterations a 1) world_time) n.
Proof.
  intros H0 Hn Hm. unfold advance.
  cbn [set_num_iterations set_playback num_iterations current_iteration duration
       time_since_iteration_start last_update_world_time alternate_direction
       reverse_direction animation_complete].
  destruct (F32.geb _ _); [|done].
  rewrite (bool_decide_false (current_iteration a + 1 < n)) by lia.
  rewrite (bool_decide_false (n = -1)) by done.
  rewrite (bool_decide_false (current_iteration a + 1 < 1)) by lia.
  rewrite (bool_decide_false (1 = -1)) by done.
  done.
Qed.


Lemma UpdateAndGetProperty_set_num_iterations a n h world_time :
  0 <= current_iteration a -> n < 1 -> n <> -1 ->
  UpdateAndGetProperty (set_num_iterations a n) h world_time
  = relabel_updated n <$> UpdateAndGetProperty (set_num_iterations a 1) h world_time.
Proof.
  intros H0 Hn Hm. unfold UpdateAndGetProperty.
  rewrite advance_set_num_iterations by done.
  generalize (advance (set_num_iterations a 1) world_time). intros b.
  change (animation_complete (set_num_iterations a n)) with (animation_complete a).
  change (animation_complete (set_num_iterations a 1)) with (animation_complete a).
  change (valid (set_num_iterations a n)) with (valid a).
  change (valid (set_num_iterations a 1)) with (valid a).
  change (last_update_world_time (set_num_iterations a n)) with (last_update_world_time a).
  change (last_update_world_time (set_num_iterations a 1)) with (last_update_world_time a).
  destruct (_ || _); [done|].
  change (local_time (set_num_iterations b n)) with (local_time b).
  change (keys (set_num_iterations b n)) with (keys b).
  destruct (select_keys _ _) as [key0 key1].
  destruct (bool_decide _); [|done].
  destruct (keys b !! Z.to_nat key0); [|done].
  destruct (keys b !! Z.to_nat key1); [|done].
  by destruct (InterpolateValues _ _ _ _) as [[v h'] log].
Qed.

Lemma advance_iteration_nonneg a world_time :
  0 <= current_iteration a -> 0 <= current_iteration (advance a world_time).
Proof. intros H. unfold advance. repeat case_match; simpl; lia. Qed.

Lemma call_iteration_nonneg c a h r a' h' :
  0 <= current_iteration a -> call c a h = Some (r, a', h') -> 0 <= current_iteration a'.
Proof.
  intros H0 H. destruct c as [time property element tween|world_time]; simpl in H.
  - destruct (AddKey _ _ _ _ _ _) as [[[ok a1] h1]|] eqn:E; [|done].
    injection H as <- <- <-. apply AddKey_complete in E as (_ & _ & _ & -> & _). done.
  - destruct (UpdateAndGetProperty _ _ _) as [u|] eqn:E; [|done].
    injection H as <- <- <-. unfold UpdateAndGetProperty in E.
    destruct (_ || _); [by simplify_eq|].
    destruct (select_keys _ _) as [key0 key1].
    destruct (bool_decide _); [|done].
    repeat case_match; simplify_eq. simpl. by apply advance_iteration_nonneg.
Qed.

Lemma set_num_iterations_same a : set_num_iterations a (num_iterations a) = a.
Proof. by destruct a. Qed.

Lemma advance_num_iterations a world_time :
  num_iterations (advance a world_time) = num_iterations a.
Proof. unfold advance. by repeat case_match. Qed.

Lemma call_num_iterations c a h r a' h' :
  call c a h = Some (r, a', h') -> num_iterations a' = num_iterations a.
Proof.
  intros H. destruct c as [time property element tween|world_time]; simpl in H.
  - destruct (AddKey _ _ _ _ _ _) as [[[ok a1] h1]|] eqn:E; [|done].
    injection H as <- <- <-. by apply AddKey_inv in E as [[_ ->]|[_ [v ->]]].
  - destruct (UpdateAndGetProperty _ _ _) as [u|] eqn:E; [|done].
    injection H as <- <- <-. unfold UpdateAndGetProperty in E.
    destruct (_ || _); [by simplify_eq|].
    destruct (select_keys _ _) as [key0 key1].
    destruct (bool_decide _); [|done].
    repeat case_match; simplify_eq. simpl. by apply advance_num_iterations.
Qed.


Lemma call_set_num_iterations c a n h :
  0 <= current_iteration a -> n < 1 -> n <> -1 ->
  call c (set_num_iterations a n) h
  = (fun r : Returned * ElementAnimation * Heap => (r.1.1, set_num_iterations r.1.2 n, r.2))
      <$> call c (set_num_iterations a 1) h.
Proof.
  intros H0 Hn Hm. destruct c as [time property element tween|world_time]; simpl.
  - rewrite !AddKey_set_num_iterations.
    by destruct (AddKey a h time property element tween) as [[[ok a1] h1]|].
  - rewrite UpdateAndGetProperty_set_num_iterations by done.
    by destruct (UpdateAndGetProperty (set_num_iterations a 1) h world_time).
Qed.

Lemma calls_set_num_iterations cs a n h :
  0 <= current_iteration a -> n < 1 -> n <> -1 ->
  calls cs (set_num_iterations a n) h
  = relabel_run n <$> calls cs (set_num_iterations a 1) h.
Proof.
  intros H0 Hn Hm. revert a h H0.
  induction cs as [|c cs IH]; intros a h H0; simpl; [done|].
  rewrite call_set_num_iterations by done.
  destruct (call c (set_num_iterations a 1) h) as [[[r a1] h1]|] eqn:E; simpl; [|done].
  assert (H1 : 0 <= current_iteration a1).
  { eapply call_iteration_nonneg; [|exact E]. done. }
  rewrite (IH a1 h1 H1).
  assert (Ha1 : set_num_iterations a1 1 = a1).
  { apply call_num_iterations in E. simpl in E. rewrite <- E.
    apply set_num_iterations_same. }
  rewrite Ha1.
  by destruct (calls cs a1 h1) as [[[rs a2] h2]|].
Qed.

Lemma advance_unbounded a world_time :
  num_iterations a = -1 ->
  animation_complete (advance a world_time) = animation_complete a.
Proof.
  intros Hn. unfold advance. rewrite Hn. rewrite (bool_decide_true (-1 = -1)) by done.
  rewrite orb_true_r. by destruct (F32.geb _ _).
Qed.

Lemma call_unbounded c a h r a' h' :
  num_iterations a = -1 -> animation_complete a = false ->
  call c a h = Some (r, a', h') -> animation_complete a' = false.
Proof.
  intros Hn Hc H. destruct c as [time property element tween|world_time]; simpl in H.
  - destruct (AddKey _ _ _ _ _ _) as [[[ok a1] h1]|] eqn:E; [|done].
    injection H as <- <- <-. apply AddKey_complete in E as (-> & _). done.
  - destruct (UpdateAndGetProperty _ _ _) as [u|] eqn:E; [|done].
    injection H as <- <- <-. unfold UpdateAndGetProperty in E.
    destruct (_ || _); [by simplify_eq|].
    destruct (select_keys _ _) as [key0 key1].
    destruct (bool_decide _); [|done].
    repeat case_match; simplify_eq. simpl. by rewrite advance_unbounded.
Qed.

(** ** The reconciliation loop is bounded *)

Lemma key_ref_Some keys i :
  Forall holds_transform keys -> 0 <= i < Z.of_nat (length keys) -> is_Some (key_ref keys i).
Proof.
  intros Hall Hi. unfold key_ref. rewrite decide_True by lia.
  destruct (lookup_lt_is_Some_2 keys (Z.to_nat i)) as [k Hk]; [lia|].
  rewrite Hk. rewrite Forall_lookup in Hall. by apply (Hall _ _ Hk).
Qed.

Lemma PrepareTransforms_pass_Some keys element h i :
  Forall holds_transform keys -> 1 <= i < Z.of_nat (length keys) ->
  is_Some (PrepareTransforms_pass keys element h i).
Proof.
  intros Hall Hi. unfold PrepareTransforms_pass.
  destruct (key_ref_Some keys (i - 1) Hall) as [r0 ->]; [lia|].
  destruct (key_ref_Some keys i Hall) as [r1 ->]; [lia|].
  by destruct (PrepareTransformPair _ _ _) as [[result t0] t1].
Qed.

Lemma next_index_pos (b : bool) (i : Z) :
  1 <= i -> 1 <= (if b && bool_decide (i > 1) then i - 1 else i + 1).
Proof. intros Hi. destruct b; simpl; [case_bool_decide|]; lia. Qed.

(** The loop returns; its counter never passes [max_iterations]; it leaves
    either by its condition, after [count_iterations - cnt] passes, or by
    [return false] in the middle of one more pass. *)
Lemma PrepareTransforms_loop_bounded keys element mx h i cnt passes :
  1 <= i -> Forall holds_transform keys ->
  exists p,
    PrepareTransforms_loop keys element mx h i cnt passes = Some p /\
    cnt <= pr_count_iterations p /\
    (pr_count_iterations p <= mx \/ pr_count_iterations p = cnt) /\
    ((pr_result p = bool_decide (pr_count_iterations p < mx) /\
      Z.of_nat (pr_passes p) = Z.of_nat passes + (pr_count_iterations p - cnt)) \/
     (pr_result p = false /\ pr_count_iterations p < mx /\
      Z.of_nat (pr_passes p) = Z.of_nat passes + (pr_count_iterations p - cnt) + 1)).
Proof.
  intros Hi Hall.
  funelim (PrepareTransforms_loop keys element mx h i cnt passes).
  - eexists; split; [done|]. simpl.
    repeat split; [lia|right; lia|left; split; [done|lia]].
  - match goal with Hp : PrepareTransforms_pass ?ks ?e ?hh ?ii = None |- _ =>
      destruct (PrepareTransforms_pass_Some ks e hh ii) as [x Hx];
        [done|lia|congruence]
    end.
  - eexists; split; [done|]. simpl.
    repeat split; [lia|left; lia|right; repeat split; lia].
  - match goal with IH : _ -> _ -> exists p, _ |- _ =>
      destruct IH as (p & Hp & Hc & Hm & Hr); [by apply next_index_pos|done|]
    end.
    exists p. split; [done|].
    repeat split; [lia|left; lia|].
    destruct Hr as [[Hr Hn]|(Hr & Hlt & Hn)]; [left|right]; repeat split; try done; lia.
Qed.

Lemma PrepareTransforms_pass_length keys element h i result h' :
  PrepareTransforms_pass keys element h i = Some (result, h') -> length h' = length h.
Proof.
  unfold PrepareTransforms_pass. intros H.
  destruct (key_ref keys (i - 1)) as [r0|]; [|done].
  destruct (key_ref keys i) as [r1|]; [|done].
  destruct (PrepareTransformPair _ _ _) as [[res t0] t1].
  injection H as <- <-. unfold store, Heap in *. by rewrite !length_insert.
Qed.

Lemma PrepareTransforms_loop_heap_length keys element mx h i cnt passes p :
  PrepareTransforms_loop keys element mx h i cnt passes = Some p ->
  length (pr_heap p) = length h.
Proof.
  funelim (PrepareTransforms_loop keys element mx h i cnt passes); intros Hp.
  - by simplify_eq.
  - done.
  - match goal with Hs : PrepareTransforms_pass _ _ _ _ = Some _ |- _ =>
      apply PrepareTransforms_pass_length in Hs
    end.
    by simplify_eq.
  - match goal with Hs : PrepareTransforms_pass _ _ _ _ = Some _ |- _ =>
      apply PrepareTransforms_pass_length in Hs
    end.
    match goal with IH : forall p, _ = Some p -> _ |- _ => rewrite (IH _ Hp) end.
    done.
Qed.

(** C7: on keys that hold transforms, [PrepareTransforms] returns.  Its
    counter [count_iterations], which starts at [-1] and counts the passes
    after the first, never exceeds [max_iterations = 3 * keys.size()], so that
    it makes at most [3 * keys.size() + 1] calls of [PrepareTransformPair];
    it returns [true] only if the chain settled within [3 * keys.size()]
    passes; when the counter reaches [max_iterations] it returns [false]; and
    whenever the [PrepareTransforms] called by [AddKey] returns [false],
    [AddKey] returns [false] with the appended key removed. *)
Theorem PrepareTransforms_bounded (ks : list AnimationKey) (element : Element)
    (h : Heap) (start_index : Z) :
  Forall holds_transform ks ->
  (exists p,
      PrepareTransforms ks element h start_index = Some p /\
      pr_count_iterations p <= 3 * Z.of_nat (length ks) /\
      (pr_passes p <= 3 * length ks + 1)%nat /\
      (pr_result p = true -> (pr_passes p <= 3 * length ks)%nat) /\
      (pr_count_iterations p = 3 * Z.of_nat (length ks) -> pr_result p = false)) /\
  (forall a h0 time property tween r p,
      unit property = property_unit a -> valid a = true ->
      unit property = TRANSFORM -> value property = V_TRANSFORMREF r ->
      (resolve_all_units (deref h0 r) element).1 = true ->
      PrepareTransforms
        (keys a
         ++ [ {| key_time := time; key_value := value property; key_tween := tween |} ])
        element
        (store h0 r (resolve_all_units (deref h0 r) element).2)
        (Z.of_nat (length (keys a
           ++ [ {| key_time := time; key_value := value property; key_tween := tween |} ])) - 1)
      = Some p ->
      pr_result p = false ->
      AddKey a h0 time property element tween = Some (false, a, pr_heap p)).
Proof.
  intros Hall. split.
  - unfold PrepareTransforms.
    destruct (PrepareTransforms_loop_bounded ks element (3 * Z.of_nat (length ks)) h
                (if decide (start_index < 1) then 1 else start_index) (-1) 0)
      as (p & Hp & Hc & Hm & Hr); [case_decide; lia|done|].
    exists p. split; [done|].
    destruct Hr as [[Hr Hn]|(Hr & Hlt & Hn)].
    + repeat split; [lia|lia| |].
      * rewrite Hr. intros Ht%bool_decide_eq_true. lia.
      * intros He. rewrite Hr. apply bool_decide_eq_false. lia.
    + repeat split; [lia|lia| |].
      * rewrite Hr. done.
      * done.
  - intros a h0 time property tween r p Hu Hv Ht Hr Hres Hp Hfalse.
    rewrite Hr in Hp. unfold AddKey.
    rewrite bool_decide_false by (by intros ?).
    rewrite Hv. cbn [negb orb].
    unfold TryMakeUnitValid. rewrite Hr. cbn [GetType Get_TransformRef andb].
    rewrite (bool_decide_true _ Ht).
    destruct (resolve_all_units (deref h0 r) element) as [ok t]. simpl in Hres, Hp.
    rewrite Hres, Hp, Hfalse.
    by rewrite removelast_snoc, set_keys_same.
Qed.

(** ** Reconciliation by insertion *)

Lemma identities_length i0 m big :
  (m <= length big)%nat -> length (identities i0 m big) = (m - i0)%nat.
Proof. intros H. unfold identities. rewrite length_map, length_take, length_drop. lia. Qed.

Lemma identities_step i m big p :
  big !! i = Some p -> (i < m)%nat ->
  identities i m big = SetIdentity p :: identities (S i) m big.
Proof.
  intros Hp Hm. unfold identities. rewrite (drop_S _ _ _ Hp).
  replace (m - i)%nat with (S (m - S i)) by lia. done.
Qed.

Lemma identities_nil i m big : (m <= i)%nat -> identities i m big = [].
Proof. intros H. unfold identities. by replace (m - i)%nat with 0%nat by lia. Qed.

Lemma insert_identities_spec n i big small :
  (i <= length small)%nat -> (i + n <= length big)%nat ->
  insert_identities n i big small
  = take i small ++ identities i (i + n) big ++ drop i small.
Proof.
  revert i small. induction n as [|n IH]; intros i small Hs Hb; simpl.
  - rewrite identities_nil by lia. simpl. by rewrite take_drop.
  - destruct (lookup_lt_is_Some_2 big i) as [p Hp]; [lia|]. rewrite Hp.
    rewrite IH; [|unfold vector_insert; rewrite length_app, length_take; simpl; lia|lia].
    unfold vector_insert.
    rewrite (identities_step i (i + S n) big p) by (done || lia).
    replace (S i + n)%nat with (i + S n)%nat by lia.
    assert (Hl : length (take i small) = i) by (rewrite length_take; lia).
    rewrite (take_app_ge _ _ (S i)) by lia. rewrite Hl.
    replace (S i - i)%nat with 1%nat by lia.
    rewrite (drop_app_ge _ _ (S i)) by lia. rewrite Hl.
    replace (S i - i)%nat with 1%nat by lia. simpl.
    rewrite take_0, drop_0. by rewrite <- !app_assoc.
Qed.

(** The insertion loops compute [spec_fill_gaps]. *)
Lemma insert_missing_spec positions :
  forall i0 big small,
    (i0 <= length small)%nat ->
    length positions = S (length small - i0) ->
    StronglySorted lt positions ->
    Forall (fun m => (i0 <= m <= length big)%nat) positions ->
    insert_missing positions i0 big small
    = take i0 small ++ spec_fill_gaps positions i0 big (drop i0 small).
Proof.
  induction positions as [|m positions IH]; intros i0 big small Hs Hlen Hsort Hall; [done|].
  simpl in *. apply StronglySorted_inv in Hsort as [Hsort Hlt].
  apply Forall_cons in Hall as [Hm Hall].
  rewrite insert_identities_spec by lia.
  replace (i0 + (m - i0))%nat with m by lia.
  destruct positions as [|m' positions].
  - simpl. assert (Hd : drop i0 small = []) by (apply drop_ge; simpl in Hlen; lia).
    by rewrite Hd.
  - destruct (drop i0 small) as [|s rest] eqn:Hd.
    { apply (f_equal length) in Hd. rewrite length_drop in Hd. simpl in *. lia. }
    assert (Hl : length (take i0 small ++ identities i0 m big) = m).
    { rewrite length_app, length_take, identities_length by lia. lia. }
    assert (Hrest : length rest = (length small - S i0)%nat).
    { apply (f_equal length) in Hd. rewrite length_drop in Hd. simpl in Hd. lia. }
    rewrite IH.
    + replace (m + 1)%nat with (S m) by lia.
      rewrite !app_assoc.
      rewrite (take_app_ge _ _ (S m)) by lia. rewrite Hl.
      replace (S m - m)%nat with 1%nat by lia.
      rewrite (drop_app_ge _ _ (S m)) by lia. rewrite Hl.
      replace (S m - m)%nat with 1%nat by lia. simpl.
      rewrite take_0, drop_0. by rewrite <- !app_assoc.
    + rewrite !length_app, length_take, identities_length by lia. simpl. lia.
    + rewrite !length_app, length_take, identities_length by lia. simpl in *. lia.
    + done.
    + apply Forall_cons in Hlt as [Hlt' Hlt].
      apply Forall_cons in Hall as [Hm' Hall]. apply Forall_cons. split; [lia|].
      eapply Forall_impl; [apply Forall_and; split; [exact Hlt|exact Hall]|].
      simpl. intros x [? ?]. lia.
Qed.

(** *** Embeddings *)

Lemma embeds_weaken small big b : embeds small big -> embeds small (b :: big).
Proof. destruct small; intros H; [constructor|by apply embeds_later]. Qed.

Lemma embeds_tail s small big : embeds (s :: small) big -> embeds small big.
Proof.
  induction big as [|b big IH]; intros H; inversion H; subst.
  - by apply embeds_weaken.
  - apply embeds_weaken. by apply IH.
Qed.

Lemma embeds_exists s small big : embeds (s :: small) big -> Exists (matches s) big.
Proof.
  induction big as [|b big IH]; intros H; inversion H; subst.
  - by apply Exists_cons_hd.
  - apply Exists_cons_tl. by apply IH.
Qed.

(** The leftmost match can always be taken. *)
Lemma embeds_first s rest l : forall j b,
  embeds (s :: rest) l -> l !! j = Some b ->
  Forall (fun b0 => ~ matches s b0) (take j l) ->
  embeds rest (drop (S j) l).
Proof.
  induction l as [|b0 l IH]; intros j b H Hj Hno; [done|].
  destruct j as [|j]; simpl in *.
  - rewrite drop_0. inversion H; subst; [done|]. by eapply embeds_tail.
  - apply Forall_cons in Hno as [Hn0 Hno].
    inversion H; subst; [done|]. by eapply IH.
Qed.

(** *** The matching loops *)


Lemma inner_match_loop_spec `{!CollaboratorLaws C} n : forall i_small s st,
  ms_small st !! i_small = Some s ->
  n = (length (ms_big st) - ms_i_big st)%nat ->
  ms_match_success st = false ->
  let st' := inner_match_loop n i_small (prim_index s) st in
  (ms_match_success st' = false /\
   Forall (fun b => ~ matches s b) (drop (ms_i_big st) (ms_big st)))
  \/
  (exists j b s' b',
      (ms_i_big st <= j)%nat /\ ms_big st !! j = Some b /\
      Forall (fun b0 => ~ matches s b0)
        (take (j - ms_i_big st) (drop (ms_i_big st) (ms_big st))) /\
      widened s s' /\ prim_index s' = prim_index b' /\
      ms_match_success st' = true /\
      ms_small st' = <[i_small := s']> (ms_small st) /\
      ms_big st' = <[j := b']> (ms_big st) /\
      ms_i_big st' = (j + 1)%nat /\
      ms_matching_indices st' = ms_matching_indices st ++ [j]).
Proof.
  induction n as [|n IH]; intros i_small s st Hs Hn Hf; simpl.
  - left. split; [done|]. rewrite drop_ge by lia. constructor.
  - rewrite Hs.
    destruct (lookup_lt_is_Some_2 (ms_big st) (ms_i_big st)) as [b Hb]; [lia|].
    rewrite Hb.
    destruct (decide (prim_index s = prim_index b)) as [Heq|Hne].
    { right. exists (ms_i_big st), b, s, b. simpl.
      replace (ms_i_big st - ms_i_big st)%nat with 0%nat by lia.
      repeat split; try done.
      - by left.
      - by rewrite list_insert_id.
      - by rewrite list_insert_id. }
    destruct (TryConvertToMatchingGenericType s b) as [[s' b']|] eqn:Hc.
    { right. exists (ms_i_big st), b, s', b'. simpl.
      replace (ms_i_big st - ms_i_big st)%nat with 0%nat by lia.
      repeat split; try done.
      - right. by exists b, b'.
      - by eapply TryConvert_index. }
    assert (Hnm : ~ matches s b).
    { intros [?|[x Hx]]; [done|congruence]. }
    set (st1 := {| ms_small := ms_small st; ms_big := ms_big st;
                   ms_i_big := ms_i_big st + 1; ms_match_success := false;
                   ms_changed_big := ms_changed_big st;
                   ms_matching_indices := ms_matching_indices st |}).
    destruct (IH i_small s st1) as [[Hfail Hall]|(j & bj & s' & b' & Hj & Hbj & Hall & Hrest)];
      [done|simpl; lia|done| |].
    + left. split; [done|]. rewrite (drop_S _ _ _ Hb). simpl in Hall.
      replace (ms_i_big st + 1)%nat with (S (ms_i_big st)) in Hall by lia.
      by constructor.
    + right. exists j, bj, s', b'. simpl in *.
      split; [lia|]. split; [done|]. split; [|done].
      rewrite (drop_S _ _ _ Hb).
      replace (j - ms_i_big st)%nat with (S (j - (ms_i_big st + 1))) by lia.
      simpl. constructor; [done|].
      by replace (S (ms_i_big st)) with (ms_i_big st + 1)%nat by lia.
Qed.

Lemma outer_match_loop_spec `{!CollaboratorLaws C} n : forall i_small st,
  n = (length (ms_small st) - i_small)%nat ->
  embeds (drop i_small (ms_small st)) (drop (ms_i_big st) (ms_big st)) ->
  let st' := outer_match_loop n i_small st in
  (n <> 0%nat -> ms_match_success st' = true) /\
  (n = 0%nat -> st' = st) /\
  length (ms_small st') = length (ms_small st) /\
  length (ms_big st') = length (ms_big st) /\
  take i_small (ms_small st') = take i_small (ms_small st) /\
  take (ms_i_big st) (ms_big st') = take (ms_i_big st) (ms_big st) /\
  exists new,
    ms_matching_indices st' = ms_matching_indices st ++ new /\
    length new = n /\
    StronglySorted lt new /\
    Forall (fun j => (ms_i_big st <= j < length (ms_big st))%nat) new /\
    Forall2 (fun s' j => exists b', ms_big st' !! j = Some b' /\ prim_index s' = prim_index b')
      (drop i_small (ms_small st')) new /\
    Forall2 widened (drop i_small (ms_small st)) (drop i_small (ms_small st')).
Proof.
  induction n as [|n IH]; intros i_small st Hn Hemb; simpl.
  - repeat split; try done. exists []. rewrite app_nil_r.
    repeat split; try done; try constructor.
    + rewrite drop_ge by lia. constructor.
    + rewrite drop_ge by lia. constructor.
  - destruct (lookup_lt_is_Some_2 (ms_small st) i_small) as [s Hs]; [lia|].
    rewrite Hs. rewrite (drop_S _ _ _ Hs) in Hemb.
    fold (unmatched st).
    change (length (ms_big (unmatched st)) - ms_i_big (unmatched st))%nat
      with (length (ms_big st) - ms_i_big st)%nat.
    destruct (inner_match_loop_spec (length (ms_big st) - ms_i_big st) i_small s (unmatched st))
      as [[Hfail Hall]|(j & b & s' & b' & Hj & Hb & Hall & Hw & Hidx & Hok & Hsm & Hbg & Hib & Hmi)];
      [done..| |]; simpl in *.
    { apply embeds_exists in Hemb. apply Exists_exists in Hemb as (x & Hx & Hm).
      rewrite Forall_forall in Hall. by destruct (Hall x Hx). }
    set (st1 := inner_match_loop (length (ms_big st) - ms_i_big st) i_small
                  (prim_index s) (unmatched st)) in *.
    rewrite Hok.
    assert (Hjlt : (j < length (ms_big st))%nat) by by eapply lookup_lt_Some.
    assert (Hemb1 : embeds (drop (S i_small) (ms_small st1)) (drop (ms_i_big st1) (ms_big st1))).
    { rewrite Hsm, Hbg, Hib. rewrite drop_insert_lt by lia.
      replace (j + 1)%nat with (S j) by lia. rewrite drop_insert_lt by lia.
      replace (S j) with (ms_i_big st + S (j - ms_i_big st))%nat by lia.
      rewrite <- drop_drop.
      eapply (embeds_first s _ _ (j - ms_i_big st) b); [exact Hemb| |done].
      rewrite lookup_drop. by replace (ms_i_big st + (j - ms_i_big st))%nat with j by lia. }
    destruct (IH (S i_small) st1) as (Hs1 & Hz1 & Hl1 & Hl2 & Ht1 & Ht2 & new & Hn1 & Hn2 & Hn3 & Hn4 & Hn5 & Hn6);
      [rewrite Hsm, length_insert; lia|exact Hemb1|].
    set (st' := outer_match_loop n (S i_small) st1) in *.
    assert (Hsuccess : ms_match_success st' = true).
    { destruct n as [|n']; [by rewrite Hz1|by apply Hs1]. }
    rewrite Hsm, length_insert in Hl1. rewrite Hbg, length_insert in Hl2.
    assert (Hti : take i_small (ms_small st') = take i_small (ms_small st)).
    { apply (f_equal (take i_small)) in Ht1. rewrite !take_take in Ht1.
      rewrite Nat.min_l in Ht1 by lia. rewrite Ht1, Hsm. by rewrite take_insert_ge by lia. }
    assert (Htb : take (ms_i_big st) (ms_big st') = take (ms_i_big st) (ms_big st)).
    { apply (f_equal (take (ms_i_big st))) in Ht2. rewrite !take_take in Ht2.
      rewrite Nat.min_l in Ht2 by lia. rewrite Ht2, Hbg. by rewrite take_insert_ge by lia. }
    assert (Hsi : ms_small st' !! i_small = Some s').
    { apply (f_equal (fun l => l !! i_small)) in Ht1.
      rewrite !lookup_take_lt in Ht1 by lia. rewrite Ht1, Hsm.
      apply list_lookup_insert_eq. by eapply lookup_lt_Some. }
    assert (Hbj : ms_big st' !! j = Some b').
    { apply (f_equal (fun l => l !! j)) in Ht2.
      rewrite !lookup_take_lt in Ht2 by lia. rewrite Ht2, Hbg.
      by apply list_lookup_insert_eq. }
    repeat split; try done.
    exists (j :: new). repeat split.
    + rewrite Hn1, Hmi. by rewrite <- app_assoc.
    + simpl. lia.
    + constructor; [done|]. eapply Forall_impl; [exact Hn4|]. simpl. intros x Hx. lia.
    + constructor; [lia|]. eapply Forall_impl; [exact Hn4|]. simpl. intros x Hx.
      rewrite Hbg, length_insert in Hx. lia.
    + rewrite (drop_S _ _ _ Hsi). constructor; [by exists b'|done].
    + rewrite (drop_S _ _ _ Hs), (drop_S _ _ _ Hsi). constructor; [done|].
      rewrite Hsm in Hn6. by rewrite drop_insert_lt in Hn6 by lia.
Qed.

Lemma spec_fill_gaps_kinds `{!CollaboratorLaws C} positions : forall i0 big small,
  (i0 <= length big)%nat ->
  Forall (fun j => (i0 <= j < length big)%nat) positions ->
  StronglySorted lt positions ->
  Forall2 (fun s j => exists b, big !! j = Some b /\ prim_index s = prim_index b)
    small positions ->
  map prim_index (spec_fill_gaps (positions ++ [length big]) i0 big small)
  = map prim_index (drop i0 big).
Proof.
  assert (Hid : forall l : list Primitive, map prim_index (map SetIdentity l) = map prim_index l).
  { intros l. rewrite map_map. apply map_ext. intros p. apply SetIdentity_index. }
  induction positions as [|j positions IH]; intros i0 big small Hi Hall Hsort Hk.
  - apply Forall2_nil_inv_r in Hk as ->. simpl. rewrite app_nil_r.
    unfold identities. rewrite Hid. by rewrite take_ge by (rewrite length_drop; lia).
  - apply Forall2_cons_inv_r in Hk as (s & small' & (b & Hb & Hsb) & Hk & ->).
    apply Forall_cons in Hall as [Hj Hall].
    apply StronglySorted_inv in Hsort as [Hsort Hlt].
    simpl. rewrite map_app. unfold identities at 1. rewrite Hid. simpl.
    rewrite IH; [|lia| |done|done].
    2:{ eapply Forall_impl; [apply Forall_and; split; [exact Hall|exact Hlt]|].
        simpl. intros x [? ?]. lia. }
    rewrite Hsb. rewrite <- (map_cons prim_index b), <- map_app. f_equal.
    rewrite <- (drop_S _ _ _ Hb).
    replace j with (i0 + (j - i0))%nat at 2 by lia.
    rewrite <- drop_drop. by rewrite take_drop.
Qed.

(** What the unequal-size case does when [small] embeds into [big]. *)
Lemma grow_small_spec `{!CollaboratorLaws C} (small big : list Primitive) :
  embeds small big ->
  let st := match_small_into_big small big in
  ms_match_success st = true /\
  length (ms_big st) = length big /\
  length (grow_small st) = length big /\
  map prim_index (grow_small st) = map prim_index (ms_big st) /\
  StronglySorted lt (ms_matching_indices st) /\
  Forall (fun j => (j < length big)%nat) (ms_matching_indices st) /\
  Forall2 widened small (ms_small st) /\
  grow_small st
  = spec_fill_gaps (ms_matching_indices st ++ [length big]) 0 (ms_big st) (ms_small st).
Proof.
  intros Hemb. unfold match_small_into_big.
  set (st0 := {| ms_small := small; ms_big := big; ms_i_big := 0;
                 ms_match_success := true; ms_changed_big := false;
                 ms_matching_indices := [] |}).
  destruct (outer_match_loop_spec (length small) 0 st0)
    as (Hs & Hz & Hl1 & Hl2 & _ & _ & new & Hn1 & Hn2 & Hn3 & Hn4 & Hn5 & Hn6);
    [simpl; lia|by rewrite !drop_0|].
  set (st := outer_match_loop (length small) 0 st0) in *. simpl in *.
  rewrite !drop_0 in *.
  assert (Hok : ms_match_success st = true).
  { destruct (length small) as [|n] eqn:E; [by rewrite Hz|by apply Hs]. }
  assert (Hb : Forall (fun j => (j < length big)%nat) new).
  { eapply Forall_impl; [exact Hn4|]. simpl. intros x Hx. lia. }
  assert (Hgrow : grow_small st
                  = spec_fill_gaps (new ++ [length big]) 0 (ms_big st) (ms_small st)).
  { unfold grow_small. rewrite Hn1, Hl2.
    rewrite insert_missing_spec; [by rewrite take_0, drop_0|lia| | |].
    - rewrite length_app. simpl. lia.
    - apply StronglySorted_app_2; [|done|repeat constructor].
      intros x1 x2 H1 ->%list_elem_of_singleton.
      rewrite Forall_forall in Hb. by apply Hb.
    - apply Forall_app. split.
      + eapply Forall_impl; [exact Hb|]. simpl. intros x Hx. lia.
      + repeat constructor; lia. }
  assert (Hkinds : map prim_index (grow_small st) = map prim_index (ms_big st)).
  { rewrite Hgrow. rewrite <- Hl2.
    rewrite spec_fill_gaps_kinds; [by rewrite drop_0|lia| |done|].
    - eapply Forall_impl; [exact Hb|]. simpl. intros x Hx. lia.
    - eapply Forall2_impl; [exact Hn5|]. simpl. intros s j (b' & ? & ?). by exists b'. }
  repeat split; try done.
  - apply (f_equal length) in Hkinds. rewrite !length_map in Hkinds. lia.
  - by rewrite Hn1.
  - by rewrite Hn1.
  - by rewrite Hn1.
Qed.

(** C6: with [prims0 = [Scale, Rotate]] and [prims1 = [Scale]] (two
    primitives of one kind and any other primitive), [PrepareTransformPair]
    leaves [prims0] as it is and inserts the identity of the [Rotate]
    primitive into [prims1], which gives two vectors of size 2 with the same
    kinds position by position.  In general, when the sizes differ and every
    primitive of the shorter vector matches (exactly, or by widening) a
    primitive of the longer one in strictly increasing position order, the
    call does not fail, both vectors end with the size of the longer one and
    with the same kinds position by position, and the shorter vector has
    become its own primitives (widened where they matched by widening), at
    strictly increasing positions, with the identity of the longer vector's
    primitive at every other position. *)
Theorem reconcile_by_insertion `{!CollaboratorLaws C} (element : Element) :
  (forall scale0 rotate scale1,
      prim_index scale0 = prim_index scale1 ->
      PrepareTransformPair [scale0; rotate] [scale1] element
      = (ChangedT1, [scale0; rotate], [scale1; SetIdentity rotate]) /\
      map prim_index [scale0; rotate] = map prim_index [scale1; SetIdentity rotate]) /\
  (forall t0 t1,
      length t0 <> length t1 ->
      let t0_smallest := bool_decide (length t0 < length t1)%nat in
      let small := if t0_smallest then t0 else t1 in
      let big := if t0_smallest then t1 else t0 in
      embeds small big ->
      exists result small' big' positions matched,
        PrepareTransformPair t0 t1 element
        = (result, (if t0_smallest then small' else big'),
                   (if t0_smallest then big' else small')) /\
        (result = (if t0_smallest then ChangedT0 else ChangedT1)
         \/ result = ChangedT0andT1) /\
        length small' = length big /\ length big' = length big /\
        map prim_index small' = map prim_index big' /\
        StronglySorted lt positions /\
        Forall (fun j => (j < length big)%nat) positions /\
        Forall2 widened small matched /\
        small' = spec_fill_gaps (positions ++ [length big]) 0 big' matched).
Proof.
  split.
  - intros scale0 rotate scale1 Hk. split.
    + unfold PrepareTransformPair. simpl.
      unfold match_small_into_big, grow_small. simpl.
      rewrite decide_True by done. reflexivity.
    + simpl. by rewrite Hk, SetIdentity_index.
  - intros t0 t1 Hne t0_smallest small big Hemb. subst small big t0_smallest.
    unfold PrepareTransformPair. rewrite decide_False by done. cbv zeta.
    destruct (bool_decide (length t0 < length t1)%nat).
    + destruct (grow_small_spec t0 t1 Hemb) as (Hok & Hl & Hlg & Hk & Hs & Hb & Hw & Hg).
      rewrite Hok.
      exists (if ms_changed_big (match_small_into_big t0 t1)
              then ChangedT0andT1 else ChangedT0),
        (grow_small (match_small_into_big t0 t1)),
        (ms_big (match_small_into_big t0 t1)),
        (ms_matching_indices (match_small_into_big t0 t1)),
        (ms_small (match_small_into_big t0 t1)).
      repeat split; try done; destruct (ms_changed_big _); auto.
    + destruct (grow_small_spec t1 t0 Hemb) as (Hok & Hl & Hlg & Hk & Hs & Hb & Hw & Hg).
      rewrite Hok.
      exists (if ms_changed_big (match_small_into_big t1 t0)
              then ChangedT0andT1 else ChangedT1),
        (grow_small (match_small_into_big t1 t0)),
        (ms_big (match_small_into_big t1 t0)),
        (ms_matching_indices (match_small_into_big t1 t0)),
        (ms_small (match_small_into_big t1 t0)).
      repeat split; try done; destruct (ms_changed_big _); auto.
Qed.

(** When both arguments are one transform, the pair is left unchanged. *)
Lemma same_size_loop_same n : forall i (t : list Primitive) result,
  same_size_loop n i t t result = (true, result, t, t).
Proof.
  induction n as [|n IH]; intros i t result; simpl; [done|].
  destruct (t !! i) as [x|]; [|done].
  rewrite decide_False by (by intros ?). apply IH.
Qed.

Lemma PrepareTransformPair_same (t : Transform) (element : Element) :
  PrepareTransformPair t t element = (Unchanged, t, t).
Proof.
  unfold PrepareTransformPair. rewrite decide_True by done.
  by rewrite same_size_loop_same.
Qed.

(** ** Failed adds *)

Lemma key_ref_elem keys i r : key_ref keys i = Some r -> r ∈ key_refs keys.
Proof.
  unfold key_ref, key_refs. intros H.
  destruct (decide (0 <= i)); [|done].
  destruct (keys !! Z.to_nat i) as [k|] eqn:Hk; [|done].
  apply list_elem_of_omap. exists k. split; [|done].
  apply list_elem_of_lookup. eauto.
Qed.

Lemma PrepareTransforms_pass_frame keys element h i result h' r :
  PrepareTransforms_pass keys element h i = Some (result, h') ->
  r ∉ key_refs keys -> h' !! r = h !! r.
Proof.
  unfold PrepareTransforms_pass. intros H Hr.
  destruct (key_ref keys (i - 1)) as [r0|] eqn:E0; [|done].
  destruct (key_ref keys i) as [r1|] eqn:E1; [|done].
  destruct (PrepareTransformPair _ _ _) as [[res t0] t1].
  injection H as <- <-. unfold store, Heap in *.
  apply key_ref_elem in E0, E1.
  rewrite !list_lookup_insert_ne; [done|by intros ->|by intros ->].
Qed.

Lemma PrepareTransforms_loop_frame keys element mx h i cnt passes p r :
  PrepareTransforms_loop keys element mx h i cnt passes = Some p ->
  r ∉ key_refs keys -> pr_heap p !! r = h !! r.
Proof.
  funelim (PrepareTransforms_loop keys element mx h i cnt passes); intros Hp Hr.
  - by simplify_eq.
  - done.
  - match goal with Hs : PrepareTransforms_pass _ _ _ _ = Some _ |- _ =>
      apply (PrepareTransforms_pass_frame _ _ _ _ _ _ r) in Hs; [|done]
    end.
    by simplify_eq.
  - match goal with Hs : PrepareTransforms_pass _ _ _ _ = Some _ |- _ =>
      apply (PrepareTransforms_pass_frame _ _ _ _ _ _ r) in Hs; [|done]
    end.
    match goal with IH : forall p r, _ = Some p -> _ |- _ => rewrite (IH _ r Hp); done end.
Qed.

(** What a failed [AddKey] leaves alone.  It returns [false] and changes
    nothing when the unit of the value differs from the unit of the timeline
    or the timeline is invalid.  On every failure the timeline is given back
    as it was (the appended key is removed: same keys, with their times,
    tweens and values); the store keeps its size; a coercion failure, and
    every failure on a property that is not a transform, leaves the store as
    it was; no transform is written but those that the keys or the supplied
    value refer to.  Those may be left rewritten: see
    [failed_add_breaks_earlier_keys]. *)
Lemma AddKey_failure :
  (forall a h time property element tween,
      unit property <> property_unit a \/ valid a = false ->
      AddKey a h time property element tween = Some (false, a, h)) /\
  (forall a h time property element tween a' h',
      AddKey a h time property element tween = Some (false, a', h') ->
      a' = a /\
      length h' = length h /\
      (unit property <> TRANSFORM \/ (TryMakeUnitValid (value property)).1 = false ->
       h' = h) /\
      (forall r, r ∉ key_refs (keys a) -> value property <> V_TRANSFORMREF r ->
                 h' !! r = h !! r)).
Proof.
  split.
  - intros a h time property element tween H. unfold AddKey.
    destruct H as [H| ->].
    + by rewrite bool_decide_true.
    + by rewrite orb_true_r.
  - intros a h time property element tween a' h' H.
    split. { by apply AddKey_inv in H as [[_ ->]|[? _]]. }
    unfold AddKey in H.
    destruct (bool_decide (unit property <> property_unit a) || negb (valid a));
      [by simplify_eq|].
    destruct (TryMakeUnitValid (value property)) as [result v] eqn:Etry.
    destruct (bool_decide (unit property = TRANSFORM)) eqn:Eu.
    2:{ rewrite andb_false_r in H. destruct result; simplify_eq. done. }
    apply bool_decide_eq_true in Eu.
    destruct result; cbn [andb] in H; [|by simplify_eq; repeat split; auto; intros [?|?]].
    destruct (Get_TransformRef (value property)) as [r0|] eqn:Eg; [|done].
    assert (Hv : value property = V_TRANSFORMREF r0).
    { revert Eg. destruct (value property); simpl; intros Eg; by simplify_eq. }
    assert (v = V_TRANSFORMREF r0) as ->.
    { rewrite Hv in Etry. unfold TryMakeUnitValid in Etry. simpl in Etry. by simplify_eq. }
    destruct (resolve_all_units (deref h r0) element) as [result' t].
    destruct result'.
    + destruct (PrepareTransforms _ _ _ _) as [p|] eqn:Ep; [|done].
      destruct (pr_result p); simplify_eq.
      unfold PrepareTransforms in Ep.
      repeat split.
      * rewrite (PrepareTransforms_loop_heap_length _ _ _ _ _ _ _ _ Ep).
        unfold store, Heap. by rewrite length_insert.
      * intros [?|?]; [done|]. simpl in *. done.
      * intros r Hr Hne.
        rewrite (PrepareTransforms_loop_frame _ _ _ _ _ _ _ _ r Ep).
        -- unfold store, Heap. rewrite list_lookup_insert_ne; [done|]. congruence.
        -- unfold key_refs in *. rewrite omap_app. simpl.
           rewrite elem_of_app, list_elem_of_singleton. intros [?|?]; [done|]. congruence.
    + simplify_eq. repeat split.
      * unfold store, Heap. by rewrite length_insert.
      * intros [?|?]; [done|]. simpl in *. done.
      * intros r Hr Hne. unfold store, Heap.
        rewrite list_lookup_insert_ne; [done|]. congruence.
Qed.

End Properties.

(** * Further properties *)

(** ** Reconciliation of a pair of transforms *)

Section Reconciliation.

Context {C : Collaborators}.

Lemma result_or_valid result flag :
  result <> Invalid -> flag <> Invalid -> result_or result flag <> Invalid.
Proof. destruct result, flag; cbv; congruence. Qed.

Lemma drop_lookup_cons {A} (l : list A) i x :
  l !! i = Some x -> drop i l = x :: drop (S i) l.
Proof.
  revert i; induction l as [|y l IH]; intros [|i] H; simplify_eq/=; auto.
Qed.

Lemma lookup_of_take {A} (l l' : list A) i :
  take (S i) l = take (S i) l' -> l !! i = l' !! i.
Proof.
  intros H. rewrite <- (lookup_take_lt l (S i) i) by lia.
  rewrite H. apply lookup_take_lt. lia.
Qed.

Lemma take_of_take {A} (l l' : list A) i :
  take (S i) l = take (S i) l' -> take i l = take i l'.
Proof.
  intros H. apply (f_equal (take i)) in H.
  rewrite !take_take in H. replace (i `min` S i)%nat with i in H by lia. done.
Qed.

(** The loop of the equal-size case: what it leaves, from position [i]. *)
Lemma same_size_loop_inv `{!CollaboratorLaws C} n :
  forall i prims0 prims1 result same r p0 p1,
    length prims0 = length prims1 ->
    n = (length prims0 - i)%nat ->
    result <> Invalid ->
    same_size_loop n i prims0 prims1 result = (same, r, p0, p1) ->
    length p0 = length prims0 /\ length p1 = length prims1 /\
    r <> Invalid /\
    take i p0 = take i prims0 /\ take i p1 = take i prims1 /\
    (same = true -> map prim_index (drop i p0) = map prim_index (drop i p1)) /\
    (same = true -> r = Unchanged -> result = Unchanged /\ p0 = prims0 /\ p1 = prims1) /\
    (same = false ->
     map prim_index (drop i prims0) <> map prim_index (drop i prims1)).
Proof.
  induction n as [|n IH]; intros i prims0 prims1 result same r p0 p1 Hlen Hn Hres Hrun.
  - simpl in Hrun. simplify_eq.
    rewrite !drop_ge by lia. repeat split; auto; done.
  - destruct (lookup_lt_is_Some_2 prims0 i) as [x0 Hx0]; [lia|].
    destruct (lookup_lt_is_Some_2 prims1 i) as [x1 Hx1]; [lia|].
    simpl in Hrun. rewrite Hx0, Hx1 in Hrun.
    rewrite (drop_lookup_cons prims0 i x0), (drop_lookup_cons prims1 i x1) by done.
    destruct (decide (prim_index x0 <> prim_index x1)) as [Hne|Heq].
    + destruct (TryConvertToMatchingGenericType x0 x1) as [[y0 y1]|] eqn:Hconv.
      * pose proof (TryConvert_index _ _ _ _ Hconv) as Hy.
        apply IH in Hrun; cycle 1.
        { by rewrite !length_insert. }
        { rewrite length_insert. lia. }
        { repeat case_decide; repeat apply result_or_valid; done. }
        rewrite !length_insert in Hrun.
        destruct Hrun as (Hl0 & Hl1 & Hr & Ht0 & Ht1 & Hk & Hu & Hf).
        assert (p0 !! i = Some y0) as Hp0.
        { rewrite (lookup_of_take _ _ _ Ht0). apply list_lookup_insert_eq. lia. }
        assert (p1 !! i = Some y1) as Hp1.
        { rewrite (lookup_of_take _ _ _ Ht1). apply list_lookup_insert_eq. lia. }
        split; [done|]. split; [done|]. split; [done|].
        split. { rewrite (take_of_take _ _ _ Ht0). apply take_insert_ge. lia. }
        split. { rewrite (take_of_take _ _ _ Ht1). apply take_insert_ge. lia. }
        split.
        { intros Hs. rewrite (drop_lookup_cons p0 i y0), (drop_lookup_cons p1 i y1) by done.
          simpl. rewrite Hy. f_equal. by apply Hk. }
        split.
        { intros Hs Hru. destruct (Hu Hs Hru) as (Hflag & _). exfalso.
          repeat case_decide; destruct result; cbv in Hflag; try congruence. }
        { intros Hs. simpl. intros Hm. apply Hf; [done|].
          rewrite !drop_insert_lt by lia. congruence. }
      * simplify_eq. repeat split; auto; try done.
        simpl. congruence.
    + apply IH in Hrun; [|done|lia|done].
      destruct Hrun as (Hl0 & Hl1 & Hr & Ht0 & Ht1 & Hk & Hu & Hf).
      assert (p0 !! i = Some x0) as Hp0 by (by rewrite (lookup_of_take _ _ _ Ht0)).
      assert (p1 !! i = Some x1) as Hp1 by (by rewrite (lookup_of_take _ _ _ Ht1)).
      split; [done|]. split; [done|]. split; [done|].
      split; [by apply take_of_take|]. split; [by apply take_of_take|].
      split.
      { intros Hs. rewrite (drop_lookup_cons p0 i x0), (drop_lookup_cons p1 i x1) by done.
        simpl. f_equal; [|by apply Hk].
        destruct (decide (prim_index x0 = prim_index x1)); [done|]. by destruct Heq. }
      split; [done|].
      intros Hs. simpl. intros Hm. apply Hf; [done|]. congruence.
Qed.

(** The matching loops are sound: a successful scan has found an
    order-preserving matching. *)
Lemma embeds_at s rest : forall k l b,
  l !! k = Some b -> matches s b -> embeds rest (drop (S k) l) -> embeds (s :: rest) l.
Proof.
  induction k as [|k IH]; intros [|x l] b Hl Hm He; simplify_eq/=.
  - apply embeds_here; [done|]. by rewrite drop_0 in He.
  - apply embeds_later. by eapply IH.
Qed.

Lemma inner_match_loop_sound n : forall i_small s st,
  ms_small st !! i_small = Some s ->
  ms_match_success st = false ->
  let st' := inner_match_loop n i_small (prim_index s) st in
  ms_match_success st' = true ->
  exists j b,
    (ms_i_big st <= j)%nat /\ ms_big st !! j = Some b /\ matches s b /\
    ms_i_big st' = (j + 1)%nat /\
    drop (j + 1) (ms_big st') = drop (j + 1) (ms_big st) /\
    drop (S i_small) (ms_small st') = drop (S i_small) (ms_small st) /\
    length (ms_small st') = length (ms_small st) /\
    length (ms_big st') = length (ms_big st).
Proof.
  induction n as [|n IH]; intros i_small s st Hs Hf; simpl.
  - congruence.
  - rewrite Hs.
    destruct (ms_big st !! ms_i_big st) as [b|] eqn:Hb; [|congruence].
    destruct (decide (prim_index s = prim_index b)) as [Heq|Hne].
    + simpl. intros _. exists (ms_i_big st), b.
      split; [lia|]. split; [done|]. split; [by left|]. done.
    + destruct (TryConvertToMatchingGenericType s b) as [[s' b']|] eqn:Hconv.
      * simpl. intros _. exists (ms_i_big st), b.
        split; [lia|]. split; [done|]. split; [right; by rewrite Hconv|].
        split; [done|].
        rewrite drop_insert_lt by lia. rewrite drop_insert_lt by lia.
        by rewrite !length_insert.
      * intros Hok. apply IH in Hok; [|done|done]. simpl in Hok.
        destruct Hok as (j & b0 & Hj & Hb0 & Hm & Hrest).
        exists j, b0. split; [lia|]. done.
Qed.

Lemma outer_match_loop_sound n : forall i_small st,
  n = (length (ms_small st) - i_small)%nat ->
  n = 0%nat \/ ms_match_success (outer_match_loop n i_small st) = true ->
  embeds (drop i_small (ms_small st)) (drop (ms_i_big st) (ms_big st)).
Proof.
  induction n as [|n IH]; intros i_small st Hn Hok.
  - rewrite drop_ge by lia. constructor.
  - destruct Hok as [|Hok]; [lia|].
    destruct (lookup_lt_is_Some_2 (ms_small st) i_small) as [s Hs]; [lia|].
    simpl in Hok. rewrite Hs in Hok.
    pose proof (inner_match_loop_sound (length (ms_big (unmatched st)) - ms_i_big (unmatched st))
                  i_small s (unmatched st) Hs eq_refl) as Hin.
    simpl in Hin.
    destruct (ms_match_success (inner_match_loop _ _ _ _)) eqn:Hsucc; [|congruence].
    destruct (Hin eq_refl) as (j & b & Hj & Hb & Hm & Hi & Hdb & Hds & Hls & Hlb).
    simpl in *.
    match type of Hok with
    | context [outer_match_loop n (S i_small) ?st1] =>
        assert (embeds (drop (S i_small) (ms_small st1)) (drop (ms_i_big st1) (ms_big st1)))
          as Hemb by (apply IH; [lia | by right])
    end.
    rewrite Hi, Hdb, Hds in Hemb.
    rewrite (drop_lookup_cons _ _ _ Hs).
    apply (embeds_at s _ (j - ms_i_big st) _ b).
    + rewrite lookup_drop. by replace (ms_i_big st + (j - ms_i_big st))%nat with j by lia.
    + done.
    + rewrite drop_drop. by replace (ms_i_big st + S (j - ms_i_big st))%nat with (j + 1)%nat by lia.
Qed.

Lemma match_small_into_big_sound small big :
  ms_match_success (match_small_into_big small big) = true -> embeds small big.
Proof.
  intros Hok.
  apply (outer_match_loop_sound (length small) 0
           {| ms_small := small; ms_big := big; ms_i_big := 0;
              ms_match_success := true; ms_changed_big := false;
              ms_matching_indices := [] |}); simpl; [lia|by right].
Qed.

(** The matching loops change kinds only, never sizes. *)
Lemma inner_match_loop_length n : forall i_small k st,
  length (ms_small (inner_match_loop n i_small k st)) = length (ms_small st) /\
  length (ms_big (inner_match_loop n i_small k st)) = length (ms_big st).
Proof.
  induction n as [|n IH]; intros i_small k st; simpl; [done|].
  repeat case_match; simpl; rewrite ?length_insert; try done.
  match goal with |- context [inner_match_loop n i_small k ?st1] =>
    apply (IH i_small k st1) end.
Qed.

Lemma outer_match_loop_length n : forall i_small st,
  length (ms_small (outer_match_loop n i_small st)) = length (ms_small st) /\
  length (ms_big (outer_match_loop n i_small st)) = length (ms_big st).
Proof.
  induction n as [|n IH]; intros i_small st; simpl; [done|].
  destruct (ms_small st !! i_small) as [s|]; [|done].
  match goal with |- context [ms_match_success ?st1] =>
    assert (length (ms_small st1) = length (ms_small st) /\
            length (ms_big st1) = length (ms_big st)) as [H1 H2]
      by apply (inner_match_loop_length _ _ _ (unmatched st));
    destruct (ms_match_success st1); [|done];
    destruct (IH (S i_small) st1) as [H3 H4]
  end.
  split; congruence.
Qed.

(** The fall-back: what [decompose_pair] returns. *)
Lemma decompose_pair_inv p0 p1 element r t0 t1 :
  decompose_pair p0 p1 element = (r, t0, t1) ->
  (r = Invalid /\ t1 = p1 /\
   (Decompose (combine p0 element) = None \/ Decompose (combine p1 element) = None)) \/
  (r = ChangedT0andT1 /\
   exists d0 d1, Decompose (combine p0 element) = Some d0 /\
                 Decompose (combine p1 element) = Some d1 /\
                 t0 = [d0] /\ t1 = [d1]).
Proof.
  unfold decompose_pair, CombineAndDecompose.
  destruct (Decompose (combine p0 element)) as [d0|];
    [destruct (Decompose (combine p1 element)) as [d1|]|]; intros; simplify_eq.
  - right. split; [done|]. by exists d0, d1.
  - left. auto.
  - left. auto.
Qed.


(** [PrepareTransformPair] either reconciles in place (no decomposition), or
    falls back to [decompose_pair]. *)
Lemma PrepareTransformPair_inv `{!CollaboratorLaws C} t0 t1 element r t0' t1' :
  PrepareTransformPair t0 t1 element = (r, t0', t1') ->
  (r <> Invalid /\
   map prim_index t0' = map prim_index t1' /\
   length t0' = (length t0 `max` length t1)%nat /\
   (r = Unchanged -> t0' = t0 /\ t1' = t1) /\
   (length t0 = length t1 \/ r <> Unchanged /\ embeds (small_of t0 t1) (big_of t0 t1)))
  \/
  (map prim_index t0 <> map prim_index t1 /\
   (length t0 <> length t1 -> ~ embeds (small_of t0 t1) (big_of t0 t1)) /\
   exists p0 p1,
     length p0 = length t0 /\ length p1 = length t1 /\
     decompose_pair p0 p1 element = (r, t0', t1')).
Proof.
  unfold PrepareTransformPair, small_of, big_of.
  destruct (decide (length t0 = length t1)) as [Hlen|Hlen].
  - destruct (same_size_loop (length t0) 0 t0 t1 Unchanged) as [[[same r0] p0] p1] eqn:Hloop.
    apply same_size_loop_inv in Hloop; [|done|lia|done].
    destruct Hloop as (Hl0 & Hl1 & Hr & _ & _ & Hk & Hu & Hf).
    rewrite !drop_0 in *.
    destruct same; intros Hrun.
    + simplify_eq. left. split; [done|]. split; [by apply Hk|].
      split; [lia|]. split; [|by left].
      intros ->. by destruct (Hu eq_refl eq_refl) as (_ & -> & ->).
    + right. split; [by apply Hf|]. split; [done|]. by exists p0, p1.
  - set (smallest := bool_decide (length t0 < length t1)%nat).
    set (small := if smallest then t0 else t1).
    set (big := if smallest then t1 else t0).
    assert (length small <> length big /\ length big = (length t0 `max` length t1)%nat
            /\ (length small < length big)%nat) as (Hsb & Hbig & Hlt).
    { subst small big smallest. case_bool_decide; lia. }
    destruct (ms_match_success (match_small_into_big small big)) eqn:Hok.
    + pose proof (match_small_into_big_sound _ _ Hok) as Hemb.
      destruct (grow_small_spec small big Hemb) as (_ & Hlb & Hlg & Hk & _).
      intros Hrun. left.
      assert (r <> Invalid /\ r <> Unchanged) as [Hr1 Hr2].
      { destruct (ms_changed_big _), smallest; simplify_eq; done. }
      assert (t0' = (if smallest then grow_small (match_small_into_big small big)
                     else ms_big (match_small_into_big small big)) /\
              t1' = (if smallest then ms_big (match_small_into_big small big)
                     else grow_small (match_small_into_big small big))) as [-> ->].
      { destruct (ms_changed_big _), smallest; by simplify_eq. }
      split; [done|]. split; [by destruct smallest|].
      split; [destruct smallest; lia|]. split; [done|]. right. done.
    + intros Hrun. right.
      split. { intros Hm. apply (f_equal length) in Hm. rewrite !length_map in Hm. done. }
      split.
      { intros _ Hemb. destruct (grow_small_spec small big Hemb) as (Hok' & _). congruence. }
      destruct (outer_match_loop_length (length small) 0
                  {| ms_small := small; ms_big := big; ms_i_big := 0;
                     ms_match_success := true; ms_changed_big := false;
                     ms_matching_indices := [] |}) as [Hls Hlb].
      fold (match_small_into_big small big) in Hls, Hlb. simpl in Hls, Hlb.
      eexists _, _. split; [|split; [|exact Hrun]].
      * subst small big. destruct smallest; congruence.
      * subst small big. destruct smallest; congruence.
Qed.

(** Transforms with equal kinds are left alone. *)
Lemma same_size_loop_same_kinds n : forall i prims0 prims1 result,
  map prim_index prims0 = map prim_index prims1 ->
  same_size_loop n i prims0 prims1 result = (true, result, prims0, prims1).
Proof.
  induction n as [|n IH]; intros i prims0 prims1 result Hk; simpl; [done|].
  destruct (prims0 !! i) as [x0|] eqn:H0; [|done].
  destruct (prims1 !! i) as [x1|] eqn:H1; [|done].
  assert (prim_index x0 = prim_index x1) as Heq.
  { apply (f_equal (fun l => l !! i)) in Hk. rewrite !list_lookup_fmap, H0, H1 in Hk.
    by simplify_eq/=. }
  destruct (decide (prim_index x0 <> prim_index x1)); [done|]. by apply IH.
Qed.

Lemma PrepareTransformPair_same_kinds t0 t1 element :
  map prim_index t0 = map prim_index t1 ->
  PrepareTransformPair t0 t1 element = (Unchanged, t0, t1).
Proof.
  intros Hk. unfold PrepareTransformPair.
  assert (length t0 = length t1) as Hlen.
  { apply (f_equal length) in Hk. by rewrite !length_map in Hk. }
  destruct (decide (length t0 = length t1)); [|done].
  by rewrite same_size_loop_same_kinds.
Qed.

(** Kinds after a call that did not fail, all decomposed primitives being
    of one kind. *)
Lemma PrepareTransformPair_kinds `{!CollaboratorLaws C} t0 t1 element r t0' t1' :
  (forall m m' d d',
      Decompose m = Some d -> Decompose m' = Some d' -> prim_index d = prim_index d') ->
  PrepareTransformPair t0 t1 element = (r, t0', t1') ->
  r <> Invalid ->
  map prim_index t0' = map prim_index t1'.
Proof.
  intros Hdec Hrun Hr.
  destruct (PrepareTransformPair_inv _ _ _ _ _ _ Hrun)
    as [(_ & Hk & _)|(_ & _ & p0 & p1 & _ & _ & Hd)]; [done|].
  apply decompose_pair_inv in Hd.
  destruct Hd as [(? & _)|(_ & d0 & d1 & H0 & H1 & -> & ->)]; [done|].
  simpl. f_equal. eauto.
Qed.

(** ** The result flags *)


Lemma map_insert_same_index (l : list Primitive) i x y :
  l !! i = Some x -> prim_index y = prim_index x ->
  map prim_index (<[i := y]> l) = map prim_index l.
Proof.
  intros Hl Hy. rewrite list_fmap_insert, Hy.
  apply list_insert_id. by rewrite list_lookup_fmap, Hl.
Qed.

Lemma same_size_loop_flags n : forall i prims0 prims1 result same r p0 p1,
  result <> Invalid ->
  same_size_loop n i prims0 prims1 result = (same, r, p0, p1) ->
  (changed_t0 r = false ->
   changed_t0 result = false /\ map prim_index p0 = map prim_index prims0) /\
  (changed_t1 r = false ->
   changed_t1 result = false /\ map prim_index p1 = map prim_index prims1).
Proof.
  induction n as [|n IH]; intros i prims0 prims1 result same r p0 p1 Hres Hrun.
  - simpl in Hrun. by simplify_eq.
  - simpl in Hrun.
    destruct (prims0 !! i) as [x0|] eqn:Hx0; [|by simplify_eq].
    destruct (prims1 !! i) as [x1|] eqn:Hx1; [|by simplify_eq].
    destruct (decide (prim_index x0 <> prim_index x1)) as [Hne|Heq];
      [|by apply IH in Hrun].
    destruct (TryConvertToMatchingGenericType x0 x1) as [[y0 y1]|]; [|by simplify_eq].
    apply IH in Hrun; cycle 1.
    { repeat case_decide; repeat apply result_or_valid; done. }
    destruct Hrun as [H0 H1]. split.
    + intros Hr. destruct (H0 Hr) as [Hflag Hk]. rewrite Hk.
      destruct (decide (prim_index y0 <> prim_index x0)) as [Hd0|Hd0].
      { exfalso. repeat case_decide; destruct result; cbv in Hflag; congruence. }
      split; [|apply (map_insert_same_index _ _ x0); [done|]].
      * repeat case_decide; destruct result; cbv in Hflag; cbv; congruence.
      * by destruct (decide (prim_index y0 = prim_index x0)).
    + intros Hr. destruct (H1 Hr) as [Hflag Hk]. rewrite Hk.
      destruct (decide (prim_index y1 <> prim_index x1)) as [Hd1|Hd1].
      { exfalso. repeat case_decide; destruct result; cbv in Hflag; congruence. }
      split; [|apply (map_insert_same_index _ _ x1); [done|]].
      * repeat case_decide; destruct result; cbv in Hflag; cbv; congruence.
      * by destruct (decide (prim_index y1 = prim_index x1)).
Qed.

Lemma inner_match_loop_big n : forall i_small k st,
  ms_changed_big (inner_match_loop n i_small k st) = false ->
  ms_changed_big st = false /\
  map prim_index (ms_big (inner_match_loop n i_small k st)) = map prim_index (ms_big st).
Proof.
  induction n as [|n IH]; intros i_small k st; simpl; [done|].
  destruct (ms_small st !! i_small) as [s|]; [|done].
  destruct (ms_big st !! ms_i_big st) as [b|] eqn:Hb; [|done].
  destruct (decide (k = prim_index b)); [done|].
  destruct (TryConvertToMatchingGenericType s b) as [[s' b']|].
  - simpl. destruct (decide (prim_index b' <> prim_index b)) as [Hd|Hd]; [done|].
    intros ->. split; [done|]. apply (map_insert_same_index _ _ b); [done|].
    by destruct (decide (prim_index b' = prim_index b)).
  - intros H. by apply IH in H.
Qed.

Lemma outer_match_loop_big n : forall i_small st,
  ms_changed_big (outer_match_loop n i_small st) = false ->
  ms_changed_big st = false /\
  map prim_index (ms_big (outer_match_loop n i_small st)) = map prim_index (ms_big st).
Proof.
  induction n as [|n IH]; intros i_small st; simpl; [done|].
  destruct (ms_small st !! i_small) as [s|]; [|done].
  match goal with |- context [ms_match_success ?st1] =>
    pose proof (inner_match_loop_big (length (ms_big (unmatched st)) - ms_i_big (unmatched st))
                  i_small (prim_index s) (unmatched st)) as Hin;
    change (ms_changed_big st1 = false ->
            ms_changed_big st = false /\
            map prim_index (ms_big st1) = map prim_index (ms_big st)) in Hin;
    destruct (ms_match_success st1); [|done];
    intros H; apply IH in H as [H1 H2]; destruct (Hin H1) as [H3 H4]
  end.
  split; congruence.
Qed.

(** A transform that the result does not report as changed keeps the kinds
    of its primitives. *)
Lemma PrepareTransformPair_flags t0 t1 element r t0' t1' :
  PrepareTransformPair t0 t1 element = (r, t0', t1') ->
  r <> Invalid ->
  (changed_t0 r = false -> map prim_index t0' = map prim_index t0) /\
  (changed_t1 r = false -> map prim_index t1' = map prim_index t1).
Proof.
  unfold PrepareTransformPair. intros Hrun Hr.
  assert (forall p0 p1, decompose_pair p0 p1 element = (r, t0', t1') ->
            changed_t0 r = true /\ changed_t1 r = true) as Hfall.
  { intros p0 p1 Hd. apply decompose_pair_inv in Hd as [(? & _)|(-> & _)]; done. }
  destruct (decide (length t0 = length t1)) as [Hlen|Hlen].
  - destruct (same_size_loop (length t0) 0 t0 t1 Unchanged) as [[[same r0] p0] p1] eqn:Hloop.
    apply same_size_loop_flags in Hloop; [|done].
    destruct same.
    + simplify_eq. destruct Hloop as [H0 H1]. split; intros Hc; [by apply H0|by apply H1].
    + apply Hfall in Hrun as [-> ->]. done.
  - set (smallest := bool_decide (length t0 < length t1)%nat) in *.
    set (small := if smallest then t0 else t1) in *.
    set (big := if smallest then t1 else t0) in *.
    destruct (ms_match_success (match_small_into_big small big)).
    + pose proof (outer_match_loop_big (length small) 0
                    {| ms_small := small; ms_big := big; ms_i_big := 0;
                       ms_match_success := true; ms_changed_big := false;
                       ms_matching_indices := [] |}) as Hbig.
      fold (match_small_into_big small big) in Hbig. simpl in Hbig.
      destruct (ms_changed_big (match_small_into_big small big)); [by simplify_eq|].
      destruct (Hbig eq_refl) as [_ Hk].
      subst big. destruct smallest; simplify_eq; done.
    + apply Hfall in Hrun as [-> ->]. done.
Qed.

End Reconciliation.

Section ReconciliationTheorems.

Context {C : Collaborators}.

(** X1: the matching loops of the unequal-size case succeed exactly when
    every primitive of the shorter vector matches (same kind, or convertible
    to a common generic kind) a primitive of the longer one in strictly
    increasing positions: the greedy scan misses no matching and reports
    none that does not exist. *)
Theorem matching_succeeds_iff_embeds `{!CollaboratorLaws C} (small big : list Primitive) :
  ms_match_success (match_small_into_big small big) = true <-> embeds small big.
Proof.
  split.
  - apply match_small_into_big_sound.
  - intros Hemb. by destruct (grow_small_spec small big Hemb) as (Hok & _).
Qed.

(** X2: [PrepareTransformPair] returns [Unchanged] exactly when the two
    transforms already have the same primitive kinds at the same positions,
    and it then leaves both transforms as they were. *)
Theorem Unchanged_iff_same_kinds `{!CollaboratorLaws C}
    (t0 t1 : Transform) (element : Element) :
  ((PrepareTransformPair t0 t1 element).1.1 = Unchanged
   <-> map prim_index t0 = map prim_index t1) /\
  ((PrepareTransformPair t0 t1 element).1.1 = Unchanged ->
   PrepareTransformPair t0 t1 element = (Unchanged, t0, t1)).
Proof.
  assert ((PrepareTransformPair t0 t1 element).1.1 = Unchanged ->
          PrepareTransformPair t0 t1 element = (Unchanged, t0, t1)) as Hfix.
  { destruct (PrepareTransformPair t0 t1 element) as [[r t0'] t1'] eqn:Hrun.
    simpl. intros ->.
    destruct (PrepareTransformPair_inv _ _ _ _ _ _ Hrun)
      as [(_ & _ & _ & Hu & _)|(_ & _ & p0 & p1 & _ & _ & Hd)].
    - by destruct (Hu eq_refl) as [-> ->].
    - apply decompose_pair_inv in Hd. destruct Hd as [(? & _)|(? & _)]; done. }
  split; [|done]. split.
  - intros Hu. pose proof (Hfix Hu) as Hrun.
    destruct (PrepareTransformPair_inv _ _ _ _ _ _ Hrun)
      as [(_ & Hk & _)|(_ & _ & p0 & p1 & _ & _ & Hd)]; [done|].
    apply decompose_pair_inv in Hd. destruct Hd as [(? & _)|(? & _)]; done.
  - intros Hk. by rewrite PrepareTransformPair_same_kinds.
Qed.

(** X3: the postcondition of [PrepareTransformPair].  [decomposed] is a
    [Transforms::DecomposedMatrix4], one alternative of the primitive
    variant, so all decomposed primitives have one [index()].  Whenever the
    result is not [Invalid], the two transforms have the same number of
    primitives and the same kinds at every position; a second call on them
    returns [Unchanged] and changes nothing. *)
Theorem PrepareTransformPair_postcondition `{!CollaboratorLaws C}
    (t0 t1 : Transform) (element : Element) r t0' t1' :
  (forall m m' d d',
      Decompose m = Some d -> Decompose m' = Some d' -> prim_index d = prim_index d') ->
  PrepareTransformPair t0 t1 element = (r, t0', t1') ->
  r <> Invalid ->
  length t0' = length t1' /\
  map prim_index t0' = map prim_index t1' /\
  PrepareTransformPair t0' t1' element = (Unchanged, t0', t1').
Proof.
  intros Hdec Hrun Hr.
  assert (map prim_index t0' = map prim_index t1') as Hk.
  { destruct (PrepareTransformPair_inv _ _ _ _ _ _ Hrun)
      as [(_ & Hk & _)|(_ & _ & p0 & p1 & _ & _ & Hd)]; [done|].
    apply decompose_pair_inv in Hd.
    destruct Hd as [(? & _)|(_ & d0 & d1 & H0 & H1 & -> & ->)]; [done|].
    simpl. f_equal. eauto. }
  split; [|split; [done|by apply PrepareTransformPair_same_kinds]].
  apply (f_equal length) in Hk. by rewrite !length_map in Hk.
Qed.

(** X4: [PrepareTransformPair] returns [Invalid] only from the
    decomposition fall-back: a decomposition has failed, the kinds of the two
    transforms differed, for unequal sizes the shorter could not be matched
    into the longer, and [t1] still has its size.  Results that do not come
    from the fall-back ([Unchanged], [ChangedT0], [ChangedT1]) always leave
    equal kinds, with the size of the longer transform. *)
Theorem Invalid_only_by_decomposition `{!CollaboratorLaws C}
    (t0 t1 : Transform) (element : Element) r t0' t1' :
  PrepareTransformPair t0 t1 element = (r, t0', t1') ->
  (r = Invalid ->
   map prim_index t0 <> map prim_index t1 /\
   (length t0 <> length t1 -> ~ embeds (small_of t0 t1) (big_of t0 t1)) /\
   length t1' = length t1 /\
   exists p, CombineAndDecompose p element = None) /\
  (r = Unchanged \/ r = ChangedT0 \/ r = ChangedT1 ->
   map prim_index t0' = map prim_index t1' /\
   length t0' = (length t0 `max` length t1)%nat /\
   length t1' = (length t0 `max` length t1)%nat).
Proof.
  intros Hrun.
  destruct (PrepareTransformPair_inv _ _ _ _ _ _ Hrun)
    as [(Hr & Hk & Hl & _)|(Hk & Hemb & p0 & p1 & Hl0 & Hl1 & Hd)].
  - split; [done|]. intros _. split; [done|]. split; [done|].
    apply (f_equal length) in Hk. rewrite !length_map in Hk. lia.
  - apply decompose_pair_inv in Hd.
    destruct Hd as [(-> & -> & Hfail)|(-> & _)].
    + split; [|intros [|[|]]; done]. intros _.
      split; [done|]. split; [done|]. split; [done|].
      unfold CombineAndDecompose.
      destruct Hfail as [Hfail|Hfail]; [exists p0|exists p1]; by rewrite Hfail.
    + split; [done|]. intros [|[|]]; done.
Qed.

End ReconciliationTheorems.

(** ** The timeline *)

(** ** Comparisons of binary32 numbers *)

Lemma F32_gtb_irrefl (x : float32) : F32.gtb x x = false.
Proof.
  unfold F32.gtb, SFltb. pose proof (SFcompare_antisym x x) as H.
  destruct (SFcompare x x) as [[]|]; simpl in H; congruence.
Qed.

Lemma F32_gtb_geb (x y : float32) : F32.geb x y = false -> F32.gtb x y = false.
Proof.
  unfold F32.geb, F32.gtb, SFleb, SFltb. by destruct (SFcompare y x) as [[]|].
Qed.

Lemma F32_sub_diag (x : float32) : F32.is_finite x = true -> F32.sub x x = F32.zero.
Proof.
  destruct x as [s| | |s m e]; try done.
  - by destruct s.
  - intros _. unfold F32.sub, SFsub. rewrite Z.sub_diag. reflexivity.
Qed.

Section Timeline.

Context {C : Collaborators}.

(** ** Inversion of the two methods *)

Lemma TryMakeUnitValid_inv v ok v' :
  TryMakeUnitValid v = (ok, v') ->
  (ok = true -> interpolable v') /\
  (interpolable v -> ok = true /\ v' = v) /\
  (ok = false -> v' = v /\ ~ interpolable v /\ GetInto_float v = None).
Proof.
  unfold TryMakeUnitValid, interpolable.
  destruct v; simpl; try destruct (GetInto_float _); intros; simplify_eq; simpl;
    intuition congruence.
Qed.

Lemma AddKey_success a h time property element tween a' h' :
  AddKey a h time property element tween = Some (true, a', h') ->
  unit property = property_unit a /\ valid a = true /\
  (TryMakeUnitValid (value property)).1 = true /\
  a' = set_keys a (keys a ++ [ {| key_time := time;
                                  key_value := (TryMakeUnitValid (value property)).2;
                                  key_tween := tween |} ]).
Proof.
  unfold AddKey. intros H.
  destruct (bool_decide (unit property ≠ property_unit a) || negb (valid a)) eqn:Hg;
    [by simplify_eq|].
  apply orb_false_iff in Hg as [Hu Hv].
  apply bool_decide_eq_false in Hu. apply negb_false_iff in Hv.
  split; [by destruct (decide (unit property = property_unit a))|]. split; [done|].
  destruct (TryMakeUnitValid (value property)) as [result v]. simpl.
  destruct (result && bool_decide (unit property = TRANSFORM)) eqn:Ht.
  - apply andb_true_iff in Ht as [-> _].
    destruct (Get_TransformRef (value property)) as [r|]; [|done].
    destruct (resolve_all_units (deref h r) element) as [result' t].
    destruct result'; [|by simplify_eq].
    destruct (PrepareTransforms _ _ _ _) as [p|]; [|done].
    destruct (pr_result p); by simplify_eq.
  - destruct result; by simplify_eq.
Qed.

Lemma AddKey_settings a h time property element tween ok a' h' :
  AddKey a h time property element tween = Some (ok, a', h') -> same_settings a a'.
Proof.
  intros H. apply AddKey_inv in H as [[_ ->]|[_ [v ->]]]; by repeat split.
Qed.

Lemma advance_settings a w : same_settings a (advance a w).
Proof. unfold advance. repeat case_match; by repeat split. Qed.

Lemma UpdateAndGetProperty_inv a h w u :
  UpdateAndGetProperty a h w = Some u ->
  (animation_complete a || negb (valid a)
   || F32.leb (F32.sub w (last_update_world_time a)) F32.zero = true /\
   u = {| up_property := Property_empty; up_animation := a; up_heap := h; up_log := [] |})
  \/
  (animation_complete a = false /\ valid a = true /\
   F32.leb (F32.sub w (last_update_world_time a)) F32.zero = false /\
   exists k0 k1 alpha,
     k0 ∈ keys a /\ k1 ∈ keys a /\
     u = {| up_property :=
              {| value := (InterpolateValues h (key_value k0) (key_value k1) alpha).1.1;
                 unit := property_unit a;
                 specificity := property_specificity a |};
            up_animation := advance a w;
            up_heap := (InterpolateValues h (key_value k0) (key_value k1) alpha).1.2;
            up_log := (InterpolateValues h (key_value k0) (key_value k1) alpha).2 |}).
Proof.
  unfold UpdateAndGetProperty. intros H.
  destruct (animation_complete a || negb (valid a)
            || F32.leb (F32.sub w (last_update_world_time a)) F32.zero) eqn:Hg.
  - left. by simplify_eq.
  - right. apply orb_false_iff in Hg as [Hg ?]. apply orb_false_iff in Hg as [? Hv].
    apply negb_false_iff in Hv. do 3 (split; [done|]).
    destruct (select_keys _ _) as [key0 key1].
    destruct (bool_decide _); [|done].
    destruct (keys (advance a w) !! Z.to_nat key0) as [k0|] eqn:Hk0; [|done].
    destruct (keys (advance a w) !! Z.to_nat key1) as [k1|] eqn:Hk1; [|done].
    rewrite keys_advance in Hk0, Hk1.
    destruct (unit_advance a w) as [Hu Hs]. rewrite Hu, Hs in H.
    exists k0, k1. eexists.
    split; [by eapply list_elem_of_lookup_2|]. split; [by eapply list_elem_of_lookup_2|].
    destruct (InterpolateValues _ _ _ _) as [[v h'] log] eqn:Hi in H. simplify_eq.
    by rewrite Hi.
Qed.

Lemma interpolate_primitives_length p0 : forall p1 alpha prims,
  interpolate_primitives p0 p1 alpha = Some prims ->
  length prims = (length p0 `min` length p1)%nat.
Proof.
  induction p0 as [|x p0 IH]; intros [|y p1] alpha prims H; simplify_eq/=; try done.
  destruct (InterpolateWith x y alpha); [|done].
  destruct (interpolate_primitives p0 p1 alpha) eqn:Hr; [|done].
  simplify_eq/=. f_equal. by eapply IH.
Qed.

Lemma InterpolateValues_inv h v0 v1 alpha v h' log :
  InterpolateValues h v0 v1 alpha = (v, h', log) ->
  GetType v = GetType v0 /\
  (h' = h \/ exists t, h' = h ++ [t] /\ v = V_TRANSFORMREF (length h) /\ log = []) /\
  (log <> [] -> v = v0 /\ h' = h) /\
  (interpolable v0 -> forall ty, Warn_only_float_and_color ty ∉ log).
Proof.
  unfold InterpolateValues, interpolable. intros H.
  destruct (decide (GetType v0 <> GetType v1)) as [Hne|Heq].
  { simplify_eq. repeat split; auto. intros _ ty Hin.
    apply list_elem_of_singleton in Hin. done. }
  destruct v0, v1; simpl in *; try (destruct Heq; discriminate);
    repeat case_match; simplify_eq;
    (split; [done|]);
    (split; [first [by left | right; eexists; done]|]);
    (split; [done|]);
    first [ intros _ ty; apply not_elem_of_nil
          | intros _ ty Hin; apply list_elem_of_singleton in Hin; discriminate
          | intros [|[|]]; discriminate ].
Qed.

Lemma call_settings c a h r a' h' :
  call c a h = Some (r, a', h') -> same_settings a a'.
Proof.
  destruct c as [time property element tween|w]; simpl; intros H.
  - destruct (AddKey _ _ _ _ _ _) as [[[ok a1] h1]|] eqn:E; [|done].
    simplify_eq. by eapply AddKey_settings.
  - destruct (UpdateAndGetProperty _ _ _) as [u|] eqn:E; [|done].
    simplify_eq.
    apply UpdateAndGetProperty_inv in E as [[_ ->]|(_ & _ & _ & k0 & k1 & al & _ & _ & ->)].
    + by repeat split.
    + apply advance_settings.
Qed.

(** ** Key values *)

(** X5: the keys of a valid timeline hold interpolable values only: a
    float, a colour or a transform.  The constructor and [AddKey] keep a
    value of another kind only after converting it to float, and
    [UpdateAndGetProperty] does not write keys.  Hence the warning of the
    default case of [InterpolateValues] is never logged by
    [UpdateAndGetProperty], whatever calls came before. *)
Theorem valid_keys_interpolable (a : ElementAnimation) (h : Heap) :
  reachable a h ->
  (valid a = true -> Forall (fun k => interpolable (key_value k)) (keys a)) /\
  (forall world_time u ty,
      UpdateAndGetProperty a h world_time = Some u ->
      Warn_only_float_and_color ty ∉ up_log u).
Proof.
  intros Hr.
  assert (valid a = true -> Forall (fun k => interpolable (key_value k)) (keys a)) as Hkeys.
  { induction Hr as [name cv st d n alt h|c a h r a' h' _ IH Hcall].
    - unfold ElementAnimation_new.
      destruct (TryMakeUnitValid (value cv)) as [ok v] eqn:Hv. simpl. intros ->.
      apply TryMakeUnitValid_inv in Hv as (Hv & _). apply Forall_singleton. by apply Hv.
    - destruct c as [time property element tween|w]; simpl in Hcall.
      + destruct (AddKey _ _ _ _ _ _) as [[[ok a1] h1]|] eqn:E; [|done].
        simplify_eq. destruct ok.
        * apply AddKey_success in E as (_ & Hva & Hok & ->). simpl. intros _.
          apply Forall_app. split; [by apply IH|].
          apply Forall_singleton. simpl.
          destruct (TryMakeUnitValid (value property)) as [ok v] eqn:Hv.
          apply TryMakeUnitValid_inv in Hv as (Hv & _). by apply Hv.
        * apply AddKey_inv in E as [[_ ->]|[? _]]; done.
      + destruct (UpdateAndGetProperty _ _ _) as [u|] eqn:E; [|done].
        simplify_eq.
        rewrite (UpdateAndGetProperty_keys _ _ _ _ E).
        apply UpdateAndGetProperty_inv in E
          as [[_ ->]|(_ & Hva & _ & k0 & k1 & al & _ & _ & ->)]; [done|].
        intros _. by apply IH. }
  split; [done|].
  intros w u ty E.
  apply UpdateAndGetProperty_inv in E
    as [[_ ->]|(_ & Hva & _ & k0 & k1 & al & Hk0 & _ & ->)]; simpl.
  - apply not_elem_of_nil.
  - destruct (InterpolateValues h (key_value k0) (key_value k1) al) as [[v h'] log] eqn:Hi.
    apply InterpolateValues_inv in Hi as (_ & _ & _ & Hw). simpl. apply Hw.
    pose proof (Hkeys Hva) as Hall. rewrite Forall_forall in Hall. by apply Hall.
Qed.

(** X6: a timeline whose initial value could not be made interpolable is
    inert.  The constructor clears [valid] exactly when the value is of no
    interpolable kind and does not convert to float; from then on every
    [AddKey] returns false and every [UpdateAndGetProperty] returns the empty
    property, and no sequence of calls changes the timeline or the store. *)
Theorem invalid_is_inert :
  (forall name current_value start_world_time duration num_iterations alternate,
      valid (ElementAnimation_new name current_value start_world_time duration
               num_iterations alternate) = false
      <-> ~ interpolable (value current_value)
          /\ GetInto_float (value current_value) = None) /\
  (forall a h cs,
      valid a = false -> calls cs a h = Some (map inert_return cs, a, h)).
Proof.
  split.
  - intros name cv st d n alt. unfold ElementAnimation_new.
    destruct (TryMakeUnitValid (value cv)) as [ok v] eqn:Hv. simpl.
    pose proof Hv as Hv0.
    apply TryMakeUnitValid_inv in Hv as (H1 & H2 & H3).
    split.
    + intros ->. by destruct (H3 eq_refl) as (_ & ? & ?).
    + intros [Hn Hg]. destruct ok; [|done]. exfalso.
      unfold TryMakeUnitValid in Hv0. rewrite Hg in Hv0.
      unfold interpolable in Hn.
      destruct (value cv); simpl in *; simplify_eq; apply Hn; auto.
  - intros a h cs Hv. induction cs as [|c cs IH]; simpl; [done|].
    assert (call c a h = Some (inert_return c, a, h)) as ->.
    { destruct c as [time property element tween|w]; simpl.
      - unfold AddKey. by rewrite Hv, orb_true_r.
      - unfold UpdateAndGetProperty. by rewrite Hv, orb_true_r. }
    by rewrite IH.
Qed.

(** ** The clock *)

(** X7: a query that does not move the clock forward is a no-op.  After
    any call of [UpdateAndGetProperty] at a finite world time, a second call
    at the same world time returns the empty property and leaves the
    timeline and the store as the first call left them: the time difference
    is then [0], and the entry test is [<= 0.0f]. *)
Theorem same_time_query_is_noop (a : ElementAnimation) (h : Heap)
    (world_time : float32) (u : Updated) :
  F32.is_finite world_time = true ->
  UpdateAndGetProperty a h world_time = Some u ->
  UpdateAndGetProperty (up_animation u) (up_heap u) world_time
  = Some {| up_property := Property_empty; up_animation := up_animation u;
            up_heap := up_heap u; up_log := [] |}.
Proof.
  intros Hfin E.
  pose proof E as E'.
  apply UpdateAndGetProperty_inv in E'
    as [[Hg ->]|(_ & _ & _ & k0 & k1 & al & _ & _ & ->)]; simpl.
  - unfold UpdateAndGetProperty. by rewrite Hg.
  - unfold UpdateAndGetProperty.
    assert (last_update_world_time (advance a world_time) = world_time) as ->.
    { unfold advance. by repeat case_match. }
    rewrite F32_sub_diag by done.
    by rewrite orb_true_r.
Qed.

(** X8: the iteration counter and the direction flag of every timeline
    that the constructor and the two methods can produce.  While the timeline
    is not complete, the counter is below [num_iterations] (or 0, or the
    count is -1) and the direction is reversed exactly when
    [alternate_direction] is set and the counter is odd.  Once complete, the
    count was not -1, the counter is exactly [max(1, num_iterations)], and
    the direction is that of the last iteration played. *)
Theorem playback_invariant (a : ElementAnimation) (h : Heap) :
  reachable a h -> playback_inv a.
Proof.
  induction 1 as [name cv st d n alt h|c a h r a' h' _ IH Hcall].
  - unfold ElementAnimation_new, playback_inv.
    destruct (TryMakeUnitValid (value cv)) as [ok v]. simpl.
    split; [lia|]. split; [auto|]. by rewrite andb_false_r.
  - destruct c as [time property element tween|w]; simpl in Hcall.
    + destruct (AddKey _ _ _ _ _ _) as [[[ok a1] h1]|] eqn:E; [|done].
      simplify_eq. apply AddKey_inv in E as [[_ ->]|[_ [v ->]]]; done.
    + destruct (UpdateAndGetProperty _ _ _) as [u|] eqn:E; [|done].
      simplify_eq.
      apply UpdateAndGetProperty_inv in E
        as [[_ ->]|(Hc & _ & _ & k0 & k1 & al & _ & _ & ->)]; [done|].
      simpl. clear -IH Hc. unfold playback_inv in *. rewrite Hc in IH.
      destruct IH as (Hnn & Hit & Hrev). unfold advance.
      destruct (F32.geb _ _); [|simpl; by rewrite Hc].
      destruct (bool_decide (current_iteration a + 1 < num_iterations a)
                || bool_decide (num_iterations a = -1)) eqn:Hnext; simpl.
      * rewrite Hc. split; [lia|]. split.
        { apply orb_true_iff in Hnext as [Hn|Hn].
          - apply bool_decide_eq_true in Hn. auto.
          - apply bool_decide_eq_true in Hn. auto. }
        rewrite Hrev. replace (current_iteration a + 1) with (Z.succ (current_iteration a)) by lia.
        rewrite Z.odd_succ, <- Z.negb_odd.
        destruct (alternate_direction a), (Z.odd (current_iteration a)); done.
      * apply orb_false_iff in Hnext as [Hn1 Hn2].
        apply bool_decide_eq_false in Hn1. apply bool_decide_eq_false in Hn2.
        split; [lia|]. split; [done|]. split; [lia|].
        rewrite Hrev. by replace (current_iteration a + 1 - 1) with (current_iteration a) by lia.
Qed.

(** X9: with a duration that is not negative, the elapsed time of the
    current iteration never exceeds the duration: it starts at 0, and each
    call of [UpdateAndGetProperty] that carries it to the duration or beyond
    sets it back to 0 or to the duration. *)
Theorem elapsed_within_duration (a : ElementAnimation) (h : Heap) :
  reachable a h ->
  F32.leb F32.zero (duration a) = true ->
  F32.gtb (time_since_iteration_start a) (duration a) = false.
Proof.
  induction 1 as [name cv st d n alt h|c a h r a' h' _ IH Hcall].
  - unfold ElementAnimation_new.
    destruct (TryMakeUnitValid (value cv)) as [ok v]. simpl. apply F32_leb_gtb.
  - pose proof (call_settings _ _ _ _ _ _ Hcall) as (_ & _ & _ & Hd & _).
    rewrite Hd. intros Hpos. specialize (IH Hpos).
    destruct c as [time property element tween|w]; simpl in Hcall.
    + destruct (AddKey _ _ _ _ _ _) as [[[ok a1] h1]|] eqn:E; [|done].
      simplify_eq. by apply AddKey_complete in E as (_ & _ & -> & _).
    + destruct (UpdateAndGetProperty _ _ _) as [u|] eqn:E; [|done].
      simplify_eq.
      apply UpdateAndGetProperty_inv in E
        as [[_ ->]|(_ & _ & _ & k0 & k1 & al & _ & _ & ->)]; [done|].
      simpl. unfold advance.
      destruct (F32.geb _ (duration a)) eqn:Hge.
      * destruct (_ || _); simpl; [by apply F32_leb_gtb|apply F32_gtb_irrefl].
      * simpl. by apply F32_gtb_geb.
Qed.

(** ** What the methods leave alone *)

(** X10: [UpdateAndGetProperty] writes the playback members only.  The
    keys and the members set by the constructor are as before; every
    transform of the store is as before, and at most one transform is added,
    in which case it is the returned value and nothing was logged; a
    returned property that is not the empty one carries the unit and the
    specificity of the timeline and a value of the kind of a key's value. *)
Theorem UpdateAndGetProperty_frame (a : ElementAnimation) (h : Heap)
    (world_time : float32) (u : Updated) :
  UpdateAndGetProperty a h world_time = Some u ->
  keys (up_animation u) = keys a /\
  same_settings a (up_animation u) /\
  (up_heap u = h \/
   exists t, up_heap u = h ++ [t] /\
             value (up_property u) = V_TRANSFORMREF (length h) /\ up_log u = []) /\
  (up_property u = Property_empty /\ up_animation u = a /\ up_log u = [] \/
   unit (up_property u) = property_unit a /\
   specificity (up_property u) = property_specificity a /\
   last_update_world_time (up_animation u) = world_time /\
   exists k, k ∈ keys a /\ GetType (value (up_property u)) = GetType (key_value k)).
Proof.
  intros E. split; [by eapply UpdateAndGetProperty_keys|].
  apply UpdateAndGetProperty_inv in E
    as [[_ ->]|(_ & _ & _ & k0 & k1 & al & Hk0 & _ & ->)]; simpl.
  - split; [by repeat split|]. auto.
  - split; [apply advance_settings|].
    destruct (InterpolateValues h (key_value k0) (key_value k1) al) as [[v h'] log] eqn:Hi.
    apply InterpolateValues_inv in Hi as (Hty & Hh & _). simpl.
    split; [done|]. right. do 2 (split; [done|]).
    split; [unfold advance; by repeat case_match|]. eauto.
Qed.

(** X11: a successful [AddKey].  The unit equals the timeline's and the
    timeline is valid; exactly one key is appended, with the given time and
    tween and the value as [TryMakeUnitValid] left it, which is of an
    interpolable kind; no other member changes; the store keeps its size, is
    untouched when the property is not a transform, and otherwise changes
    only at the transforms of the keys and of the supplied value. *)
Theorem AddKey_appends (a : ElementAnimation) (h : Heap) (time : float32)
    (property : Property) (element : Element) (tween : Tween) a' h' :
  AddKey a h time property element tween = Some (true, a', h') ->
  unit property = property_unit a /\ valid a = true /\
  (TryMakeUnitValid (value property)).1 = true /\
  interpolable (TryMakeUnitValid (value property)).2 /\
  a' = set_keys a (keys a ++ [ {| key_time := time;
                                  key_value := (TryMakeUnitValid (value property)).2;
                                  key_tween := tween |} ]) /\
  length h' = length h /\
  (unit property <> TRANSFORM -> h' = h) /\
  (forall r, r ∉ key_refs (keys a) -> value property <> V_TRANSFORMREF r ->
             h' !! r = h !! r).
Proof.
  intros E. pose proof (AddKey_success _ _ _ _ _ _ _ _ E) as (Hu & Hv & Hok & Ha).
  do 3 (split; [done|]).
  split.
  { destruct (TryMakeUnitValid (value property)) as [ok v] eqn:Ht.
    apply TryMakeUnitValid_inv in Ht as (Ht & _). by apply Ht. }
  split; [done|].
  unfold AddKey in E. rewrite Hv in E.
  rewrite bool_decide_false in E by (by intros ?). simpl in E.
  destruct (TryMakeUnitValid (value property)) as [result v] eqn:Ht. simpl in Hok. subst result.
  simpl in E.
  destruct (bool_decide (unit property = TRANSFORM)) eqn:Htr.
  - apply bool_decide_eq_true in Htr.
    destruct (value property) as [| | | | | |r0] eqn:Hval; simpl in E; try done.
    destruct (forallb _ _); [|by simplify_eq].
    destruct (PrepareTransforms _ _ _ _) as [p|] eqn:Hp; [|done].
    destruct (pr_result p); simplify_eq.
    unfold PrepareTransforms in Hp.
    split.
    { apply PrepareTransforms_loop_heap_length in Hp. rewrite Hp.
      unfold store. apply length_insert. }
    split; [done|].
    intros r Hr Hne.
    rewrite (PrepareTransforms_loop_frame _ _ _ _ _ _ _ _ r Hp).
    + unfold store. apply list_lookup_insert_ne. congruence.
    + unfold key_refs. rewrite omap_app. simpl.
      unfold TryMakeUnitValid in Ht. simpl in Ht. simplify_eq. simpl.
      rewrite elem_of_app, list_elem_of_singleton. intros [?|?]; [done|congruence].
  - simplify_eq. split; [done|]. split; done.
Qed.

(** ** Interpolation of transforms *)

(** X12: [InterpolateValues] on two transforms of equal size whose
    primitives interpolate position by position: the result is a new
    transform, at a location that was not in use, with one primitive per
    position, each the [InterpolateWith] of the two primitives there;
    nothing is logged and the two transforms given are not written. *)
Theorem InterpolateValues_transforms (h : Heap) (t0 t1 : loc) (alpha : float32) :
  length (deref h t0) = length (deref h t1) ->
  (forall i x y, deref h t0 !! i = Some x -> deref h t1 !! i = Some y ->
                 is_Some (InterpolateWith x y alpha)) ->
  exists prims,
    InterpolateValues h (V_TRANSFORMREF t0) (V_TRANSFORMREF t1) alpha
    = (V_TRANSFORMREF (length h), h ++ [prims], []) /\
    length prims = length (deref h t0) /\
    deref (h ++ [prims]) (length h) = prims /\
    (forall r, (r < length h)%nat -> deref (h ++ [prims]) r = deref h r) /\
    (forall i x y, deref h t0 !! i = Some x -> deref h t1 !! i = Some y ->
                   InterpolateWith x y alpha = prims !! i).
Proof.
  intros Hlen Hall. unfold InterpolateValues. simpl.
  destruct (decide (TRANSFORMREF <> TRANSFORMREF)); [done|].
  destruct (decide (length (deref h t0) <> length (deref h t1))); [done|].
  assert (exists prims, interpolate_primitives (deref h t0) (deref h t1) alpha = Some prims /\
            length prims = length (deref h t0) /\
            forall i x y, deref h t0 !! i = Some x -> deref h t1 !! i = Some y ->
                          InterpolateWith x y alpha = prims !! i) as (prims & -> & Hl & Hp).
  { clear -Hlen Hall. revert Hlen Hall.
    generalize (deref h t1). generalize (deref h t0).
    intros p0. induction p0 as [|x p0 IH]; intros [|y p1] Hlen Hall; simplify_eq/=.
    - exists []. repeat split; auto. intros i ? ? ?. by rewrite lookup_nil in *.
    - destruct (Hall 0%nat x y eq_refl eq_refl) as [p Hp]. rewrite Hp.
      destruct (IH p1) as (prims & -> & Hl & Hr); [done| |].
      { intros i x' y' H0 H1. by apply (Hall (S i)). }
      exists (p :: prims). split; [done|]. split; [simpl; by rewrite Hl|].
      intros [|i] x' y' H0 H1; simplify_eq/=; [done|]. by apply Hr. }
  exists prims. simpl. split; [done|]. split; [done|].
  unfold deref, Heap, Transform, loc in *. split.
  - rewrite (lookup_app_r h [prims] (length h)) by reflexivity.
    by rewrite Nat.sub_diag.
  - split; [|done]. intros r Hr. by rewrite (lookup_app_l h [prims] r) by done.
Qed.

End Timeline.

(** ** Iteration counts below one *)

Section IterationCounts.

Context {C : Collaborators}.

(** A call that passes the entry test runs [advance] and returns. *)
Lemma UpdateAndGetProperty_advances a h world_time :
  keys a <> [] -> animation_complete a = false -> valid a = true ->
  F32.leb (F32.sub world_time (last_update_world_time a)) F32.zero = false ->
  exists u,
    UpdateAndGetProperty a h world_time = Some u /\
    up_animation u = advance a world_time.
Proof.
  intros Hne Hc Hv Hdt.
  destruct (UpdateAndGetProperty_defined a h world_time Hne) as [u Hu].
  exists u. split; [done|].
  apply UpdateAndGetProperty_inv in Hu
    as [[Hg _]|(_ & _ & _ & k0 & k1 & al & _ & _ & ->)]; [|done].
  by rewrite Hc, Hv, Hdt in Hg.
Qed.

(** With a count other than -1 the iteration index stays within the
    count. *)
Lemma reachable_iteration_bound a h :
  reachable a h ->
  0 <= current_iteration a /\
  (num_iterations a <> -1 ->
   current_iteration a <= Z.max 1 (num_iterations a) /\
   (animation_complete a = false ->
    current_iteration a < num_iterations a \/ current_iteration a = 0)).
Proof.
  induction 1 as [name cv st d n alt h|c a h r a' h' _ IH Hcall].
  - unfold ElementAnimation_new.
    destruct (TryMakeUnitValid (value cv)) as [ok v]. simpl.
    split; [lia|]. intros _. split; [lia|]. auto.
  - destruct c as [time property element tween|w]; simpl in Hcall.
    + destruct (AddKey _ _ _ _ _ _) as [[[ok a1] h1]|] eqn:E; [|done].
      simplify_eq. apply AddKey_inv in E as [[_ ->]|[_ [v ->]]]; done.
    + destruct (UpdateAndGetProperty _ _ _) as [u|] eqn:E; [|done].
      simplify_eq.
      apply UpdateAndGetProperty_inv in E
        as [[_ ->]|(Hc & _ & _ & k0 & k1 & al & _ & _ & ->)]; [done|].
      simpl. clear -IH Hc. destruct IH as (Hnn & Hb). unfold advance.
      destruct (F32.geb _ _); [|simpl; split; [done|exact Hb]].
      destruct (bool_decide (current_iteration a + 1 < num_iterations a)
                || bool_decide (num_iterations a = -1)) eqn:Hnext; simpl.
      * split; [lia|]. intros Hn. destruct (Hb Hn) as [_ Hlt].
        apply orb_true_iff in Hnext as [Hx|Hx]; apply bool_decide_eq_true in Hx; [|done].
        split; [lia|]. intros _. by left.
      * split; [lia|]. intros Hn. destruct (Hb Hn) as [_ Hlt].
        split; [|done]. destruct (Hlt Hc); lia.
Qed.

(** C10: on a timeline whose iteration index is not negative (it starts at
    0 and only grows), every [num_iterations] below 1 other than [-1] gives,
    over every sequence of calls, the same returned values, the same store
    and the same timeline (but for the stored count itself) as
    [num_iterations = 1].  With such a count every call of
    [UpdateAndGetProperty] that passes the entry test returns and sets the
    clock; the first call that carries the elapsed time to the duration marks
    the timeline complete, with the elapsed time set to the duration and the
    iteration counted, and a call that does not reach the duration leaves the
    timeline incomplete with the time added.  With [num_iterations = -1] no
    call ever marks the timeline complete: a call that reaches the duration
    starts the next iteration, with the elapsed time back at 0.  With any
    other count a call that reaches the duration in the iteration whose index
    reaches the count marks the timeline complete, and the iteration index
    never exceeds [max(1, num_iterations)]. *)
Theorem iterations_below_one (a : ElementAnimation) (n : Z) :
  0 <= current_iteration a -> n < 1 -> n <> -1 ->
  (forall cs h,
      calls cs (set_num_iterations a n) h
      = relabel_run n <$> calls cs (set_num_iterations a 1) h) /\
  (forall h world_time,
      keys a <> [] -> animation_complete a = false -> valid a = true ->
      F32.leb (F32.sub world_time (last_update_world_time a)) F32.zero = false ->
      exists u,
        UpdateAndGetProperty (set_num_iterations a n) h world_time = Some u /\
        last_update_world_time (up_animation u) = world_time /\
        if F32.geb (F32.add (time_since_iteration_start a)
                      (F32.sub world_time (last_update_world_time a))) (duration a)
        then IsComplete (up_animation u) = true /\
             time_since_iteration_start (up_animation u) = duration a /\
             current_iteration (up_animation u) = current_iteration a + 1 /\
             reverse_direction (up_animation u) = reverse_direction a
        else IsComplete (up_animation u) = false /\
             time_since_iteration_start (up_animation u)
             = F32.add (time_since_iteration_start a)
                 (F32.sub world_time (last_update_world_time a)) /\
             current_iteration (up_animation u) = current_iteration a) /\
  (forall b h cs rs b' h',
      num_iterations b = -1 -> animation_complete b = false ->
      calls cs b h = Some (rs, b', h') -> animation_complete b' = false) /\
  (forall b h world_time,
      num_iterations b = -1 ->
      keys b <> [] -> animation_complete b = false -> valid b = true ->
      F32.leb (F32.sub world_time (last_update_world_time b)) F32.zero = false ->
      F32.geb (F32.add (time_since_iteration_start b)
                 (F32.sub world_time (last_update_world_time b))) (duration b) = true ->
      exists u,
        UpdateAndGetProperty b h world_time = Some u /\
        IsComplete (up_animation u) = false /\
        current_iteration (up_animation u) = current_iteration b + 1 /\
        time_since_iteration_start (up_animation u) = F32.zero) /\
  (forall b h world_time,
      num_iterations b <> -1 -> num_iterations b <= current_iteration b + 1 ->
      keys b <> [] -> animation_complete b = false -> valid b = true ->
      F32.leb (F32.sub world_time (last_update_world_time b)) F32.zero = false ->
      F32.geb (F32.add (time_since_iteration_start b)
                 (F32.sub world_time (last_update_world_time b))) (duration b) = true ->
      exists u,
        UpdateAndGetProperty b h world_time = Some u /\
        IsComplete (up_animation u) = true /\
        time_since_iteration_start (up_animation u) = duration b) /\
  (forall b h,
      reachable b h -> num_iterations b <> -1 ->
      current_iteration b <= Z.max 1 (num_iterations b)).
Proof.
  intros H0 Hn Hm. split; [|split; [|split; [|split; [|split]]]].
  - intros cs h. by apply calls_set_num_iterations.
  - intros h w Hne Hc Hv Hdt.
    destruct (UpdateAndGetProperty_advances (set_num_iterations a n) h w)
      as (u & Hu & Ha); [done..|].
    exists u. split; [done|]. rewrite Ha. unfold IsComplete, advance.
    cbn [set_num_iterations set_playback num_iterations current_iteration duration
         time_since_iteration_start last_update_world_time alternate_direction
         reverse_direction animation_complete].
    destruct (F32.geb _ _).
    + rewrite (bool_decide_false (current_iteration a + 1 < n)) by lia.
      rewrite (bool_decide_false (n = -1)) by done. done.
    + done.
  - intros b h cs. revert b h.
    induction cs as [|c cs IH]; intros b h rs b' h' Hb Hc H; simpl in H.
    + by simplify_eq.
    + destruct (call c b h) as [[[r b1] h1]|] eqn:E; [|done].
      destruct (calls cs b1 h1) as [[[rs' b2] h2]|] eqn:E2; [|done].
      injection H as <- <- <-.
      apply (IH b1 h1 rs' b2 h2); [|by eapply call_unbounded|done].
      apply call_num_iterations in E. congruence.
  - intros b h w Hb Hne Hc Hv Hdt Hge.
    destruct (UpdateAndGetProperty_advances b h w) as (u & Hu & Ha); [done..|].
    exists u. split; [done|]. rewrite Ha. unfold IsComplete, advance. rewrite Hge.
    rewrite (bool_decide_true (num_iterations b = -1)) by done.
    rewrite orb_true_r. done.
  - intros b h w Hb Hle Hne Hc Hv Hdt Hge.
    destruct (UpdateAndGetProperty_advances b h w) as (u & Hu & Ha); [done..|].
    exists u. split; [done|]. rewrite Ha. unfold IsComplete, advance. rewrite Hge.
    rewrite (bool_decide_false (current_iteration b + 1 < num_iterations b)) by lia.
    by rewrite (bool_decide_false (num_iterations b = -1)) by done.
  - intros b h Hr Hb. by destruct (reachable_iteration_bound b h Hr) as (_ & Hbound);
      destruct (Hbound Hb).
Qed.

End IterationCounts.

(** ** Reconciliation along the keys *)

Section Chain.

Context {C : Collaborators}.

Lemma key_refs_lookup (ks : list AnimationKey) :
  Forall holds_transform ks ->
  forall n k, ks !! n = Some k -> key_refs ks !! n = Get_TransformRef (key_value k).
Proof.
  induction 1 as [|k0 ks [r0 Hr0] _ IH]; intros [|n] k Hk; simplify_eq/=.
  - unfold key_refs. simpl. by rewrite Hr0.
  - unfold key_refs. simpl. rewrite Hr0. simpl. by apply IH.
Qed.

Lemma key_ref_lookup (ks : list AnimationKey) j r :
  Forall holds_transform ks -> key_ref ks j = Some r ->
  0 <= j /\ key_refs ks !! Z.to_nat j = Some r.
Proof.
  unfold key_ref. intros Hall H.
  destruct (decide (0 <= j)); [|done]. split; [done|].
  destruct (ks !! Z.to_nat j) as [k|] eqn:Hk; [|done].
  by rewrite (key_refs_lookup ks Hall _ _ Hk).
Qed.

Lemma key_ref_inj (ks : list AnimationKey) j j' r :
  Forall holds_transform ks -> NoDup (key_refs ks) ->
  key_ref ks j = Some r -> key_ref ks j' = Some r -> j = j'.
Proof.
  intros Hall Hnd H H'.
  apply key_ref_lookup in H as [? H]; [|done].
  apply key_ref_lookup in H' as [? H']; [|done].
  pose proof (NoDup_lookup _ _ _ _ Hnd H H'). lia.
Qed.

Lemma deref_store_eq (h : Heap) r t : (r < length h)%nat -> deref (store h r t) r = t.
Proof.
  intros Hr. unfold deref, store, Heap, Transform, loc in *.
  by rewrite list_lookup_insert_eq.
Qed.

Lemma deref_store_ne (h : Heap) r r' t : r <> r' -> deref (store h r t) r' = deref h r'.
Proof.
  intros Hr. unfold deref, store, Heap, Transform, loc in *.
  by rewrite list_lookup_insert_ne.
Qed.

Lemma length_store (h : Heap) r t : length (store h r t) = length h.
Proof. unfold store, Heap, Transform, loc in *. apply length_insert. Qed.

(** One pass keeps the pairs below the next index reconciled. *)
Lemma PrepareTransforms_pass_reconciles `{!CollaboratorLaws C} ks element h i result h' :
  (forall m m' d d',
      Decompose m = Some d -> Decompose m' = Some d' -> prim_index d = prim_index d') ->
  separate_transforms ks h ->
  1 <= i ->
  reconciled_below ks h i ->
  PrepareTransforms_pass ks element h i = Some (result, h') ->
  result <> Invalid ->
  reconciled_below ks h' (if changed_t0 result && bool_decide (i > 1) then i - 1 else i + 1).
Proof.
  intros Hdec (Hall & Hnd & Halive) Hi Hbelow Hpass Hres.
  unfold PrepareTransforms_pass in Hpass.
  destruct (key_ref ks (i - 1)) as [r0|] eqn:E0; [|done].
  destruct (key_ref ks i) as [r1|] eqn:E1; [|done].
  destruct (PrepareTransformPair (deref h r0) (deref h r1) element) as [[res t0] t1] eqn:Hpair.
  simplify_eq.
  pose proof (PrepareTransformPair_kinds _ _ _ _ _ _ Hdec Hpair Hres) as Hk.
  pose proof (PrepareTransformPair_flags _ _ _ _ _ _ Hpair Hres) as [Hflag _].
  assert (r0 <> r1) as Hne.
  { intros ->. pose proof (key_ref_inj _ _ _ _ Hall Hnd E0 E1). lia. }
  assert ((r0 < length h)%nat /\ (r1 < length h)%nat) as [Ha0 Ha1].
  { rewrite Forall_forall in Halive. split; apply Halive; by eapply key_ref_elem. }
  assert (deref (store (store h r0 t0) r1 t1) r0 = t0) as Hd0.
  { rewrite deref_store_ne by done. by apply deref_store_eq. }
  assert (deref (store (store h r0 t0) r1 t1) r1 = t1) as Hd1.
  { apply deref_store_eq. by rewrite length_store. }
  assert (forall r, r <> r0 -> r <> r1 ->
                    deref (store (store h r0 t0) r1 t1) r = deref h r) as Hd.
  { intros r ? ?. by rewrite !deref_store_ne. }
  intros j Hj ra rb Ea Eb.
  destruct (decide (j = i)) as [->|Hji].
  { simplify_eq. by rewrite Hd0, Hd1. }
  assert (j < i) as Hlt.
  { destruct (changed_t0 result && bool_decide (i > 1)); lia. }
  assert (ra <> r0 /\ ra <> r1 /\ rb <> r1) as (Ha & Hb & Hc).
  { repeat split; intros ->.
    - pose proof (key_ref_inj _ _ _ _ Hall Hnd Ea E0). lia.
    - pose proof (key_ref_inj _ _ _ _ Hall Hnd Ea E1). lia.
    - pose proof (key_ref_inj _ _ _ _ Hall Hnd Eb E1). lia. }
  rewrite (Hd ra) by done.
  destruct (decide (rb = r0)) as [->|Hrb].
  - pose proof (key_ref_inj _ _ _ _ Hall Hnd Eb E0) as ->.
    rewrite Hd0.
    assert (changed_t0 result = false) as Hc0.
    { destruct (changed_t0 result); [|done].
      rewrite bool_decide_true in Hj by lia. simpl in Hj. lia. }
    rewrite (Hflag Hc0). apply (Hbelow (i - 1)); [lia|done|done].
  - rewrite (Hd rb) by done. apply (Hbelow j); [lia|done|done].
Qed.

Lemma PrepareTransforms_loop_reconciles `{!CollaboratorLaws C}
    ks element mx h i cnt passes p :
  (forall m m' d d',
      Decompose m = Some d -> Decompose m' = Some d' -> prim_index d = prim_index d') ->
  separate_transforms ks h ->
  1 <= i ->
  reconciled_below ks h i ->
  PrepareTransforms_loop ks element mx h i cnt passes = Some p ->
  pr_result p = true ->
  reconciled_below ks (pr_heap p) (Z.of_nat (length ks)).
Proof.
  intros Hdec Hsep Hi Hbelow.
  funelim (PrepareTransforms_loop ks element mx h i cnt passes); intros Hp Hr.
  - simplify_eq. simpl in *. apply bool_decide_eq_true in Hr.
    intros j Hj. apply Hbelow. lia.
  - done.
  - by simplify_eq.
  - match goal with Hs : PrepareTransforms_pass _ _ _ _ = Some _ |- _ =>
      pose proof (PrepareTransforms_pass_length _ _ _ _ _ _ Hs) as Hlen;
      pose proof (PrepareTransforms_pass_reconciles _ _ _ _ _ _ Hdec Hsep Hi Hbelow Hs
                    ltac:(done)) as Hnext
    end.
    match goal with IH : context [reconciled_below] |- _ =>
      eapply IH; try done
    end.
    + destruct Hsep as (? & ? & ?). repeat split; try done. by rewrite Hlen.
    + by apply next_index_pos.
Qed.

End Chain.

Section ChainTheorems.

Context {C : Collaborators}.

Lemma key_ref_bounds (ks : list AnimationKey) j r :
  key_ref ks j = Some r -> 0 <= j < Z.of_nat (length ks).
Proof.
  unfold key_ref. intros H. destruct (decide (0 <= j)); [|done].
  destruct (ks !! Z.to_nat j) as [k|] eqn:Hk; [|done].
  apply lookup_lt_Some in Hk. lia.
Qed.

Lemma key_ref_app_l (ks ks' : list AnimationKey) j :
  j < Z.of_nat (length ks) -> key_ref (ks ++ ks') j = key_ref ks j.
Proof.
  intros Hj. unfold key_ref. destruct (decide (0 <= j)); [|done].
  by rewrite lookup_app_l by lia.
Qed.

Lemma InterpolateValues_same_size h r0 r1 alpha :
  length (deref h r0) = length (deref h r1) ->
  Warn_primitives_not_same_size
  ∉ (InterpolateValues h (V_TRANSFORMREF r0) (V_TRANSFORMREF r1) alpha).2.
Proof.
  intros Hlen. unfold InterpolateValues. simpl.
  destruct (decide (TRANSFORMREF <> TRANSFORMREF)); [done|].
  destruct (decide (length (deref h r0) <> length (deref h r1))); [done|].
  destruct (interpolate_primitives _ _ _); simpl.
  - apply not_elem_of_nil.
  - intros Hin. apply list_elem_of_singleton in Hin. discriminate.
Qed.

(** X13: what a successful [PrepareTransforms] establishes.  Every key
    has a transform of its own, alive in the store, the pairs of adjacent
    keys before [start_index] have equal kinds (as earlier calls left them),
    and all decomposed primitives are of one kind (they are
    [DecomposedMatrix4] values).  If [PrepareTransforms] returns true, then
    the transforms of every two adjacent keys have the same size and the same
    primitive kinds at every position, so that [InterpolateValues] on two
    adjacent keys never finds transforms of different sizes. *)
Theorem PrepareTransforms_reconciles `{!CollaboratorLaws C}
    (ks : list AnimationKey) (element : Element) (h : Heap) (start_index : Z)
    (p : Prepared) :
  (forall m m' d d',
      Decompose m = Some d -> Decompose m' = Some d' -> prim_index d = prim_index d') ->
  separate_transforms ks h ->
  reconciled_below ks h start_index ->
  PrepareTransforms ks element h start_index = Some p ->
  pr_result p = true ->
  reconciled_below ks (pr_heap p) (Z.of_nat (length ks)) /\
  (forall j r0 r1 alpha,
      key_ref ks (j - 1) = Some r0 -> key_ref ks j = Some r1 ->
      length (deref (pr_heap p) r0) = length (deref (pr_heap p) r1) /\
      Warn_primitives_not_same_size
      ∉ (InterpolateValues (pr_heap p) (V_TRANSFORMREF r0) (V_TRANSFORMREF r1) alpha).2).
Proof.
  intros Hdec Hsep Hbelow Hp Hr. unfold PrepareTransforms in Hp.
  assert (reconciled_below ks (pr_heap p) (Z.of_nat (length ks))) as Hall.
  { refine (PrepareTransforms_loop_reconciles _ _ _ _ _ _ _ _ Hdec Hsep _ _ Hp Hr).
    - case_decide; lia.
    - intros j Hj. apply Hbelow. case_decide; lia. }
  split; [done|]. intros j r0 r1 alpha E0 E1.
  assert (length (deref (pr_heap p) r0) = length (deref (pr_heap p) r1)) as Hlen.
  { pose proof (key_ref_bounds _ _ _ E0). pose proof (key_ref_bounds _ _ _ E1).
    assert (map prim_index (deref (pr_heap p) r0) = map prim_index (deref (pr_heap p) r1)) as Hk
        by (apply (Hall j); [lia|done|done]).
    apply (f_equal length) in Hk. by rewrite !length_map in Hk. }
  split; [done|]. by apply InterpolateValues_same_size.
Qed.

(** X14: reconciliation is kept from one successful [AddKey] to the
    next.  On a transform timeline whose keys, with the new one, have
    transforms of their own, and whose adjacent keys have equal kinds, a
    successful [AddKey] appends the key and leaves a timeline of which the
    same is true (all decomposed primitives being of one kind). *)
Theorem AddKey_keeps_reconciled `{!CollaboratorLaws C}
    (a : ElementAnimation) (h : Heap) (time : float32) (property : Property)
    (element : Element) (tween : Tween) (r : loc) a' h' :
  (forall m m' d d',
      Decompose m = Some d -> Decompose m' = Some d' -> prim_index d = prim_index d') ->
  unit property = TRANSFORM ->
  value property = V_TRANSFORMREF r ->
  separate_transforms
    (keys a ++ [ {| key_time := time; key_value := V_TRANSFORMREF r; key_tween := tween |} ]) h ->
  reconciled_below (keys a) h (Z.of_nat (length (keys a))) ->
  AddKey a h time property element tween = Some (true, a', h') ->
  keys a' = keys a ++ [ {| key_time := time; key_value := V_TRANSFORMREF r;
                           key_tween := tween |} ] /\
  separate_transforms (keys a') h' /\
  reconciled_below (keys a') h' (Z.of_nat (length (keys a'))).
Proof.
  intros Hdec Hunit Hval Hsep Hbelow E.
  pose proof (AddKey_success _ _ _ _ _ _ _ _ E) as (Hu & Hv & _ & Ha).
  unfold AddKey in E. rewrite Hv, Hval in E. rewrite Hval in Ha.
  rewrite bool_decide_false in E by (by intros ?).
  rewrite (bool_decide_true (unit property = TRANSFORM)) in E by done.
  cbn [orb negb andb TryMakeUnitValid GetType Get_TransformRef] in E.
  cbn [TryMakeUnitValid GetType snd] in Ha.
  set (ks := keys a ++ [ {| key_time := time; key_value := V_TRANSFORMREF r;
                             key_tween := tween |} ]) in *.
  destruct (resolve_all_units (deref h r) element) as [result t].
  destruct result; [|by simplify_eq].
  destruct (PrepareTransforms ks element (store h r t) (Z.of_nat (length ks) - 1))
    as [p|] eqn:Hp; [|done].
  destruct (pr_result p) eqn:Hr; simplify_eq.
  cbn [keys set_keys].
  destruct Hsep as (Hall & Hnd & Halive).
  assert (key_refs ks = key_refs (keys a) ++ [r]) as Hrefs.
  { unfold ks, key_refs. by rewrite omap_app. }
  assert (r ∉ key_refs (keys a)) as Hfresh.
  { rewrite Hrefs in Hnd. apply NoDup_app in Hnd as (_ & Hnd & _).
    intros Hin. apply (Hnd r Hin). by apply list_elem_of_singleton. }
  assert (separate_transforms ks (store h r t)) as Hsep'.
  { repeat split; try done. by rewrite length_store. }
  assert (reconciled_below ks (store h r t) (Z.of_nat (length ks) - 1)) as Hbelow'.
  { intros j Hj r0 r1 E0 E1. unfold ks in Hj, E0, E1. rewrite length_app in Hj. simpl in Hj.
    rewrite key_ref_app_l in E0, E1 by lia.
    rewrite !deref_store_ne.
    - apply (Hbelow j); [lia|done|done].
    - intros ->. apply Hfresh. by eapply key_ref_elem.
    - intros ->. apply Hfresh. by eapply key_ref_elem. }
  split; [done|]. split.
  - repeat split; try done. unfold PrepareTransforms in Hp.
    apply PrepareTransforms_loop_heap_length in Hp. by rewrite Hp, length_store.
  - unfold PrepareTransforms in Hp.
    refine (PrepareTransforms_loop_reconciles _ _ _ _ _ _ _ _ Hdec Hsep' _ _ Hp Hr).
    + case_decide; lia.
    + intros j Hj. apply Hbelow'. case_decide; lia.
Qed.

(** X15: the least cases of [PrepareTransforms].  With fewer than two
    keys the loop body is not entered: no pair is touched and the result is
    true.  With two keys there is exactly one call of [PrepareTransformPair],
    and the result is false only if that call returns [Invalid]: the bound on
    the iterations plays no part. *)
Theorem PrepareTransforms_few_keys (ks : list AnimationKey) (element : Element)
    (h : Heap) (start_index : Z) :
  ((length ks <= 1)%nat ->
   PrepareTransforms ks element h start_index
   = Some {| pr_result := true; pr_heap := h; pr_count_iterations := -1; pr_passes := 0 |}) /\
  (length ks = 2%nat -> start_index <= 1 -> Forall holds_transform ks ->
   exists result h',
     PrepareTransforms_pass ks element h 1 = Some (result, h') /\
     PrepareTransforms ks element h start_index
     = Some {| pr_result := bool_decide (result <> Invalid);
               pr_heap := h';
               pr_count_iterations := if decide (result = Invalid) then -1 else 0;
               pr_passes := 1 |}).
Proof.
  split.
  - intros Hlen. unfold PrepareTransforms.
    simp PrepareTransforms_loop.
    destruct (decide (_ /\ _)) as [[H1 H2]|Hn]; simpl.
    + case_decide; lia.
    + rewrite bool_decide_true by lia. done.
  - intros Hlen Hstart Hall. unfold PrepareTransforms.
    destruct (PrepareTransforms_pass_Some ks element h 1 Hall) as [[result h'] Hpass]; [lia|].
    exists result, h'. split; [done|].
    assert ((if decide (start_index < 1) then 1 else start_index) = 1) as ->
      by (case_decide; lia).
    simp PrepareTransforms_loop.
    destruct (decide (_ /\ _)) as [Hy|Hn]; [|lia]. simpl. rewrite Hpass. simpl.
    destruct (decide (result = Invalid)) as [->|Hr]; simpl.
    + done.
    + rewrite andb_false_r.
      simp PrepareTransforms_loop.
      destruct (decide (_ /\ _)) as [Hy'|Hn]; [lia|]. simpl.
      rewrite (bool_decide_true (-1 + 1 < _)) by lia.
      by rewrite (bool_decide_true (result <> Invalid)) by done.
Qed.

End ChainTheorems.

Section Rendering.

Context {C : Collaborators}.

Lemma key_ref_of_lookup (ks : list AnimationKey) (i : Z) k r :
  0 <= i -> ks !! Z.to_nat i = Some k -> key_value k = V_TRANSFORMREF r ->
  key_ref ks i = Some r.
Proof.
  intros Hi Hk Hv. unfold key_ref. rewrite decide_True by done. by rewrite Hk, Hv.
Qed.

Lemma InterpolateValues_size_warning h v0 v1 alpha :
  Warn_primitives_not_same_size ∈ (InterpolateValues h v0 v1 alpha).2 ->
  exists r0 r1, v0 = V_TRANSFORMREF r0 /\ v1 = V_TRANSFORMREF r1 /\
                length (deref h r0) <> length (deref h r1).
Proof.
  unfold InterpolateValues.
  destruct (decide (GetType v0 <> GetType v1)).
  { simpl. intros H. apply list_elem_of_singleton in H. discriminate. }
  destruct v0, v1; simpl;
    try (intros H; first [by apply elem_of_nil in H
                         |apply list_elem_of_singleton in H; discriminate]).
  destruct (decide (length (deref h r) <> length (deref h r0))) as [Hne|Heq].
  - intros _. eauto.
  - destruct (interpolate_primitives _ _ _); simpl; intros H;
      first [by apply elem_of_nil in H|apply list_elem_of_singleton in H; discriminate].
Qed.

(** X24: a reconciled timeline renders without the size warning.  When
    the transforms of every two adjacent keys have equal kinds, as successful
    calls of [AddKey] leave them, no call of [UpdateAndGetProperty] logs that
    the transform primitives are not of the same size: the two keys it
    interpolates are adjacent, or one and the same. *)
Theorem reconciled_timeline_same_size (a : ElementAnimation) (h : Heap)
    (world_time : float32) (u : Updated) :
  reconciled_below (keys a) h (Z.of_nat (length (keys a))) ->
  UpdateAndGetProperty a h world_time = Some u ->
  Warn_primitives_not_same_size ∉ up_log u.
Proof.
  intros Hrec. unfold UpdateAndGetProperty.
  destruct (_ || _); [intros; simplify_eq; apply not_elem_of_nil|].
  rewrite keys_advance.
  unfold select_keys.
  set (scan := scan_key1 _ _ _ _).
  set (key1 := if decide (scan < 0) then Z.of_nat (length (keys a)) - 1 else scan).
  set (key0 := if decide (key1 = 0) then 0 else key1 - 1).
  destruct (bool_decide _) eqn:Hb; [|done].
  apply bool_decide_eq_true in Hb as (H0 & H0' & H1 & H1').
  destruct (keys a !! Z.to_nat key0) as [k0|] eqn:Hk0; [|done].
  destruct (keys a !! Z.to_nat key1) as [k1|] eqn:Hk1; [|done].
  match goal with |- context [InterpolateValues h ?v0 ?v1 ?al] =>
    pose proof (InterpolateValues_size_warning h v0 v1 al) as Hw;
    destruct (InterpolateValues h v0 v1 al) as [[v h'] log]
  end.
  intros; simplify_eq. simpl in *. intros Hin.
  destruct (Hw Hin) as (r0 & r1 & Hv0 & Hv1 & Hne). apply Hne.
  assert (key_ref (keys a) key0 = Some r0) as E0
    by (apply (key_ref_of_lookup _ _ k0); [lia|done|done]).
  assert (key_ref (keys a) key1 = Some r1) as E1
    by (apply (key_ref_of_lookup _ _ k1); [lia|done|done]).
  subst key0. destruct (decide (key1 = 0)) as [Hz|Hz].
  - rewrite Hz in E1. by simplify_eq.
  - assert (map prim_index (deref h r0) = map prim_index (deref h r1)) as Hk
      by (apply (Hrec key1); [lia|done|done]).
    apply (f_equal length) in Hk. by rewrite !length_map in Hk.
Qed.

End Rendering.

(** ** Interpolation at the ends, and the blend factor *)

(** ** Multiplication by one *)

Lemma F32_one_eq : F32.one = S754_finite false 8388608 (-23).
Proof. reflexivity. Qed.

Lemma digits2_pos_shift23 (m : positive) :
  Z.pos (digits2_pos (8388608 * m)) = Z.pos (digits2_pos m) + 23.
Proof.
  change (8388608 * m)%positive
    with (m~0~0~0~0~0~0~0~0~0~0~0~0~0~0~0~0~0~0~0~0~0~0~0)%positive.
  cbn [digits2_pos]. lia.
Qed.

Lemma F32_mul_one_l (x : float32) :
  valid_binary F32.prec F32.emax x = true -> F32.mul F32.one x = x.
Proof.
  destruct x as [s|s| |s m e]; try (by destruct s); [done|].
  intros Hv. simpl in Hv. unfold bounded, canonical_mantissa in Hv.
  apply andb_true_iff in Hv as [Hc He]. apply Z.eqb_eq in Hc.
  rewrite F32_one_eq. unfold F32.mul, SFmul. cbn [xorb].
  unfold binary_round_aux, shr_fexp.
  cbn [Zdigits2]. rewrite digits2_pos_shift23.
  replace (Z.pos (digits2_pos m) + 23 + (-23 + e)) with (Z.pos (digits2_pos m) + e) by lia.
  rewrite Hc.
  replace (e - (-23 + e)) with 23 by lia.
  change (shr (shr_record_of_loc (Z.pos (8388608 * m)) loc_Exact) (-23 + e) 23)
    with ({| shr_m := Z.pos m; shr_r := false; shr_s := false |}, -23 + e + 23).
  cbn [shr_m loc_of_shr_record round_nearest_even Zdigits2 shr_record_of_loc].
  replace (-23 + e + 23) with e by lia.
  rewrite Hc, Z.sub_diag. cbn [shr shr_m]. by rewrite He.
Qed.



Lemma float_eqb_eq (x y : float32) : float_eqb x y = true -> x = y.
Proof.
  destruct x as [s|s| |s m e], y as [s'|s'| |s' m' e']; simpl; try done.
  - intros H. apply eqb_prop in H. by subst.
  - intros H. apply eqb_prop in H. by subst.
  - intros H. apply andb_true_iff in H as [H He]. apply andb_true_iff in H as [Hs Hm].
    apply eqb_prop in Hs. apply Pos.eqb_eq in Hm. apply Z.eqb_eq in He. by subst.
Qed.

Lemma linear_ends_bytes :
  forallb (fun x => linear_ends (rgb_linear x) && linear_ends (alpha_linear x)) byte_values
  = true.
Proof. vm_compute. reflexivity. Qed.

Lemma linear_ends_blend (l0 l1 : float32) :
  linear_ends l0 = true -> linear_ends l1 = true ->
  F32.add (F32.mul l0 (F32.sub F32.one F32.zero)) (F32.mul l1 F32.zero) = l0 /\
  F32.add (F32.mul l0 (F32.sub F32.one F32.one)) (F32.mul l1 F32.one) = l1.
Proof.
  unfold linear_ends. intros H0 H1.
  repeat (apply andb_true_iff in H0 as [H0 ?]).
  repeat (apply andb_true_iff in H1 as [H1 ?]).
  repeat match goal with H : float_eqb _ _ = true |- _ => apply float_eqb_eq in H end.
  split.
  - rewrite H1. done.
  - match goal with H : F32.mul l0 (F32.sub F32.one F32.one) = _ |- _ => rewrite H end. done.
Qed.

Lemma bytes_linear_ends (x : Z) :
  byte_range x -> linear_ends (rgb_linear x) = true /\ linear_ends (alpha_linear x) = true.
Proof.
  intros Hx.
  pose proof (forall_bytes _ linear_ends_bytes x Hx) as H. simpl in H.
  by apply andb_true_iff in H.
Qed.

Section Blends.

Context {C : Collaborators}.

(** X16: interpolation of floats is exact at the ends.  For binary32
    numbers [f0] and [f1], [InterpolateValues] at [alpha = 0] returns [f0]
    when [f1] is finite, and at [alpha = 1] returns [f1] when [f0] is
    finite; "returns" up to the sign of a zero, which the sum with the
    vanishing term may change. *)
Theorem float_blend_endpoints (h : Heap) (f0 f1 : float32) :
  valid_binary F32.prec F32.emax f0 = true ->
  valid_binary F32.prec F32.emax f1 = true ->
  (F32.is_finite f1 = true ->
   exists r, InterpolateValues h (V_FLOAT f0) (V_FLOAT f1) F32.zero = (V_FLOAT r, h, [])
             /\ same_number f0 r) /\
  (F32.is_finite f0 = true ->
   exists r, InterpolateValues h (V_FLOAT f0) (V_FLOAT f1) F32.one = (V_FLOAT r, h, [])
             /\ same_number f1 r).
Proof.
  intros Hv0 Hv1. unfold InterpolateValues. cbn [GetType].
  destruct (decide (FLOAT <> FLOAT)); [done|]. split; intros Hfin.
  - eexists. split; [reflexivity|].
    change (F32.sub F32.one F32.zero) with F32.one.
    rewrite F32_mul_one_l by done.
    destruct f1 as [s1| | |s1 m1 e1]; try done;
      destruct f0 as [s0|s0| |s0 m0 e0]; try (by left);
      right; destruct s0, s1; cbn; eauto.
  - eexists. split; [reflexivity|].
    change (F32.sub F32.one F32.one) with F32.zero.
    rewrite (F32_mul_one_l f1) by done.
    destruct f0 as [s0| | |s0 m0 e0]; try done;
      destruct f1 as [s1|s1| |s1 m1 e1]; try (by left);
      right; destruct s0, s1; cbn; eauto.
Qed.

(** X17: interpolation of colours at the ends.  For byte colours,
    [InterpolateValues] at [alpha = 0] returns the first colour as the two
    conversions alone leave it, and at [alpha = 1] the second: each RGB
    channel within 1 of the endpoint's, the alpha channel equal to it. *)
Theorem colour_blend_endpoints (h : Heap) (c0 c1 : Colourb) :
  Colourb_wf c0 -> Colourb_wf c1 ->
  InterpolateValues h (V_COLOURB c0) (V_COLOURB c1) F32.zero
  = (V_COLOURB (ColourFromLinearSpace (ColourToLinearSpace c0)), h, []) /\
  InterpolateValues h (V_COLOURB c0) (V_COLOURB c1) F32.one
  = (V_COLOURB (ColourFromLinearSpace (ColourToLinearSpace c1)), h, []) /\
  (forall c, Colourb_wf c ->
     let c' := ColourFromLinearSpace (ColourToLinearSpace c) in
     Z.abs (cb_red c' - cb_red c) <= 1 /\ Z.abs (cb_green c' - cb_green c) <= 1 /\
     Z.abs (cb_blue c' - cb_blue c) <= 1 /\ cb_alpha c' = cb_alpha c).
Proof.
  intros (Hr0 & Hg0 & Hb0 & Ha0) (Hr1 & Hg1 & Hb1 & Ha1).
  destruct (bytes_linear_ends _ Hr0) as [R0 _], (bytes_linear_ends _ Hg0) as [G0 _],
    (bytes_linear_ends _ Hb0) as [B0 _], (bytes_linear_ends _ Ha0) as [_ A0],
    (bytes_linear_ends _ Hr1) as [R1 _], (bytes_linear_ends _ Hg1) as [G1 _],
    (bytes_linear_ends _ Hb1) as [B1 _], (bytes_linear_ends _ Ha1) as [_ A1].
  destruct (linear_ends_blend _ _ R0 R1) as [Rz Ro], (linear_ends_blend _ _ G0 G1) as [Gz Go],
    (linear_ends_blend _ _ B0 B1) as [Bz Bo], (linear_ends_blend _ _ A0 A1) as [Az Ao].
  unfold rgb_linear, alpha_linear in *.
  unfold InterpolateValues. cbn [GetType].
  destruct (decide (COLOURB <> COLOURB)); [done|].
  unfold ColourFromLinearSpace, ColourToLinearSpace, Colourf_add, Colourf_scale.
  cbn [cf_red cf_green cf_blue cf_alpha].
  split; [by rewrite Rz, Gz, Bz, Az|]. split; [by rewrite Ro, Go, Bo, Ao|].
  intros c (Hr & Hg & Hb & Ha). cbn [cb_red cb_green cb_blue cb_alpha].
  pose proof (rgb_roundtrip_within_one _ Hr) as Wr.
  pose proof (rgb_roundtrip_within_one _ Hg) as Wg.
  pose proof (rgb_roundtrip_within_one _ Hb) as Wb.
  pose proof (alpha_roundtrip_exact _ Ha) as Wa.
  unfold within_one, rgb_roundtrip, alpha_roundtrip in *.
  apply andb_true_iff in Wr as [? ?]. apply andb_true_iff in Wg as [? ?].
  apply andb_true_iff in Wb as [? ?]. apply Z.eqb_eq in Wa.
  repeat split; lia.
Qed.

End Blends.

(** ** Division and clamping *)

Lemma SFdiv_core_binary_nonneg prec emax m1 e1 m2 e2 :
  0 <= m1 -> 0 < m2 -> 0 <= (SFdiv_core_binary prec emax m1 e1 m2 e2).1.1.
Proof.
  intros H1 H2. unfold SFdiv_core_binary.
  match goal with |- context [Z.div_eucl ?a m2] =>
    assert (0 <= a) as Ha; [|pose proof (Z_div_mod a m2 ltac:(lia)) as Hd;
                              destruct (Z.div_eucl a m2) as [q r]]
  end.
  - case_match; try lia. by apply Z.shiftl_nonneg.
  - simpl. destruct Hd as [Hd Hr]. nia.
Qed.

Lemma F32_div_not_nan (x y : float32) :
  F32.is_finite x = true ->
  F32.is_nan y = false -> (forall s, y <> S754_zero s) ->
  F32.is_nan (F32.div x y) = false.
Proof.
  destruct x as [sx|sx| |sx mx ex], y as [sy|sy| |sy my ey]; intros Hx Hy Hz;
    try done; try (by destruct (Hz sy)).
  unfold F32.div, SFdiv.
  pose proof (SFdiv_core_binary_nonneg F32.prec F32.emax (Z.pos mx) ex (Z.pos my) ey
                ltac:(lia) ltac:(lia)) as Hq.
  destruct (SFdiv_core_binary _ _ _ _ _ _) as [[mz ez] lz]. simpl in Hq.
  destruct (binary_round_aux _ _ _ _ _ _) eqn:E; try done.
  by apply binary_round_aux_not_nan in E.
Qed.

Lemma F32_gtb_eps (x : float32) :
  F32.gtb x eps = true -> F32.is_nan x = false /\ forall s, x <> S754_zero s.
Proof. by destruct x as [s|s| |s m e]. Qed.

Lemma F32_Clamp_unit (x : float32) :
  F32.is_nan x = false ->
  F32.leb F32.zero (F32.Clamp x F32.zero F32.one) = true /\
  F32.leb (F32.Clamp x F32.zero F32.one) F32.one = true.
Proof.
  intros Hx. unfold F32.Clamp.
  destruct (F32.ltb x F32.zero) eqn:Hlt; [done|].
  assert (F32.leb F32.zero x = true) as H0.
  { change (F32.ltb x F32.zero) with (F32.gtb F32.zero x) in Hlt.
    rewrite F32_gtb_leb in Hlt by done. by apply negb_false_iff in Hlt. }
  destruct (F32.gtb x F32.one) eqn:Hgt; [done|].
  rewrite F32_gtb_leb in Hgt by done. by apply negb_false_iff in Hgt.
Qed.

(** X18: the blend factor handed to the tween.  When the difference
    [t - t0] is a finite number (no overflow and no NaN), the [alpha] that
    [UpdateAndGetProperty] computes before it applies the tween lies in
    [0, 1]; it is 0 when the two key times are not more than [1e-3f]
    apart. *)
Theorem raw_alpha_range (t0 t1 t : float32) :
  F32.is_finite (F32.sub t t0) = true ->
  F32.leb F32.zero (raw_alpha t0 t1 t) = true /\
  F32.leb (raw_alpha t0 t1 t) F32.one = true /\
  (F32.gtb (F32.sub t1 t0) eps = false -> raw_alpha t0 t1 t = F32.zero).
Proof.
  intros Hfin. unfold raw_alpha.
  destruct (F32.gtb (F32.sub t1 t0) eps) eqn:Hgap.
  - apply F32_gtb_eps in Hgap as [Hn Hz].
    pose proof (F32_div_not_nan _ _ Hfin Hn Hz) as Hq.
    destruct (F32_Clamp_unit _ Hq) as [H0 H1]. done.
  - done.
Qed.

(** ** Conversions, flags, decomposition and completion *)

Lemma linear_bytes_unit :
  forallb (fun x => unit_interval (rgb_linear x) && unit_interval (alpha_linear x)) byte_values
  = true.
Proof. vm_compute. reflexivity. Qed.

(** X19: [ColourToLinearSpace] maps every byte channel to a finite number
    between 0 and 1, the byte 0 to 0 and the byte 255 to 1. *)
Theorem ColourToLinearSpace_unit (c : Colourb) :
  Colourb_wf c ->
  unit_interval (cf_red (ColourToLinearSpace c)) = true /\
  unit_interval (cf_green (ColourToLinearSpace c)) = true /\
  unit_interval (cf_blue (ColourToLinearSpace c)) = true /\
  unit_interval (cf_alpha (ColourToLinearSpace c)) = true /\
  ColourToLinearSpace (mkColourb 0 0 0 0) = mkColourf F32.zero F32.zero F32.zero F32.zero /\
  ColourToLinearSpace (mkColourb 255 255 255 255) = mkColourf F32.one F32.one F32.one F32.one.
Proof.
  intros (Hr & Hg & Hb & Ha).
  pose proof (forall_bytes _ linear_bytes_unit) as H. simpl in H.
  pose proof (H _ Hr) as Wr. pose proof (H _ Hg) as Wg.
  pose proof (H _ Hb) as Wb. pose proof (H _ Ha) as Wa.
  apply andb_true_iff in Wr as [Wr _]. apply andb_true_iff in Wg as [Wg _].
  apply andb_true_iff in Wb as [Wb _]. apply andb_true_iff in Wa as [_ Wa].
  repeat split; try done; by vm_compute.
Qed.

Section More.

Context {C : Collaborators}.

(** X20: [TryMakeUnitValid] succeeds exactly on the values that are of an
    interpolable kind or convert to float; on success the value left is of an
    interpolable kind, and a second call leaves it as it is; on failure the
    value is not written. *)
Theorem TryMakeUnitValid_idempotent (v : Variant) :
  ((TryMakeUnitValid v).1 = true <-> interpolable v \/ is_Some (GetInto_float v)) /\
  ((TryMakeUnitValid v).1 = true ->
   interpolable (TryMakeUnitValid v).2 /\
   TryMakeUnitValid (TryMakeUnitValid v).2 = (true, (TryMakeUnitValid v).2)) /\
  ((TryMakeUnitValid v).1 = false -> (TryMakeUnitValid v).2 = v) /\
  (interpolable v -> TryMakeUnitValid v = (true, v)).
Proof.
  assert (forall v', interpolable v' -> TryMakeUnitValid v' = (true, v')) as Hid.
  { intros v' Hi. destruct (TryMakeUnitValid v') as [ok w] eqn:E.
    apply TryMakeUnitValid_inv in E as (_ & E & _). by destruct (E Hi) as [-> ->]. }
  destruct (TryMakeUnitValid v) as [ok v'] eqn:E.
  pose proof (TryMakeUnitValid_inv _ _ _ E) as (H1 & H2 & H3). simpl.
  split; [|split; [|split]].
  - split.
    + intros ->. unfold TryMakeUnitValid, interpolable in *.
      destruct v; simpl in *; auto; destruct (GetInto_float _); simplify_eq; eauto.
    + intros [Hi|[f Hf]]; [by destruct (H2 Hi)|].
      destruct ok; [done|]. destruct (H3 eq_refl) as (_ & _ & Hn). congruence.
  - intros ->. split; [by apply H1|]. apply Hid. by apply H1.
  - intros ->. by destruct (H3 eq_refl).
  - intros Hi. by destruct (H2 Hi) as [-> ->].
Qed.

(** X21: the result flags of [PrepareTransformPair] are sound.  When the
    result is not [Invalid], a transform that is not reported as changed has
    the size and the primitive kinds it had; and of two transforms of unequal
    size the shorter is always reported as changed. *)
Theorem result_flags_sound (t0 t1 : Transform) (element : Element) r t0' t1' :
  PrepareTransformPair t0 t1 element = (r, t0', t1') ->
  r <> Invalid ->
  (changed_t0 r = false ->
   map prim_index t0' = map prim_index t0 /\ length t0' = length t0) /\
  (changed_t1 r = false ->
   map prim_index t1' = map prim_index t1 /\ length t1' = length t1) /\
  ((length t0 < length t1)%nat -> changed_t0 r = true) /\
  ((length t1 < length t0)%nat -> changed_t1 r = true).
Proof.
  intros Hrun Hr.
  destruct (PrepareTransformPair_flags _ _ _ _ _ _ Hrun Hr) as [H0 H1].
  assert (forall (l l' : list Primitive),
             map prim_index l' = map prim_index l -> length l' = length l) as Hlen.
  { intros l l' H. apply (f_equal length) in H. by rewrite !length_map in H. }
  split; [intros Hc; split; [|apply Hlen]; by apply H0|].
  split; [intros Hc; split; [|apply Hlen]; by apply H1|].
  assert (forall p0 p1, decompose_pair p0 p1 element = (r, t0', t1') ->
            changed_t0 r = true /\ changed_t1 r = true) as Hfall.
  { intros p0 p1 Hd. apply decompose_pair_inv in Hd as [(? & _)|(-> & _)]; done. }
  unfold PrepareTransformPair in Hrun.
  destruct (decide (length t0 = length t1)) as [Hl|Hl]; [split; lia|].
  destruct (ms_match_success _).
  - destruct (ms_changed_big _); case_bool_decide; simplify_eq; split; intros; done || lia.
  - apply Hfall in Hrun as [-> ->]. done.
Qed.

Lemma combine_filter (t : list Primitive) (element : Element) : forall m,
  foldl (fun m primitive =>
           match ResolveTransform primitive element with
           | Some m_primitive => Matrix4f_mul m m_primitive
           | None => m
           end) m t
  = foldl (fun m primitive =>
             match ResolveTransform primitive element with
             | Some m_primitive => Matrix4f_mul m m_primitive
             | None => m
             end) m (filter (fun p => is_Some (ResolveTransform p element)) t).
Proof.
  induction t as [|p t IH]; intros m; [done|].
  rewrite filter_cons. simpl.
  destruct (decide (is_Some (ResolveTransform p element))) as [[mp Hp]|Hn].
  - simpl. rewrite Hp. apply IH.
  - destruct (ResolveTransform p element) eqn:Hp; [by destruct Hn|]. apply IH.
Qed.

(** X22: [CombineAndDecompose] passes over the primitives whose
    [ResolveTransform] fails: the transform is decomposed as if they were not
    there, and a transform of which no primitive resolves is decomposed as
    the identity matrix.  On success the transform is left with exactly one
    primitive, the decomposed one. *)
Theorem CombineAndDecompose_skips_unresolved (t : Transform) (element : Element) :
  CombineAndDecompose t element
  = CombineAndDecompose
      (filter (fun p => is_Some (ResolveTransform p element)) (t : list Primitive)) element /\
  (Forall (fun p => ResolveTransform p element = None) t ->
   CombineAndDecompose t element = (fun d => [d]) <$> Decompose Matrix4f_Identity) /\
  (forall t', CombineAndDecompose t element = Some t' ->
              exists d, t' = [d] /\ Decompose (combine t element) = Some d).
Proof.
  unfold CombineAndDecompose, combine. unfold Transform in *.
  split; [by rewrite combine_filter|]. split.
  - intros Hall. rewrite combine_filter.
    assert (filter (fun p => is_Some (ResolveTransform p element)) t = []) as ->.
    { induction Hall as [|p t Hp _ IH]; [done|].
      rewrite filter_cons, IH. rewrite Hp. by case_decide. }
    simpl. by destruct (Decompose Matrix4f_Identity).
  - intros t' H. destruct (Decompose _) as [d|]; [|done]. simplify_eq. eauto.
Qed.

(** X23: the frame on which a timeline completes.  The call of
    [UpdateAndGetProperty] that sets [animation_complete] counts the
    iteration, keeps the direction, and sets the elapsed time to the
    duration: the local time at which the keys are looked up is the duration
    when the last iteration ran forward and (for a finite duration) 0 when it
    ran in reverse. *)
Theorem completion_renders_end (a : ElementAnimation) (world_time : float32) :
  animation_complete a = false ->
  animation_complete (advance a world_time) = true ->
  F32.is_finite (duration a) = true ->
  current_iteration (advance a world_time) = current_iteration a + 1 /\
  num_iterations a <= current_iteration a + 1 /\ num_iterations a <> -1 /\
  reverse_direction (advance a world_time) = reverse_direction a /\
  time_since_iteration_start (advance a world_time) = duration a /\
  local_time (advance a world_time)
  = (if reverse_direction a then F32.zero else duration a).
Proof.
  intros Hc Hc' Hfin. unfold local_time. revert Hc'. unfold advance.
  destruct (F32.geb _ _); [|simpl; congruence].
  destruct (bool_decide (current_iteration a + 1 < num_iterations a)
            || bool_decide (num_iterations a = -1)) eqn:Hnext; simpl; [congruence|].
  intros _. apply orb_false_iff in Hnext as [H1 H2].
  apply bool_decide_eq_false in H1. apply bool_decide_eq_false in H2.
  repeat split; try done; try lia.
  destruct (reverse_direction a); [|done]. by apply F32_sub_diag.
Qed.

End More.

(** * The concrete primitive library: laws, examples and instances *)

Import SpecModel Examples.

(** The concrete library satisfies what the specification says of the real
    one. *)
#[global] Instance SpecModel_laws : CollaboratorLaws collaborators.
Proof.
  split.
  - by intros [b|m].
  - intros p q p' q'. simpl. unfold try_convert.
    destruct (decide (index p = index q)) as [E|E]; [by intros [= <- <-]|].
    destruct p as [a|], q as [b|]; try done.
    destruct (generic a) as [a'|]; [|done].
    destruct (generic b) as [b'|]; [|done].
    destruct (decide (kind a' = kind b')) as [E'|]; [|done].
    intros [= <- <-]. simpl. by rewrite E'.
  - intros p q a. simpl. unfold interpolate_with.
    destruct p as [x|], q as [y|]; simpl; try done.
    intros Hne. destruct (decide (kind x = kind y)) as [E|]; [|done].
    by rewrite E in Hne.
Qed.




Example two_keys_by_AddKey :
  AddKey (timing_timeline F32.zero) [] F32.one (number ten) () Linear
  = Some (true, two_keys, []).
Proof. by_evaluation. Qed.

(** ** C1 *)

(** C1, as the code has it: with duration 1.0, two alternating iterations
    and keys (0, value 0) and (1, value 10, linear tween), queried 0.5, 1.5
    and 2.0 after the start (the three time differences being exact), the
    first call returns 5; the second sets the reverse flag, resets the
    elapsed time to 0 and returns 10, the start of the reversed iteration; the
    third returns 5, interpolating from 10 toward 0, and the timeline is not
    yet complete. *)
Theorem timing_example (start w1 w2 w3 : float32) :
  F32.sub w1 start = half -> F32.sub w2 w1 = F32.one -> F32.sub w3 w2 = half ->
  exists a h u1 u2 u3,
    AddKey (timing_timeline start) [] F32.one (number ten) () Linear = Some (true, a, h) /\
    UpdateAndGetProperty a h w1 = Some u1 /\
    value (up_property u1) = V_FLOAT five /\
    UpdateAndGetProperty (up_animation u1) (up_heap u1) w2 = Some u2 /\
    reverse_direction (up_animation u2) = true /\
    time_since_iteration_start (up_animation u2) = F32.zero /\
    value (up_property u2) = V_FLOAT ten /\
    UpdateAndGetProperty (up_animation u2) (up_heap u2) w3 = Some u3 /\
    IsComplete (up_animation u3) = false /\
    value (up_property u3) = V_FLOAT five.
Proof.
  intros H1 H2 H3.
  eexists _, _, _, _, _.
  split; [by_evaluation|].
  split.
  { unfold UpdateAndGetProperty, advance.
    cbn [last_update_world_time animation_complete valid orb negb].
    rewrite H1. by_evaluation. }
  split; [by_evaluation|].
  split.
  { unfold UpdateAndGetProperty, advance.
    cbn [up_animation up_heap last_update_world_time animation_complete valid orb negb].
    rewrite H2. by_evaluation. }
  split; [by_evaluation|].
  split; [by_evaluation|].
  split; [by_evaluation|].
  split.
  { unfold UpdateAndGetProperty, advance.
    cbn [up_animation up_heap last_update_world_time animation_complete valid orb negb].
    rewrite H3. by_evaluation. }
  split; by_evaluation.
Qed.


Lemma timing_example_witness :
  exists a h u1 u2 u3,
    AddKey (timing_timeline F32.zero) [] F32.one (number ten) () Linear = Some (true, a, h) /\
    UpdateAndGetProperty a h half = Some u1 /\
    value (up_property u1) = V_FLOAT five /\
    UpdateAndGetProperty (up_animation u1) (up_heap u1) one_and_half = Some u2 /\
    reverse_direction (up_animation u2) = true /\
    time_since_iteration_start (up_animation u2) = F32.zero /\
    value (up_property u2) = V_FLOAT ten /\
    UpdateAndGetProperty (up_animation u2) (up_heap u2) two = Some u3 /\
    IsComplete (up_animation u3) = false /\
    value (up_property u3) = V_FLOAT five.
Proof.
  apply (timing_example F32.zero half one_and_half two); vm_compute; reflexivity.
Defined.

(** At start 0 the three queries of the specification give 5, 10 and 5, and
    the timeline is not complete after the third. *)
Lemma timing_not_as_specified : ~ timing_as_specified () Linear F32.zero.
Proof.
  intros (a & h & u1 & u2 & u3 & v2 & Hadd & Hu1 & _ & Hu2 & _ & _ & _ & Hu3 & Hc & _).
  eval_lhs_in Hadd. injection Hadd as <- <-.
  eval_lhs_in Hu1. injection Hu1 as <-.
  eval_lhs_in Hu2. injection Hu2 as <-.
  eval_lhs_in Hu3. injection Hu3 as <-.
  eval_lhs_in Hc. discriminate Hc.
Qed.

(** The timeline completes, on the start value, half a duration later. *)
Example timing_completes_later :
  exists u1 u2 u3 u4,
    UpdateAndGetProperty two_keys [] half = Some u1 /\
    UpdateAndGetProperty (up_animation u1) [] one_and_half = Some u2 /\
    UpdateAndGetProperty (up_animation u2) [] two = Some u3 /\
    UpdateAndGetProperty (up_animation u3) [] (F32.add two half) = Some u4 /\
    IsComplete (up_animation u4) = true /\
    value (up_property u4) = V_FLOAT F32.zero.
Proof.
  eexists _, _, _, _.
  split; [by_evaluation|]. split; [by_evaluation|]. split; [by_evaluation|].
  split; [by_evaluation|]. split; by_evaluation.
Qed.

(** ** C2 *)

(** Adding an all-zero scale after a rotation fails in the decomposition of
    the new key's transform, after the transform of the first key has
    already been replaced by its decomposition. *)
Example failed_add_result :
  AddKey transform_timeline degenerate_store F32.one (transform_property 1%nat) () Linear
  = Some (false, transform_timeline,
          [ [DecomposedMatrix4 [mkBasic Rotate2D [f 3]]]; [scale 0 0 0] ]).
Proof. by_evaluation. Qed.

Lemma failed_add_keeps_rewritten_transform :
  ~ failed_add_restores transform_timeline degenerate_store F32.one
      (transform_property 1%nat) () Linear.
Proof.
  intros H.
  destruct (H _ _ failed_add_result) as [_ Hr].
  specialize (Hr 0%nat).
  assert (Hin : 0%nat ∈ key_refs (keys transform_timeline)).
  { vm_compute. apply list_elem_of_here. }
  specialize (Hr Hin). eval_lhs_in Hr. discriminate Hr.
Qed.

(** C2: a failed [AddKey] does not leave the transforms of the earlier keys
    as they were.  The timeline has two keys whose transforms have equal
    kinds, and renders without a warning.  Adding a third key, whose
    transform has the same size, other kinds and a singular matrix, fails:
    [AddKey] returns [false] and the keys are as before, but the transform of
    the second key has been replaced by its decomposition, since
    [CombineAndDecompose] succeeded on it before it failed on the new one.
    From then on the two keys have transforms of different sizes:
    [UpdateAndGetProperty] logs the size warning and returns the first key's
    transform. *)
Theorem failed_add_breaks_earlier_keys :
  exists a h,
    AddKey transform_timeline Timelines.three_store F32.one (transform_property 1%nat) ()
      Linear
    = Some (true, a, h) /\
    up_log <$> UpdateAndGetProperty a h half = Some [] /\
    exists h',
      AddKey a h two (transform_property 2%nat) () Linear = Some (false, a, h') /\
      deref h 1%nat = [scale 4 4 4; rotate 5] /\
      deref h' 1%nat
      = [DecomposedMatrix4 [mkBasic Scale3D [f 4; f 4; f 4]; mkBasic Rotate2D [f 5]]] /\
      (fun u => (value (up_property u), up_log u)) <$> UpdateAndGetProperty a h' half
      = Some (V_TRANSFORMREF 0%nat, [Warn_primitives_not_same_size]).
Proof.
  eexists _, _. split; [by_evaluation|]. split; [by_evaluation|].
  eexists. split; [by_evaluation|]. split; [by_evaluation|]. split; by_evaluation.
Qed.

(** ** C7 *)

Lemma Restless_laws : CollaboratorLaws Restless.library.
Proof.
  split.
  - done.
  - intros p q p' q'. simpl. unfold Restless.widen. intros H. by simplify_eq.
  - intros p q a Hne. simpl in *. by destruct (decide (p = q)).
Qed.

(** On three keys the walk goes back and forth between the two pairs, each
    pass changing the transform of the key in the middle: ten passes, one
    more than three per key, and failure. *)
Example restless_walk :
  (fun p => (pr_result p, pr_count_iterations p, pr_passes p))
    <$> @PrepareTransforms Restless.library Restless.three_keys ()
          Restless.three_transforms 2
  = Some (false, 9, 10%nat).
Proof. by_evaluation. Qed.

Lemma ten_passes_on_three_keys :
  ~ @passes_as_specified Restless.library Restless.three_keys ()
      Restless.three_transforms 2.
Proof.
  intros H. unfold passes_as_specified in H.
  pose proof restless_walk as Hw.
  destruct (@PrepareTransforms Restless.library Restless.three_keys ()
              Restless.three_transforms 2) as [p|]; [|discriminate].
  specialize (H p eq_refl). simpl in Hw.
  assert (pr_passes p = 10%nat) as Hp by congruence.
  rewrite Hp in H. simpl in H. lia.
Qed.

(** ** Instances of the theorems *)

Lemma completed_is_terminal_witness :
  animation_complete completed = true /\
  (forall world_time,
      UpdateAndGetProperty completed [] world_time
      = Some {| up_property := Property_empty; up_animation := completed;
                up_heap := []; up_log := [] |}).
Proof.
  split; [reflexivity|].
  exact (proj1 (completed_is_terminal completed [] eq_refl)).
Defined.

Lemma bracket_and_blend_witness :
  keys two_keys <> [] /\
  select_keys (keys two_keys) half = (0, 1) /\
  spec_raw_factor F32.zero F32.one half = half /\
  clamped_to_unit half (raw_alpha F32.zero F32.one half).
Proof.
  assert (Hne : keys two_keys <> []) by discriminate.
  split; [exact Hne|].
  destruct (proj1 (bracket_and_blend two_keys [] half Hne) half)
    as (Hs & k0 & k1 & Hk0 & Hk1 & Hc & _).
  split; [exact Hs|]. split; [reflexivity|].
  eval_lhs_in Hk0. eval_lhs_in Hk1.
  injection Hk0 as <-. injection Hk1 as <-. exact Hc.
Defined.

Lemma iterations_below_one_witness :
  0 <= current_iteration two_keys /\ -2 < 1 /\ -2 <> -1 /\
  (forall cs h,
      calls cs (set_num_iterations two_keys (-2)) h
      = relabel_run (-2) <$> calls cs (set_num_iterations two_keys 1) h) /\
  exists u,
    UpdateAndGetProperty (set_num_iterations two_keys (-2)) [] F32.one = Some u /\
    IsComplete (up_animation u) = true /\
    time_since_iteration_start (up_animation u) = duration two_keys.
Proof.
  assert (H0 : 0 <= current_iteration two_keys) by (vm_compute; discriminate).
  assert (H1 : -2 < 1) by lia.
  assert (H2 : -2 <> -1) by lia.
  destruct (iterations_below_one two_keys (-2) H0 H1 H2) as (Hcalls & Hfirst & _).
  split; [exact H0|]. split; [exact H1|]. split; [exact H2|]. split; [exact Hcalls|].
  destruct (Hfirst [] F32.one) as (u & Hu & _ & Hif);
    [discriminate|reflexivity|reflexivity|reflexivity|].
  exists u. split; [exact Hu|].
  assert (F32.geb (F32.add (time_since_iteration_start two_keys)
                     (F32.sub F32.one (last_update_world_time two_keys)))
            (duration two_keys) = true) as Hge by reflexivity.
  rewrite Hge in Hif. destruct Hif as (Hc & Hd & _). exact (conj Hc Hd).
Defined.

(** A count of [-2] completes at the end of the first iteration, as 1 does. *)
Example negative_count_completes :
  (fun u => (IsComplete (up_animation u), value (up_property u)))
    <$> UpdateAndGetProperty (set_num_iterations two_keys (-2)) [] F32.one
  = Some (true, V_FLOAT ten).
Proof. vm_compute. reflexivity. Qed.

Lemma InterpolateValues_inconsistent_witness :
  CollaboratorLaws collaborators /\
  InterpolateValues scale_rotate_store (V_FLOAT five) (V_TRANSFORMREF 0%nat) half
  = (V_FLOAT five, scale_rotate_store, [Warn_must_be_same_unit FLOAT TRANSFORMREF]) /\
  InterpolateValues scale_rotate_store (V_TRANSFORMREF 0%nat) (V_TRANSFORMREF 1%nat) half
  = (V_TRANSFORMREF 0%nat, scale_rotate_store, [Warn_primitives_not_same_size]).
Proof.
  split; [exact SpecModel_laws|].
  destruct (@InterpolateValues_inconsistent collaborators SpecModel_laws scale_rotate_store half)
    as (Hkind & Hsize & _).
  split.
  - apply (Hkind (V_FLOAT five) (V_TRANSFORMREF 0%nat)). discriminate.
  - apply (Hsize 0%nat 1%nat). vm_compute. discriminate.
Defined.

(** A kind mismatch at position 0 of two transforms of one size. *)
Example InterpolateValues_kind_mismatch :
  InterpolateValues degenerate_store (V_TRANSFORMREF 0%nat) (V_TRANSFORMREF 1%nat) half
  = (V_TRANSFORMREF 0%nat, degenerate_store, [Warn_primitives_not_same_type]).
Proof. vm_compute. reflexivity. Qed.

Lemma reconcile_by_insertion_witness :
  CollaboratorLaws collaborators /\
  embeds [translate_x 1; rotate 3] [scale_x 2; translate 4 5 6; scale_x 7; rotate 8] /\
  exists result small' big',
    PrepareTransformPair [translate_x 1; rotate 3]
      [scale_x 2; translate 4 5 6; scale_x 7; rotate 8] ()
    = (result, small', big') /\
    length small' = 4%nat /\
    map prim_index small' = map prim_index big'.
Proof.
  assert (He : embeds [translate_x 1; rotate 3]
                 [scale_x 2; translate 4 5 6; scale_x 7; rotate 8]).
  { apply (@embeds_later collaborators).
    apply (@embeds_here collaborators); [right; vm_compute; eauto|].
    apply (@embeds_later collaborators).
    apply (@embeds_here collaborators); [left; reflexivity|].
    apply (@embeds_nil collaborators). }
  split; [exact SpecModel_laws|]. split; [exact He|].
  destruct (proj2 (@reconcile_by_insertion collaborators SpecModel_laws ())
              [translate_x 1; rotate 3] [scale_x 2; translate 4 5 6; scale_x 7; rotate 8])
    as (result & small' & big' & positions & matched & Hp & _ & Hl & _ & Hk & _);
    [discriminate|exact He|].
  exists result, small', big'. split; [exact Hp|]. split; [exact Hl|exact Hk].
Defined.

(** The two examples, computed. *)
Example reconcile_scale_rotate :
  PrepareTransformPair [scale 2 2 2; rotate 3] [scale 4 4 4] ()
  = (ChangedT1, [scale 2 2 2; rotate 3], [scale 4 4 4; rotate 0]).
Proof. vm_compute. reflexivity. Qed.

Example reconcile_with_widening :
  PrepareTransformPair [translate_x 1; rotate 3]
    [scale_x 2; translate 4 5 6; scale_x 7; rotate 8] ()
  = (ChangedT0,
     [scale_x 1; translate 1 0 0; scale_x 1; rotate 3],
     [scale_x 2; translate 4 5 6; scale_x 7; rotate 8]).
Proof. vm_compute. reflexivity. Qed.

Lemma PrepareTransforms_bounded_witness :
  Forall holds_transform (keys transform_timeline
                          ++ [ {| key_time := F32.one; key_value := V_TRANSFORMREF 1%nat;
                                  key_tween := Linear |} ]) /\
  exists p,
    PrepareTransforms (keys transform_timeline
                       ++ [ {| key_time := F32.one; key_value := V_TRANSFORMREF 1%nat;
                               key_tween := Linear |} ])
      () scale_rotate_store 1 = Some p /\
    (pr_passes p <= 3 * 2 + 1)%nat.
Proof.
  assert (H : Forall holds_transform
                (keys transform_timeline
                 ++ [ {| key_time := F32.one; key_value := V_TRANSFORMREF 1%nat;
                         key_tween := Linear |} ])).
  { repeat constructor; vm_compute; eauto. }
  split; [exact H|].
  destruct (proj1 (@PrepareTransforms_bounded collaborators _ () scale_rotate_store 1 H))
    as (p & Hp & _ & Hb & _).
  exists p. split; [exact Hp|exact Hb].
Defined.

(** The reconciliation of the two-key chain takes one pass. *)
Example PrepareTransforms_one_pass :
  (fun p => (pr_result p, pr_count_iterations p, pr_passes p, pr_heap p))
    <$> PrepareTransforms
          (keys transform_timeline
           ++ [ {| key_time := F32.one; key_value := V_TRANSFORMREF 1%nat; key_tween := Linear |} ])
          () scale_rotate_store 1
  = Some (true, 0, 1%nat, [ [scale 2 2 2; rotate 3]; [scale 4 4 4; rotate 0] ]).
Proof. vm_compute. reflexivity. Qed.

(** ** Instances of the further properties *)

Import Timelines.

Lemma matching_succeeds_iff_embeds_witness :
  CollaboratorLaws collaborators /\
  (ms_match_success
     (match_small_into_big [translate_x 1; rotate 3]
        [scale_x 2; translate 4 5 6; scale_x 7; rotate 8]) = true
   <-> embeds [translate_x 1; rotate 3]
         [scale_x 2; translate 4 5 6; scale_x 7; rotate 8]).
Proof.
  split; [exact SpecModel_laws|].
  apply (@matching_succeeds_iff_embeds collaborators SpecModel_laws).
Defined.

Lemma Unchanged_iff_same_kinds_witness :
  CollaboratorLaws collaborators /\
  ((PrepareTransformPair [scale 2 2 2; rotate 3] [scale 4 4 4; rotate 0] ()).1.1 = Unchanged
   <-> map prim_index [scale 2 2 2; rotate 3] = map prim_index [scale 4 4 4; rotate 0]).
Proof.
  split; [exact SpecModel_laws|].
  apply (@Unchanged_iff_same_kinds collaborators SpecModel_laws).
Defined.

Lemma PrepareTransformPair_postcondition_witness :
  CollaboratorLaws collaborators /\
  (forall m m' d d',
      Decompose m = Some d -> Decompose m' = Some d' -> prim_index d = prim_index d') /\
  PrepareTransformPair [rotate 3] [scale 4 4 4] ()
  = (ChangedT0andT1, [DecomposedMatrix4 [mkBasic Rotate2D [f 3]]],
     [DecomposedMatrix4 [mkBasic Scale3D [f 4; f 4; f 4]]]) /\
  PrepareTransformPair [DecomposedMatrix4 [mkBasic Rotate2D [f 3]]]
    [DecomposedMatrix4 [mkBasic Scale3D [f 4; f 4; f 4]]] ()
  = (Unchanged, [DecomposedMatrix4 [mkBasic Rotate2D [f 3]]],
     [DecomposedMatrix4 [mkBasic Scale3D [f 4; f 4; f 4]]]).
Proof.
  assert (forall (m m' : Matrix4f) (d d' : Primitive),
             Decompose m = Some d -> Decompose m' = Some d' -> prim_index d = prim_index d')
    as Hdec.
  { intros m m' d d'. simpl. unfold decompose.
    destruct (existsb singular m), (existsb singular m'); intros; by simplify_eq. }
  assert (PrepareTransformPair [rotate 3] [scale 4 4 4] ()
          = (ChangedT0andT1, [DecomposedMatrix4 [mkBasic Rotate2D [f 3]]],
             [DecomposedMatrix4 [mkBasic Scale3D [f 4; f 4; f 4]]])) as Hrun
    by by_evaluation.
  split; [exact SpecModel_laws|]. split; [exact Hdec|]. split; [exact Hrun|].
  apply (@PrepareTransformPair_postcondition collaborators SpecModel_laws
           _ _ () _ _ _ Hdec Hrun).
  discriminate.
Defined.

Lemma Invalid_only_by_decomposition_witness :
  CollaboratorLaws collaborators /\
  PrepareTransformPair [rotate 3] [scale 0 0 0] ()
  = (Invalid, [DecomposedMatrix4 [mkBasic Rotate2D [f 3]]], [scale 0 0 0]) /\
  exists p, CombineAndDecompose p () = None.
Proof.
  assert (PrepareTransformPair [rotate 3] [scale 0 0 0] ()
          = (Invalid, [DecomposedMatrix4 [mkBasic Rotate2D [f 3]]], [scale 0 0 0])) as Hrun
    by by_evaluation.
  split; [exact SpecModel_laws|]. split; [exact Hrun|].
  apply (@Invalid_only_by_decomposition collaborators SpecModel_laws _ _ () _ _ _ Hrun).
  reflexivity.
Defined.

Lemma decomposed_one_kind :
  forall (m m' : Matrix4f) (d d' : Primitive),
    Decompose m = Some d -> Decompose m' = Some d' -> prim_index d = prim_index d'.
Proof.
  intros m m' d d'. simpl. unfold decompose.
  destruct (existsb singular m), (existsb singular m'); intros; by simplify_eq.
Qed.

Lemma NoDup_two_locations : NoDup [0%nat; 1%nat].
Proof.
  apply NoDup_cons. split; [|apply NoDup_singleton].
  intros H. apply list_elem_of_singleton in H. discriminate.
Qed.

Lemma valid_keys_interpolable_witness :
  reachable (timing_timeline F32.zero) [] /\
  (valid (timing_timeline F32.zero) = true ->
   Forall (fun k => interpolable (key_value k)) (keys (timing_timeline F32.zero))).
Proof.
  assert (reachable (timing_timeline F32.zero) []) as Hr by apply reachable_new.
  split; [exact Hr|].
  apply (@valid_keys_interpolable collaborators _ _ Hr).
Defined.

Lemma invalid_is_inert_witness :
  valid string_timeline = false /\
  calls [Call_UpdateAndGetProperty half; Call_AddKey F32.one (number ten) () Linear]
    string_timeline []
  = Some ([Ret_UpdateAndGetProperty Property_empty []; Ret_AddKey false], string_timeline, []).
Proof.
  assert (valid string_timeline = false) as Hv by reflexivity.
  split; [exact Hv|].
  exact (proj2 (@invalid_is_inert collaborators) string_timeline []
           [Call_UpdateAndGetProperty half; Call_AddKey F32.one (number ten) () Linear] Hv).
Defined.

Lemma same_time_query_is_noop_witness :
  F32.is_finite half = true /\
  exists u,
    UpdateAndGetProperty two_keys [] half = Some u /\
    UpdateAndGetProperty (up_animation u) (up_heap u) half
    = Some {| up_property := Property_empty; up_animation := up_animation u;
              up_heap := up_heap u; up_log := [] |}.
Proof.
  split; [reflexivity|].
  destruct (UpdateAndGetProperty_defined two_keys [] half) as [u Hu]; [done|].
  exists u. split; [exact Hu|].
  exact (@same_time_query_is_noop collaborators two_keys [] half u eq_refl Hu).
Defined.

Lemma playback_invariant_witness :
  reachable (timing_timeline F32.zero) [] /\ playback_inv (timing_timeline F32.zero).
Proof.
  assert (reachable (timing_timeline F32.zero) []) as Hr by apply reachable_new.
  split; [exact Hr|].
  exact (@playback_invariant collaborators _ _ Hr).
Defined.

Lemma elapsed_within_duration_witness :
  reachable (timing_timeline F32.zero) [] /\
  F32.leb F32.zero (duration (timing_timeline F32.zero)) = true /\
  F32.gtb (time_since_iteration_start (timing_timeline F32.zero))
    (duration (timing_timeline F32.zero)) = false.
Proof.
  assert (reachable (timing_timeline F32.zero) []) as Hr by apply reachable_new.
  split; [exact Hr|]. split; [reflexivity|].
  exact (@elapsed_within_duration collaborators _ _ Hr eq_refl).
Defined.

Lemma UpdateAndGetProperty_frame_witness :
  exists u,
    UpdateAndGetProperty two_keys [] half = Some u /\
    keys (up_animation u) = keys two_keys.
Proof.
  destruct (UpdateAndGetProperty_defined two_keys [] half) as [u Hu]; [done|].
  exists u. split; [exact Hu|].
  exact (proj1 (@UpdateAndGetProperty_frame collaborators two_keys [] half u Hu)).
Defined.

Lemma AddKey_appends_witness :
  AddKey (timing_timeline F32.zero) [] F32.one (number ten) () Linear
  = Some (true, two_keys, []) /\
  unit (number ten) = property_unit (timing_timeline F32.zero) /\
  valid (timing_timeline F32.zero) = true.
Proof.
  assert (AddKey (timing_timeline F32.zero) [] F32.one (number ten) () Linear
          = Some (true, two_keys, [])) as Hrun by by_evaluation.
  split; [exact Hrun|].
  pose proof (@AddKey_appends collaborators _ _ _ _ _ _ _ _ Hrun) as (Hu & Hv & _).
  exact (conj Hu Hv).
Defined.

Lemma InterpolateValues_transforms_witness :
  length (deref [ [scale 2 2 2]; [scale 4 4 4] ] 0%nat)
  = length (deref [ [scale 2 2 2]; [scale 4 4 4] ] 1%nat) /\
  exists prims,
    InterpolateValues [ [scale 2 2 2]; [scale 4 4 4] ]
      (V_TRANSFORMREF 0%nat) (V_TRANSFORMREF 1%nat) half
    = (V_TRANSFORMREF 2%nat, [ [scale 2 2 2]; [scale 4 4 4] ] ++ [prims], []) /\
    length prims = 1%nat.
Proof.
  split; [reflexivity|].
  destruct (@InterpolateValues_transforms collaborators
              [ [scale 2 2 2]; [scale 4 4 4] ] 0%nat 1%nat half eq_refl)
    as (prims & Hrun & Hlen & _).
  - intros [|[|i]] x y Hx Hy; simpl in Hx, Hy; simplify_eq.
    simpl. unfold interpolate_with, scale. simpl. eauto.
  - exists prims. split; [exact Hrun|exact Hlen].
Defined.

Lemma PrepareTransforms_reconciles_witness :
  CollaboratorLaws collaborators /\
  separate_transforms transform_keys scale_rotate_store /\
  reconciled_below transform_keys scale_rotate_store 1 /\
  exists p,
    PrepareTransforms transform_keys () scale_rotate_store 1 = Some p /\
    pr_result p = true /\
    reconciled_below transform_keys (pr_heap p) (Z.of_nat (length transform_keys)).
Proof.
  assert (separate_transforms transform_keys scale_rotate_store) as Hsep.
  { split; [|split].
    - repeat constructor; eexists; reflexivity.
    - exact NoDup_two_locations.
    - change (Forall (fun r => (r < 2)%nat) [0%nat; 1%nat]). repeat constructor. }
  assert (reconciled_below transform_keys scale_rotate_store 1) as Hbelow
    by (intros j Hj; lia).
  destruct (PrepareTransforms transform_keys () scale_rotate_store 1) as [p|] eqn:Hp.
  2:{ exfalso. eval_lhs_in Hp. discriminate. }
  assert (pr_result p = true) as Hr.
  { eval_lhs_in Hp. by simplify_eq. }
  split; [exact SpecModel_laws|]. split; [exact Hsep|]. split; [exact Hbelow|].
  exists p. split; [reflexivity|]. split; [exact Hr|].
  exact (proj1 (@PrepareTransforms_reconciles collaborators SpecModel_laws
                  transform_keys () scale_rotate_store 1 p
                  decomposed_one_kind Hsep Hbelow Hp Hr)).
Defined.

Lemma AddKey_keeps_reconciled_witness :
  CollaboratorLaws collaborators /\
  exists a' h',
    AddKey transform_timeline scale_rotate_store F32.one (transform_property 1%nat) () Linear
    = Some (true, a', h') /\
    reconciled_below (keys a') h' (Z.of_nat (length (keys a'))).
Proof.
  split; [exact SpecModel_laws|].
  destruct (AddKey transform_timeline scale_rotate_store F32.one
              (transform_property 1%nat) () Linear) as [[[ok a'] h']|] eqn:Hrun.
  2:{ exfalso. eval_lhs_in Hrun. discriminate. }
  assert (ok = true) as -> by (eval_lhs_in Hrun; by simplify_eq).
  exists a', h'. split; [reflexivity|].
  assert (separate_transforms
            (keys transform_timeline
             ++ [ {| key_time := F32.one; key_value := V_TRANSFORMREF 1%nat;
                     key_tween := Linear |} ]) scale_rotate_store) as Hsep.
  { split; [|split].
    - repeat constructor; eexists; reflexivity.
    - exact NoDup_two_locations.
    - change (Forall (fun r => (r < 2)%nat) [0%nat; 1%nat]). repeat constructor. }
  assert (reconciled_below (keys transform_timeline) scale_rotate_store
            (Z.of_nat (length (keys transform_timeline)))) as Hbelow.
  { intros j Hj. simpl in Hj. lia. }
  exact (proj2 (proj2 (@AddKey_keeps_reconciled collaborators SpecModel_laws
                         transform_timeline scale_rotate_store F32.one
                         (transform_property 1%nat) () Linear 1%nat a' h'
                         decomposed_one_kind eq_refl eq_refl Hsep Hbelow Hrun))).
Defined.

Lemma PrepareTransforms_few_keys_witness :
  (length (keys transform_timeline) <= 1)%nat /\
  PrepareTransforms (keys transform_timeline) () scale_rotate_store 0
  = Some {| pr_result := true; pr_heap := scale_rotate_store;
            pr_count_iterations := -1; pr_passes := 0 |}.
Proof.
  assert (length (keys transform_timeline) <= 1)%nat as Hlen by (simpl; lia).
  split; [exact Hlen|].
  exact (proj1 (@PrepareTransforms_few_keys collaborators (keys transform_timeline) ()
                  scale_rotate_store 0) Hlen).
Defined.

Lemma float_blend_endpoints_witness :
  valid_binary F32.prec F32.emax five = true /\
  valid_binary F32.prec F32.emax ten = true /\
  F32.is_finite ten = true /\
  exists r, InterpolateValues (C := collaborators) [] (V_FLOAT five) (V_FLOAT ten) F32.zero
            = (V_FLOAT r, [], []) /\ same_number five r.
Proof.
  split; [reflexivity|]. split; [reflexivity|]. split; [reflexivity|].
  exact (proj1 (@float_blend_endpoints collaborators [] five ten eq_refl eq_refl) eq_refl).
Defined.

Lemma colour_blend_endpoints_witness :
  Colourb_wf (mkColourb 1 4 200 255) /\ Colourb_wf (mkColourb 0 0 0 0) /\
  InterpolateValues (C := collaborators) []
    (V_COLOURB (mkColourb 1 4 200 255)) (V_COLOURB (mkColourb 0 0 0 0)) F32.zero
  = (V_COLOURB (ColourFromLinearSpace (ColourToLinearSpace (mkColourb 1 4 200 255))), [], []).
Proof.
  assert (Colourb_wf (mkColourb 1 4 200 255)) as W0 by (unfold Colourb_wf, byte_range; simpl; lia).
  assert (Colourb_wf (mkColourb 0 0 0 0)) as W1 by (unfold Colourb_wf, byte_range; simpl; lia).
  split; [exact W0|]. split; [exact W1|].
  exact (proj1 (@colour_blend_endpoints collaborators [] _ _ W0 W1)).
Defined.

Lemma raw_alpha_range_witness :
  F32.is_finite (F32.sub half F32.zero) = true /\
  F32.leb F32.zero (raw_alpha F32.zero F32.one half) = true /\
  F32.leb (raw_alpha F32.zero F32.one half) F32.one = true.
Proof.
  split; [reflexivity|].
  destruct (raw_alpha_range F32.zero F32.one half eq_refl) as (H0 & H1 & _).
  exact (conj H0 H1).
Defined.

Lemma ColourToLinearSpace_unit_witness :
  Colourb_wf (mkColourb 1 4 200 255) /\
  unit_interval (cf_red (ColourToLinearSpace (mkColourb 1 4 200 255))) = true.
Proof.
  assert (Colourb_wf (mkColourb 1 4 200 255)) as W0 by (unfold Colourb_wf, byte_range; simpl; lia).
  split; [exact W0|].
  exact (proj1 (ColourToLinearSpace_unit _ W0)).
Defined.

Lemma result_flags_sound_witness :
  PrepareTransformPair [scale 2 2 2; rotate 3] [scale 4 4 4] ()
  = (ChangedT1, [scale 2 2 2; rotate 3], [scale 4 4 4; rotate 0]) /\
  ChangedT1 <> Invalid /\
  map prim_index [scale 2 2 2; rotate 3] = map prim_index [scale 2 2 2; rotate 3] /\
  changed_t1 ChangedT1 = true.
Proof.
  assert (PrepareTransformPair [scale 2 2 2; rotate 3] [scale 4 4 4] ()
          = (ChangedT1, [scale 2 2 2; rotate 3], [scale 4 4 4; rotate 0])) as Hrun
    by by_evaluation.
  assert (ChangedT1 <> Invalid) as Hr by discriminate.
  split; [exact Hrun|]. split; [exact Hr|].
  destruct (@result_flags_sound collaborators _ _ () _ _ _ Hrun Hr) as (H0 & _ & _ & H3).
  split; [exact (proj1 (H0 eq_refl))|]. apply H3. simpl. lia.
Defined.

Lemma completion_renders_end_witness :
  animation_complete last_iteration = false /\
  animation_complete (advance last_iteration F32.one) = true /\
  F32.is_finite (duration last_iteration) = true /\
  local_time (advance last_iteration F32.one) = F32.zero.
Proof.
  assert (animation_complete (advance last_iteration F32.one) = true) as Hc by reflexivity.
  split; [reflexivity|]. split; [exact Hc|]. split; [reflexivity|].
  destruct (@completion_renders_end collaborators last_iteration F32.one eq_refl Hc eq_refl)
    as (_ & _ & _ & _ & _ & Ht).
  exact Ht.
Defined.

Lemma TryMakeUnitValid_idempotent_witness :
  (TryMakeUnitValid (C := collaborators) (V_INT 3)).1 = true /\
  TryMakeUnitValid (C := collaborators) (TryMakeUnitValid (C := collaborators) (V_INT 3)).2
  = (true, (TryMakeUnitValid (C := collaborators) (V_INT 3)).2).
Proof.
  split; [reflexivity|].
  destruct (@TryMakeUnitValid_idempotent collaborators (V_INT 3)) as (_ & H & _).
  exact (proj2 (H eq_refl)).
Defined.

Lemma CombineAndDecompose_skips_unresolved_witness :
  CombineAndDecompose [rotate 3] () = Some [DecomposedMatrix4 [mkBasic Rotate2D [f 3]]] /\
  exists d, [DecomposedMatrix4 [mkBasic Rotate2D [f 3]]] = [d].
Proof.
  assert (CombineAndDecompose [rotate 3] () = Some [DecomposedMatrix4 [mkBasic Rotate2D [f 3]]])
    as Hrun by by_evaluation.
  split; [exact Hrun|].
  destruct (@CombineAndDecompose_skips_unresolved collaborators [rotate 3] ()) as (_ & _ & H).
  destruct (H _ Hrun) as (d & Hd & _). exists d. exact Hd.
Defined.

Lemma reconciled_timeline_same_size_witness :
  reconciled_below (keys reconciled_timeline) reconciled_store
    (Z.of_nat (length (keys reconciled_timeline))) /\
  exists u,
    UpdateAndGetProperty reconciled_timeline reconciled_store half = Some u /\
    Warn_primitives_not_same_size ∉ up_log u.
Proof.
  assert (reconciled_below (keys reconciled_timeline) reconciled_store
            (Z.of_nat (length (keys reconciled_timeline)))) as Hrec.
  { intros j Hj r0 r1 E0 E1. assert (j = 1) as -> by (simpl in Hj; lia).
    vm_compute in E0, E1. simplify_eq. reflexivity. }
  split; [exact Hrec|].
  destruct (UpdateAndGetProperty_defined reconciled_timeline reconciled_store half)
    as [u Hu]; [done|].
  exists u. split; [exact Hu|].
  exact (@reconciled_timeline_same_size collaborators _ _ _ _ Hrec Hu).
Defined.
